(** * signal_processing: anomaly removal and peak detection

    A shallow embedding of [remove_shots] and [detect_peaks] of
    [src/__init__.py], and the properties of the specification that concern
    them.  The functions of the file that need nothing of numpy but
    arithmetic on arrays follow: [detect_onsets], [upsample], [downsample],
    [integral], [delta], [derivative], [trendline], [f], [threshold],
    [magnitude], [limit] and [normalize], with further properties of all of
    them at the end.

    Numbers.  Python floats are read as exact rationals ([Qc], the canonical
    rationals, so that equal numbers are equal terms), extended with what the
    code itself produces besides: [NaN] (numpy's average of an empty list) in
    signals, and the infinities that [detect_peaks] uses as sentinels.
    Rounding is outside the model.

    Exceptions.  A Python function that may raise returns a [result]; the
    list comprehensions, loops and subscriptions of the source are written
    in the error monad, in the source's evaluation order. *)

From Stdlib Require Import QArith Qcanon Qround.
From stdpp Require Import base numbers list sorting.

Local Open Scope Z_scope.

(** ** Exceptions *)

Inductive exn : Type :=
  | TypeError
  | ValueError
  | IndexError
  | ZeroDivisionError
  | UnboundLocalError.

Inductive result (A : Type) : Type :=
  | Ok (a : A)
  | Raise (e : exn).

Arguments Ok {A} a.
Arguments Raise {A} e.

#[global] Instance result_ret : MRet result := fun A a => Ok a.

#[global] Instance result_bind : MBind result := fun A B f m =>
  match m with
  | Ok a => f a
  | Raise e => Raise e
  end.

#[global] Instance result_fmap : FMap result := fun A B f m =>
  match m with
  | Ok a => Ok (f a)
  | Raise e => Raise e
  end.

(** ** Numbers *)

Definition Qc_ltb (x y : Qc) : bool :=
  match (x ?= y)%Qc with Lt => true | _ => false end.

Definition Qc_eqb (x y : Qc) : bool :=
  match (x ?= y)%Qc with Eq => true | _ => false end.

(** Python's [abs] on a finite number. *)
Definition Qc_abs (x : Qc) : Qc := if Qc_ltb x 0%Qc then (- x)%Qc else x.

(** The number of a Python [int]. *)
Definition Qc_of_int (n : Z) : Qc := Q2Qc (inject_Z n).

(** Python's true division of two [int]s. *)
Definition int_truediv (a b : Z) : result Qc :=
  if decide (b = 0) then Raise ZeroDivisionError
  else Ok (Qc_of_int a / Qc_of_int b)%Qc.

(** ** Python sequences *)

(** [l[i]]: a negative index counts from the end, an index out of range
    raises [IndexError]. *)
Definition getitem {A} (l : list A) (i : Z) : result A :=
  let n := Z.of_nat (length l) in
  let i' := if decide (i < 0) then i + n else i in
  if decide (0 <= i' < n) then
    match l !! Z.to_nat i' with
    | Some x => Ok x
    | None => Raise IndexError
    end
  else Raise IndexError.

(** [l[i] = x] *)
Definition setitem {A} (l : list A) (i : Z) (x : A) : result (list A) :=
  let n := Z.of_nat (length l) in
  let i' := if decide (i < 0) then i + n else i in
  if decide (0 <= i' < n) then Ok (<[Z.to_nat i' := x]> l)
  else Raise IndexError.

(** A slice bound of a sequence of length [n]: a negative bound counts from
    the end, and the result is clipped to [0 .. n]. *)
Definition slice_bound (n i : Z) : Z :=
  if decide (i < 0) then Z.max (i + n) 0 else Z.min i n.

(** [l[start:stop]] *)
Definition slice {A} (l : list A) (start stop : Z) : list A :=
  let n := Z.of_nat (length l) in
  let a := slice_bound n start in
  let b := slice_bound n stop in
  take (Z.to_nat (b - a)) (drop (Z.to_nat a) l).

(** [enumerate(l)], counting from [i]. *)
Fixpoint enumerate_from {A} (i : nat) (l : list A) : list (nat * A) :=
  match l with
  | [] => []
  | x :: l' => (i, x) :: enumerate_from (S i) l'
  end.

Definition enumerate {A} (l : list A) : list (nat * A) := enumerate_from 0 l.

(** ** detect_peaks *)

(** A float of [detect_peaks]: a finite number or one of the two infinities
    the function uses as sentinels. *)
Inductive ext : Type :=
  | NegInf
  | Fin (q : Qc)
  | PosInf.

Definition ext_ltb (x y : ext) : bool :=
  match x, y with
  | NegInf, NegInf => false
  | NegInf, _ => true
  | Fin a, Fin b => Qc_ltb a b
  | Fin _, PosInf => true
  | Fin _, NegInf => false
  | PosInf, _ => false
  end.

Definition ext_eqb (x y : ext) : bool :=
  match x, y with
  | NegInf, NegInf => true
  | Fin a, Fin b => Qc_eqb a b
  | PosInf, PosInf => true
  | _, _ => false
  end.

(** [x - d] and [x + d] for a finite [d]: an infinity stays what it is. *)
Definition ext_sub (x : ext) (d : Qc) : ext :=
  match x with Fin a => Fin (a - d)%Qc | _ => x end.

Definition ext_add (x : ext) (d : Qc) : ext :=
  match x with Fin a => Fin (a + d)%Qc | _ => x end.

(** numpy's [a.max()] and [a.min()]: [ValueError] on an empty array. *)
Definition Qc_max (x y : Qc) : Qc := if Qc_ltb x y then y else x.
Definition Qc_min (x y : Qc) : Qc := if Qc_ltb y x then y else x.

Definition array_max (a : list Qc) : result Qc :=
  match a with
  | [] => Raise ValueError
  | x :: a' => Ok (foldl Qc_max x a')
  end.

Definition array_min (a : list Qc) : result Qc :=
  match a with
  | [] => Raise ValueError
  | x :: a' => Ok (foldl Qc_min x a')
  end.

(** The local variables of [detect_peaks].  [max_pos] and [min_pos] are
    unbound until their first assignment. *)
Record peak_state : Type := PeakState {
  max_value : ext;
  max_pos : option nat;
  min_value : ext;
  min_pos : option nat;
  peaks : list (nat * ext);
  valleys : list (nat * ext)
}.

Definition read_local (v : option nat) : result nat :=
  match v with
  | Some x => Ok x
  | None => Raise UnboundLocalError
  end.

(** How an iteration of the [for] loop ends. *)
Inductive flow : Type :=
  | Continue
  | Break.

Definition peak_init : peak_state :=
  PeakState NegInf None PosInf None [] [].

Section DetectPeaks.
Variable signal : list Qc.
Variable lookahead : Z.
Variable delta : Qc.

Definition size : Z := Z.of_nat (length signal).

(** Lines 169 to 174: the two running candidates. *)
Definition track (index : nat) (value : Qc) (st : peak_state) : peak_state :=
  let st1 :=
    if ext_ltb (max_value st) (Fin value)
    then PeakState (Fin value) (Some index) (min_value st) (min_pos st)
                   (peaks st) (valleys st)
    else st in
  if ext_ltb (Fin value) (min_value st1)
  then PeakState (max_value st1) (max_pos st1) (Fin value) (Some index)
                 (peaks st1) (valleys st1)
  else st1.

(** Lines 175 to 183.  [None]: the peak was not confirmed and the
    iteration goes on to the valley test. *)
Definition confirm_peak (index : nat) (value : Qc) (st : peak_state)
  : result (option (flow * peak_state)) :=
  if ext_ltb (Fin value) (ext_sub (max_value st) delta)
     && negb (ext_eqb (max_value st) PosInf)
  then
    m ← array_max (slice signal (Z.of_nat index) (Z.of_nat index + lookahead));
    if ext_ltb (Fin m) (max_value st) then
      pos ← read_local (max_pos st);
      let st' := PeakState PosInf (max_pos st) PosInf (min_pos st)
                           (peaks st ++ [(pos, max_value st)]) (valleys st) in
      if decide (Z.of_nat index + lookahead >= size)
      then Ok (Some (Break, st'))
      else Ok (Some (Continue, st'))
    else Ok None
  else Ok None.

(** Lines 184 to 191. *)
Definition confirm_valley (index : nat) (value : Qc) (st : peak_state)
  : result (flow * peak_state) :=
  if ext_ltb (ext_add (min_value st) delta) (Fin value)
     && negb (ext_eqb (min_value st) NegInf)
  then
    m ← array_min (slice signal (Z.of_nat index) (Z.of_nat index + lookahead));
    if ext_ltb (min_value st) (Fin m) then
      pos ← read_local (min_pos st);
      let st' := PeakState NegInf (max_pos st) NegInf (min_pos st)
                           (peaks st) (valleys st ++ [(pos, min_value st)]) in
      if decide (Z.of_nat index + lookahead >= size)
      then Ok (Break, st')
      else Ok (Continue, st')
    else Ok (Continue, st)
  else Ok (Continue, st).

(** One iteration of the loop of line 168. *)
Definition peak_step (index : nat) (value : Qc) (st : peak_state)
  : result (flow * peak_state) :=
  let st1 := track index value st in
  r ← confirm_peak index value st1;
  match r with
  | Some out => Ok out
  | None => confirm_valley index value st1
  end.

Fixpoint peak_loop (items : list (nat * Qc)) (st : peak_state)
  : result peak_state :=
  match items with
  | [] => Ok st
  | (index, value) :: items' =>
      r ← peak_step index value st;
      match r with
      | (Break, st') => Ok st'
      | (Continue, st') => peak_loop items' st'
      end
  end.

(** [detect_peaks(signal, lookahead, delta)]; the loop runs over
    [signal[:-lookahead]]. *)
Definition detect_peaks : result (list (nat * ext) * list (nat * ext)) :=
  st ← peak_loop (enumerate (slice signal 0 (- lookahead))) peak_init;
  Ok (peaks st, valleys st).
End DetectPeaks.

(** ** remove_shots *)

(** A sample of a signal handed to [remove_shots]: [None] (a missing value),
    a float that is not a number, or a finite number. *)
Inductive sample : Type :=
  | PyNone
  | NaN
  | Num (q : Qc).

Definition is_none (x : sample) : bool :=
  match x with PyNone => true | _ => false end.

(** Arithmetic on samples: [None] is no operand ([TypeError]), and [NaN]
    propagates. *)
Definition sample_sub (x y : sample) : result sample :=
  match x, y with
  | PyNone, _ | _, PyNone => Raise TypeError
  | Num a, Num b => Ok (Num (a - b)%Qc)
  | _, _ => Ok NaN
  end.

Definition sample_add (x y : sample) : result sample :=
  match x, y with
  | PyNone, _ | _, PyNone => Raise TypeError
  | Num a, Num b => Ok (Num (a + b)%Qc)
  | _, _ => Ok NaN
  end.

(** [x * pos] for a float [pos]. *)
Definition sample_scale (x : sample) (pos : Qc) : result sample :=
  match x with
  | PyNone => Raise TypeError
  | NaN => Ok NaN
  | Num a => Ok (Num (a * pos)%Qc)
  end.

Definition sample_abs (x : sample) : result sample :=
  match x with
  | PyNone => Raise TypeError
  | NaN => Ok NaN
  | Num a => Ok (Num (Qc_abs a))
  end.

(** [x > t] and [x < t] against a number: [None] is not ordered
    ([TypeError]), every comparison with [NaN] is false. *)
Definition sample_gt (x : sample) (t : Qc) : result bool :=
  match x with
  | PyNone => Raise TypeError
  | NaN => Ok false
  | Num a => Ok (Qc_ltb t a)
  end.

Definition sample_lt (x : sample) (t : Qc) : result bool :=
  match x with
  | PyNone => Raise TypeError
  | NaN => Ok false
  | Num a => Ok (Qc_ltb a t)
  end.

(** [x == 0]: equality is defined on every value. *)
Definition sample_is_zero (x : sample) : bool :=
  match x with
  | Num a => Qc_eqb a 0%Qc
  | _ => false
  end.

(** [np.sum]. *)
Fixpoint np_sum (l : list sample) : result sample :=
  match l with
  | [] => Ok (Num 0%Qc)
  | x :: l' => s ← np_sum l'; sample_add x s
  end.

(** [np.average(l)]: the sum over the count; on an empty list numpy warns
    and returns [nan]. *)
Definition np_average (l : list sample) : result sample :=
  s ← np_sum l;
  match l with
  | [] => Ok NaN
  | _ :: _ => sample_scale s (/ Qc_of_int (Z.of_nat (length l)))%Qc
  end.

(** The square of [np.std(l)]: the average of the squared distances to the
    average. *)
Fixpoint squared_distances (m : sample) (l : list sample) : result (list sample) :=
  match l with
  | [] => Ok []
  | x :: l' =>
      d ← sample_sub x m;
      let d2 := match d with Num a => Num (a * a)%Qc | _ => d end in
      r ← squared_distances m l';
      Ok (d2 :: r)
  end.

Definition np_var (l : list sample) : result sample :=
  m ← np_average l;
  d ← squared_distances m l;
  np_average d.

(** [x > sqrt(v) * devs] for [0 <= v], decided on squares: the square root
    is no rational, and over the reals the two sides compare as their
    squares do once the signs are told apart. *)
Definition gt_sqrt_times (x v devs : Qc) : bool :=
  if Qc_ltb devs 0%Qc
  then Qc_ltb 0%Qc x || Qc_ltb (x * x)%Qc (v * devs * devs)%Qc
  else Qc_ltb 0%Qc x && Qc_ltb (v * devs * devs)%Qc (x * x)%Qc.

(** The keyword arguments of [remove_shots]; [None] is an argument left at
    its default. *)
Record criteria : Type := Criteria {
  threshold_high : option Qc;
  threshold_low : option Qc;
  devs : option Qc;
  positive_only : bool;
  nones : bool;
  zeros : bool;
  jump : option Qc
}.

(** [[i for (i, sample) in enumerate(signal) if test(sample)]], counting
    from [i]: an exception of the test ends the comprehension. *)
Fixpoint indexes_where (test : sample → result bool) (i : nat)
    (signal : list sample) : result (list nat) :=
  match signal with
  | [] => Ok []
  | x :: rest =>
      b ← test x;
      l ← indexes_where test (S i) rest;
      Ok (if (b : bool) then i :: l else l)
  end.

(** The test of line 94. *)
Definition deviates (average variance : sample) (devs : Qc) (positive_only : bool)
    (x : sample) : result bool :=
  d ← sample_sub x average;
  d ← (if positive_only then Ok d else sample_abs d);
  match d, variance with
  | PyNone, _ | _, PyNone => Raise TypeError
  | Num a, Num v => Ok (gt_sqrt_times a v devs)
  | _, _ => Ok false
  end.

(** Lines 101 to 107.  [base] is [signal[i]], [j] the index of the head of
    [rest]: the inner loop flags [j] and moves on while the sample at [j] is
    further than [jump] from [base]; the first sample that is not becomes
    the next [signal[i]] (line 107, [i = j]). *)
Fixpoint jump_scan (jump : Qc) (base : sample) (j : nat) (rest : list sample)
    : result (list nat) :=
  match rest with
  | [] => Ok []
  | x :: rest' =>
      d ← sample_sub x base;
      d ← sample_abs d;
      b ← sample_gt d jump;
      if (b : bool) then l ← jump_scan jump base (S j) rest'; Ok (j :: l)
      else jump_scan jump x (S j) rest'
  end.

Definition jump_shots (jump : Qc) (signal : list sample) : result (list nat) :=
  match signal with
  | [] => Ok []
  | x :: rest => jump_scan jump x 1 rest
  end.

(** Lines 86 to 107: [shot_indexes] before it is made a set. *)
Definition shot_indexes (signal : list sample) (c : criteria) : result (list nat) :=
  s1 ← match threshold_high c with
       | Some t => indexes_where (λ x, sample_gt x t) 0 signal
       | None => Ok []
       end;
  s2 ← match threshold_low c with
       | Some t => indexes_where (λ x, sample_lt x t) 0 signal
       | None => Ok []
       end;
  s3 ← match devs c with
       | Some d =>
           average ← np_average signal;
           variance ← np_var signal;
           indexes_where (deviates average variance d (positive_only c)) 0 signal
       | None => Ok []
       end;
  s4 ← (if nones c then indexes_where (λ x, Ok (is_none x)) 0 signal else Ok []);
  s5 ← (if zeros c then indexes_where (λ x, Ok (sample_is_zero x)) 0 signal else Ok []);
  s6 ← match jump c with
       | Some j => jump_shots j signal
       | None => Ok []
       end;
  Ok (s1 ++ s2 ++ s3 ++ s4 ++ s5 ++ s6).

(** Lines 108 and 109: [list(set(shot_indexes))], sorted. *)
Definition sorted_set (l : list nat) : list nat :=
  merge_sort (≤)%nat (remove_dups l).

(** Lines 115 to 118: [stop_index] moves past the flagged indexes that
    follow without a gap.  [rest] is [shot_indexes[i+1:]]. *)
Fixpoint extend_stop (stop_index : Z) (rest : list nat) : Z :=
  match rest with
  | [] => stop_index
  | r :: rest' =>
      if decide (stop_index = Z.of_nat r)
      then extend_stop (stop_index + 1) rest'
      else stop_index
  end.

(** What [start_value] is read from: the sample at an index, or the average
    of the samples that are not [None]. *)
Inductive anchor : Type :=
  | AtIndex (i : Z)
  | AverageOfPresent.

(** What one iteration of the loop of line 111 reads and writes. *)
Record access : Type := Access {
  written : nat;
  start_anchor : anchor;
  stop_anchor : Z
}.

Definition len {A} (l : list A) : Z := Z.of_nat (length l).

(** Lines 119 and 120: a [stop_index] past the last sample is moved onto
    it. *)
Definition clamp_stop (n stop_index : Z) : Z :=
  if decide (stop_index = n) then n - 1 else stop_index.

(** [[v for v in signal if v is not None]] *)
Definition present (signal : list sample) : list sample :=
  List.filter (λ v, negb (is_none v)) signal.

(** Line 124, and line 126 when the sample at [stop_index] is [None]. *)
Definition interpolate (start_value stop_value : sample) (pos : Qc) : result sample :=
  if is_none stop_value then Ok start_value
  else
    d ← sample_sub stop_value start_value;
    m ← sample_scale d pos;
    sample_add start_value m.

(** Lines 112 to 126: one iteration, for [shot_index = shot_indexes[i]] and
    [rest = shot_indexes[i+1:]]. *)
Definition replace_shot (signal : list sample) (shot_index : nat) (rest : list nat)
    : result (list sample * access) :=
  let start_index := Z.of_nat shot_index - 1 in
  let stop_index := extend_stop (Z.of_nat shot_index + 1) rest in
  let stop_index := clamp_stop (len signal) stop_index in
  pos ← int_truediv (Z.of_nat shot_index - start_index) (stop_index - start_index);
  start_value ←
    (if decide (start_index > 0) then getitem signal start_index
     else np_average (present signal));
  stop_value ← getitem signal stop_index;
  v ← interpolate start_value stop_value pos;
  signal' ← setitem signal (Z.of_nat shot_index) v;
  Ok (signal',
      Access shot_index
             (if decide (start_index > 0) then AtIndex start_index
              else AverageOfPresent)
             stop_index).

(** The loop of line 111 over the sorted indexes, with the log of its
    accesses. *)
Fixpoint replace_shots (signal : list sample) (shots : list nat)
    : result (list sample * list access) :=
  match shots with
  | [] => Ok (signal, [])
  | shot_index :: rest =>
      r ← replace_shot signal shot_index rest;
      r' ← replace_shots r.1 rest;
      Ok (r'.1, r.2 :: r'.2)
  end.

Definition remove_shots_log (signal : list sample) (c : criteria)
    : result (list sample * list access) :=
  shots ← shot_indexes signal c;
  replace_shots signal (sorted_set shots).

(** [remove_shots(signal, ...)] *)
Definition remove_shots (signal : list sample) (c : criteria) : result (list sample) :=
  fst <$> remove_shots_log signal c.


(** * The other functions

    Signals of numbers are lists of [Qc]; where the code takes [None] as a
    sample, signals are lists of [sample], as for [remove_shots]. *)

(** ** Ranges *)

(** [range(a, b)] for [0 <= a], and [range(n)]: empty when the bound is not
    above the start. *)
Definition range_from (a : nat) (b : Z) : list nat := seq a (Z.to_nat (b - Z.of_nat a)).

Definition range (n : Z) : list nat := range_from 0 n.

(** ** detect_onsets *)

(** Lines 153 to 155, for the indexes [indexes].  The test is
    [signal[i] == 0 and signal[i+1] > 0]: its second part is evaluated only
    when the first part is true. *)
Fixpoint onsets_loop (signal : list sample) (onsets : list nat) (indexes : list nat)
    : result (list nat) :=
  match indexes with
  | [] => Ok onsets
  | i :: indexes' =>
      x ← getitem signal (Z.of_nat i);
      b ← (if sample_is_zero x
           then y ← getitem signal (Z.of_nat i + 1); sample_gt y 0%Qc
           else Ok false);
      onsets_loop signal (if (b : bool) then onsets ++ [i] else onsets) indexes'
  end.

Definition detect_onsets (signal : list sample) : result (list nat) :=
  onsets_loop signal [] (range (len signal - 1)).

(** ** upsample *)

(** The outcome of a function that starts with an [assert]: the assertion
    fails, or the body runs. *)
Inductive asserted (A : Type) : Type :=
  | AssertionError
  | Checked (r : result A).

Arguments AssertionError {A}.
Arguments Checked {A} r.

(** [x / n] for an [int] [n]. *)
Definition sample_div_int (x : sample) (n : Z) : result sample :=
  match x with
  | PyNone => Raise TypeError
  | NaN => if decide (n = 0) then Raise ZeroDivisionError else Ok NaN
  | Num a =>
      if decide (n = 0) then Raise ZeroDivisionError
      else Ok (Num (a / Qc_of_int n)%Qc)
  end.

(** The right-hand side of line 28, [v + ((delta / factor) * j)]. *)
Definition upsample_value (v delta : sample) (factor : Z) (j : nat) : result sample :=
  q ← sample_div_int delta factor;
  m ← sample_scale q (Qc_of_int (Z.of_nat j));
  sample_add v m.

(** Lines 26 to 28, for the values [js] of [j]; [res] is the list
    [result]. *)
Fixpoint upsample_fill (res : list sample) (i : nat) (factor : Z) (v delta : sample)
    (js : list nat) : result (list sample) :=
  match js with
  | [] => Ok res
  | j :: js' =>
      let f := Z.of_nat i * factor + Z.of_nat j in
      x ← upsample_value v delta factor j;
      res' ← setitem res f x;
      upsample_fill res' i factor v delta js'
  end.

(** Lines 20 to 28, for the pairs [items] of [enumerate(signal)]. *)
Fixpoint upsample_loop (signal res : list sample) (factor : Z)
    (items : list (nat * sample)) : result (list sample) :=
  match items with
  | [] => Ok res
  | (i, v) :: items' =>
      if decide (Z.of_nat i = len signal - 1) then setitem res (-1) v
      else
        v_ ← getitem signal (Z.of_nat i + 1);
        delta ← sample_sub v_ v;
        res' ← upsample_fill res i factor v delta (range factor);
        upsample_loop signal res' factor items'
  end.

(** [upsample(signal, factor)] for an [int] [factor].  [[None] * n] is
    empty for a negative [n]. *)
Definition upsample (signal : list sample) (factor : Z) : asserted (list sample) :=
  if decide (factor > 1) then
    Checked (upsample_loop signal
               (replicate (Z.to_nat ((len signal - 1) * factor)) PyNone)
               factor (enumerate signal))
  else AssertionError.

(** ** integral, delta, derivative *)

(** Lines 221 to 223, for the indexes [indexes]; [res] is the list
    [result]. *)
Fixpoint integral_loop (signal : list Qc) (v : Qc) (res : list Qc) (indexes : list nat)
    : result (list Qc) :=
  match indexes with
  | [] => Ok res
  | i :: indexes' =>
      y ← getitem signal (Z.of_nat i);
      let v := (v + y)%Qc in
      integral_loop signal v (res ++ [v]) indexes'
  end.

(** [integral(signal)] for a sequence of floats.  The sums are those of
    exact arithmetic: each float is read as the rational it stands for,
    and no sum is rounded. *)
Definition integral (signal : list Qc) : result (list Qc) :=
  integral_loop signal 0%Qc [] (range (len signal)).

(** A numpy array of floats, of one dimension or of two: an array of shape
    [(n, dims)] is given by its [n] rows. *)
Inductive ndarray : Type :=
  | Vector (a : list Qc)
  | Matrix (dims : nat) (rows : list (list Qc)).

(** [a[1:] - a[:-1]] on one axis. *)
Fixpoint diff1 (a : list Qc) : list Qc :=
  match a with
  | [] => []
  | x :: a' => match a' with [] => [] | y :: _ => (y - x)%Qc :: diff1 a' end
  end.

(** [np.diff(a)]: the differences along the last axis. *)
Definition np_diff (a : ndarray) : ndarray :=
  match a with
  | Vector a => Vector (diff1 a)
  | Matrix dims rows => Matrix (dims - 1) (diff1 <$> rows)
  end.

(** [np.concatenate((a, b))], along the first axis: the number of
    dimensions and the other axis have to agree. *)
Definition np_concatenate (a b : ndarray) : result ndarray :=
  match a, b with
  | Vector a, Vector b => Ok (Vector (a ++ b))
  | Matrix d1 r1, Matrix d2 r2 =>
      if decide (d1 = d2) then Ok (Matrix d1 (r1 ++ r2)) else Raise ValueError
  | _, _ => Raise ValueError
  end.

(** [delta(signal)] *)
Definition delta (signal : ndarray) : result ndarray :=
  let diff := np_diff signal in
  match signal with
  | Matrix dims _ => np_concatenate (Matrix dims [replicate dims 0%Qc]) diff
  | Vector _ => np_concatenate (Vector [0%Qc]) diff
  end.

(** [int(x)] for a float: the fraction is cut off, towards zero. *)
Definition py_int (x : Qc) : Z :=
  if Qc_ltb x 0%Qc then Qceiling x else Qfloor x.

(** [a / b] on Python numbers. *)
Definition py_truediv (a b : Qc) : result Qc :=
  if Qc_eqb b 0%Qc then Raise ZeroDivisionError else Ok (a / b)%Qc.

(** The functions [f] and [df] inside [derivative], and the default value
    of [h], [0.1e-5]. *)
Definition derivative_f (signal : list Qc) (x : Qc) : result Qc :=
  getitem signal (py_int x).

Definition derivative_h : Qc := Q2Qc (1 # 1000000).

Definition derivative_df (signal : list Qc) (x h : Qc) : result Qc :=
  a ← derivative_f signal (x + h * Q2Qc (1 # 2))%Qc;
  b ← derivative_f signal (x - h * Q2Qc (1 # 2))%Qc;
  py_truediv (a - b)%Qc h.

(** [derivative(signal)] for a sequence of floats. *)
Definition derivative (signal : list Qc) : result (list Qc) :=
  mapM (λ x, derivative_df signal (Qc_of_int (Z.of_nat x)) derivative_h)
       (range (len signal)).

(** ** trendline *)

(** The four sums of [trendline]. *)
Record trend_sums : Type := TrendSums {
  sum_x : Qc;
  sum_y : Qc;
  sum_xx : Qc;
  sum_xy : Qc
}.

(** Lines 262 to 270, for the indexes [indexes]. *)
Fixpoint trendline_loop (signal : list Qc) (s : trend_sums) (indexes : list nat)
    : result trend_sums :=
  match indexes with
  | [] => Ok s
  | i :: indexes' =>
      let x := Qc_of_int (Z.of_nat i) in
      y ← getitem signal (Z.of_nat i);
      let sum_x' := (sum_x s + x)%Qc in
      let sum_y' := (sum_y s + y)%Qc in
      let xx := (x ^ 2)%Qc in
      let sum_xx' := (sum_xx s + xx)%Qc in
      let xy := (x * y)%Qc in
      let sum_xy' := (sum_xy s + xy)%Qc in
      trendline_loop signal (TrendSums sum_x' sum_y' sum_xx' sum_xy') indexes'
  end.

(** [trendline(signal)] for a sequence of Python numbers: the
    [ZeroDivisionError] of a division is caught, any other exception is
    not. *)
Definition trendline (signal : list Qc) : result (Qc * Qc) :=
  let n := len signal - 1 in
  s ← trendline_loop signal (TrendSums 0 0 0 0) (range_from 1 (n + 1));
  let n := Qc_of_int n in
  let attempt :=
    a ← py_truediv (- sum_x s * sum_xy s + sum_xx s * sum_y s)%Qc
                   (n * sum_xx s - sum_x s * sum_x s)%Qc;
    b ← py_truediv (- sum_x s * sum_y s + n * sum_xy s)%Qc
                   (n * sum_xx s - sum_x s * sum_x s)%Qc;
    Ok (a, b) in
  ab ← match attempt with
       | Raise ZeroDivisionError => Ok (0%Qc, 0%Qc)
       | r => r
       end;
  Ok (ab.2, ab.1).

(** ** f *)

Definition Qc_leb (x y : Qc) : bool := negb (Qc_ltb y x).

(** [f(signal, x)] for a sequence of numbers and a float [x];
    [indexf % 1.0] is the distance of [indexf] from the integer below. *)
Definition f (signal : list Qc) (x : Qc) : result Qc :=
  let indexf := if Qc_leb x 1%Qc then (x * Qc_of_int (len signal - 1))%Qc else x in
  let pos := (indexf - Qc_of_int (Qfloor indexf))%Qc in
  lo ← getitem signal (Qfloor indexf);
  hi ← getitem signal (Qceiling indexf);
  Ok (lo * (1 - pos) + hi * pos)%Qc.

(** ** threshold, magnitude, limit *)

(** The array that [np.array] makes of a list of numbers: an array of
    floats, or, when the numbers are all ints (that fit), an array of
    64-bit ints. *)
Inductive numbers : Type :=
  | Floats (a : list Qc)
  | Ints (a : list Z).

(** What integer arithmetic gives in an array of 64-bit ints: the result
    wraps around. *)
Definition int64 (z : Z) : Z := (z + 2 ^ 63) `mod` 2 ^ 64 - 2 ^ 63.

(** [threshold(signal, value)]: the array of booleans [signal > value]
    counts as ones and zeros in the product. *)
Definition threshold (signal : numbers) (value : Qc) : numbers :=
  match signal with
  | Floats a => Floats ((λ x, (if Qc_ltb value x then 1 else 0) * x)%Qc <$> a)
  | Ints a =>
      Ints ((λ x, int64 ((if Qc_ltb value (Qc_of_int x) then 1 else 0) * x)) <$> a)
  end.

(** [np.absolute(a)] *)
Definition np_absolute (a : numbers) : numbers :=
  match a with
  | Floats a => Floats (Qc_abs <$> a)
  | Ints a => Ints ((λ x, int64 (Z.abs x)) <$> a)
  end.

(** [magnitude(signal)] *)
Definition magnitude (signal : numbers) : numbers :=
  threshold (np_absolute signal) 0%Qc.

(** [np.clip(a, a_min, a_max)], that is
    [np.minimum(a_max, np.maximum(a, a_min))]. *)
Definition np_clip (a : list Qc) (a_min a_max : Qc) : list Qc :=
  (λ x, Qc_min (Qc_max x a_min) a_max) <$> a.

(** [limit(signal, value)] *)
Definition limit (signal : list Qc) (value : Qc) : list Qc :=
  np_clip signal 0%Qc value.

(** ** normalize *)

(** A float of a numpy array after a division: not a number, or a number
    or an infinity. *)
Inductive np_float : Type :=
  | NpNaN
  | NpVal (e : ext).

(** [x / d] on the floats of an array: a division by zero raises nothing,
    and gives an infinity, or [nan] for [0 / 0]. *)
Definition np_divide (x d : Qc) : np_float :=
  if Qc_eqb d 0%Qc then
    if Qc_eqb x 0%Qc then NpNaN
    else if Qc_ltb 0%Qc x then NpVal PosInf else NpVal NegInf
  else NpVal (Fin (x / d)%Qc).

(** [np.clip(x, a_min, a_max)] on such a float: [nan] stays [nan]. *)
Definition np_clip_float (x : np_float) (a_min a_max : Qc) : np_float :=
  match x with
  | NpNaN => NpNaN
  | NpVal NegInf => NpVal (Fin (Qc_min a_min a_max))
  | NpVal PosInf => NpVal (Fin a_max)
  | NpVal (Fin q) => NpVal (Fin (Qc_min (Qc_max q a_min) a_max))
  end.

(** [normalize(signal, minimum, maximum)] for a one-dimensional signal of
    numbers. *)
Definition normalize (signal : list Qc) (minimum maximum : option Qc)
    : result (list np_float) :=
  minimum ← match minimum with None => array_min signal | Some m => Ok m end;
  maximum ← match maximum with None => array_max signal | Some m => Ok m end;
  let signal := (λ x, x - minimum)%Qc <$> signal in
  let maximum := (maximum - minimum)%Qc in
  let signal := (λ x, np_divide x maximum) <$> signal in
  Ok ((λ x, np_clip_float x 0%Qc 1%Qc) <$> signal).

(** ** downsample *)

(** [a % b] on ints: the result has the sign of [b]. *)
Definition py_mod (a b : Z) : result Z :=
  if decide (b = 0) then Raise ZeroDivisionError else Ok (a `mod` b).

(** [a[i::step]] for [0 <= i] and [0 < step]: [skip] elements are passed
    over and one is taken, then [step - 1] are passed over and one is
    taken, and so on. *)
Fixpoint slice_step {A} (a : list A) (skip step : nat) : list A :=
  match a with
  | [] => []
  | x :: a' =>
      match skip with
      | O => x :: slice_step a' (step - 1) step
      | S skip' => slice_step a' skip' step
      end
  end.

(** [np.mean(a, axis=0)] on an array of two dimensions that has a row,
    given by its rows: the rows are added up, and the sums divided by the
    number of rows. *)
Definition np_mean_rows (rows : list (list Qc)) : list Qc :=
  match rows with
  | [] => []
  | r :: rows' =>
      (λ s, s / Qc_of_int (len rows))%Qc <$> foldl (zip_with Qcplus) r rows'
  end.

(** What [np.mean(a, axis=0)] returns: an array, or [nan] for an empty
    array of one dimension. *)
Inductive mean_value : Type :=
  | MeanNaN
  | MeanArray (a : list Qc).

(** [downsample(signal, factor)] for a one-dimensional signal of numbers
    and an [int] [factor].  The list of the [factor] slices makes an array
    of two dimensions; for a negative [factor] there is no slice, and the
    array is the empty array of one dimension. *)
Definition downsample (signal : list Qc) (factor : Z) : result mean_value :=
  let xs := len signal in
  r ← py_mod xs factor;
  let signal := slice signal 0 (xs - r) in
  let rows := (λ i, slice_step signal i (Z.to_nat factor)) <$> range factor in
  Ok (match rows with
      | [] => MeanNaN
      | _ => MeanArray (np_mean_rows rows)
      end).
(** ** Statements *)

(** The positions a state of [detect_peaks] holds are at most [bound]. *)
Definition positions_within (bound : Z) (st : peak_state) : Prop :=
  (∀ p, p ∈ peaks st ++ valleys st → Z.of_nat p.1 ≤ bound)
  ∧ (∀ i, max_pos st = Some i → Z.of_nat i ≤ bound)
  ∧ (∀ i, min_pos st = Some i → Z.of_nat i ≤ bound).

(** A candidate that holds a sample has its position assigned. *)
Definition locals_bound (st : peak_state) : Prop :=
  (∀ q, max_value st = Fin q → is_Some (max_pos st))
  ∧ (∀ q, min_value st = Fin q → is_Some (min_pos st)).

(** No criterion of [remove_shots] is enabled. *)
Definition none_enabled (c : criteria) : Prop :=
  threshold_high c = None ∧ threshold_low c = None ∧ devs c = None
  ∧ nones c = false ∧ zeros c = false ∧ jump c = None.

(** [stop] is where the block of flagged indexes that holds [k] ends: the
    first index after [k] that is not flagged. *)
Definition run_end (shots : list nat) (k stop : nat) : Prop :=
  (k < stop)%nat ∧ (∀ j, (k ≤ j < stop)%nat → j ∈ shots) ∧ stop ∉ shots.

(** Where [start_value] comes from at the flagged index [k] (line 122). *)
Definition start_anchor_of (k : nat) : anchor :=
  if decide (Z.of_nat k - 1 > 0) then AtIndex (Z.of_nat k - 1)
  else AverageOfPresent.

(** The replacement as the specification words it, for the index [k] of a
    block that starts at [shot_index] and whose far anchor is [stop_index]:
    the position is counted from the first index of the block, and the
    near anchor is the sample before the block, or the average of the
    samples present when the block starts the signal. *)
Definition spec_replacement (signal : list sample) (shot_index stop_index k : Z)
    : result sample :=
  let start_index := shot_index - 1 in
  start_value ←
    (if decide (start_index < 0) then np_average (present signal)
     else getitem signal start_index);
  stop_value ← getitem signal stop_index;
  pos ← int_truediv (k - shot_index) (stop_index - start_index);
  interpolate start_value stop_value pos.

(** ** Inputs of the specification's examples *)

(** Signals of integers. *)
Definition qz (n : Z) : Qc := Qc_of_int n.
Definition nz (n : Z) : sample := Num (Qc_of_int n).

(** No criterion enabled: every argument at its default. *)
Definition no_criteria : criteria :=
  Criteria None None None false false false None.

Definition only_jump (j : Qc) : criteria :=
  Criteria None None None false false false (Some j).

Definition only_threshold_high (t : Qc) : criteria :=
  Criteria (Some t) None None false false false None.

Definition only_nones : criteria :=
  Criteria None None None false true false None.

Definition confirmation_signal : list Qc :=
  qz <$> [0; 1; 2; 3; 2; 1; 0; -1; -2; -1; 0; 1; 2].

Definition cascade_signal : list sample :=
  nz <$> [0; 0; 0; 100; 0; 0; 0].

Definition two_shot_signal : list sample :=
  nz <$> [0; 3; 100; 100; 9].

Definition boundary_signal : list sample :=
  nz <$> [10; 10; 10; 1000].

Definition all_none_signal (n : nat) : list sample := replicate n PyNone.

(** ** Statements about the other criteria and functions *)

(** The test of line 104: [abs(x - b) > jump] is true. *)
Definition further_than (jump : Qc) (x b : sample) : Prop :=
  (d ← sample_sub x b; d ← sample_abs d; sample_gt d jump) = Ok true.

(** What the loop of [detect_peaks] keeps true before the sample at [idx]:
    the extrema confirmed and the two candidates are samples of the signal
    at positions before [idx], each candidate lies after the extrema of
    its kind, and these are in the order of their positions. *)
Definition peak_inv (signal : list Qc) (idx : nat) (st : peak_state) : Prop :=
  (∀ p v, (p, v) ∈ peaks st ++ valleys st →
          (p < idx)%nat ∧ ∃ q, v = Fin q ∧ signal !! p = Some q)
  ∧ (∀ q, max_value st = Fin q →
          ∃ m, max_pos st = Some m ∧ (m < idx)%nat ∧ signal !! m = Some q
               ∧ ∀ p v, (p, v) ∈ peaks st → (p < m)%nat)
  ∧ (∀ q, min_value st = Fin q →
          ∃ m, min_pos st = Some m ∧ (m < idx)%nat ∧ signal !! m = Some q
               ∧ ∀ p v, (p, v) ∈ valleys st → (p < m)%nat)
  ∧ StronglySorted (<)%nat (peaks st).*1
  ∧ StronglySorted (<)%nat (valleys st).*1.

(** Peaks and valleys are confirmed in turn: with the maximum at its
    sentinel the last extremum was a peak, with the minimum at its
    sentinel a valley, and otherwise there is none yet. *)
Definition peak_turns (st : peak_state) : Prop :=
  let np := Z.of_nat (length (peaks st)) in
  let nv := Z.of_nat (length (valleys st)) in
  (max_value st = PosInf → min_value st ≠ NegInf ∧ 0 ≤ np - nv ≤ 1)
  ∧ (min_value st = NegInf → max_value st ≠ PosInf ∧ 0 ≤ nv - np ≤ 1)
  ∧ (max_value st ≠ PosInf → min_value st ≠ NegInf → np = 0 ∧ nv = 0).


(** An onset at index [i]: a sample equal to zero followed by a positive
    one. *)
Definition onset_at (signal : list sample) (i : nat) : Prop :=
  signal !! i = Some (Num 0%Qc) ∧ ∃ y, signal !! S i = Some (Num y) ∧ (0 < y)%Qc.

(** A sample equal to zero followed by [None]. *)
Definition zero_before_none (signal : list sample) (i : nat) : Prop :=
  signal !! i = Some (Num 0%Qc) ∧ signal !! S i = Some PyNone.

(** The running sums of [l], counted from [v]. *)
Fixpoint running_sums (v : Qc) (l : list Qc) : list Qc :=
  match l with
  | [] => []
  | y :: l' => (v + y)%Qc :: running_sums (v + y)%Qc l'
  end.

(** The sums of [trendline] after the indexes [1 .. j], when the samples
    at these indexes are on the line of slope [m] and intersect [c]. *)
Definition sums_on_line (m c : Qc) (j : Z) (s : trend_sums) : Prop :=
  (Qc_of_int 2 * sum_x s = Qc_of_int j * (Qc_of_int j + 1))%Qc
  ∧ (Qc_of_int 6 * sum_xx s
     = Qc_of_int j * (Qc_of_int j + 1) * (Qc_of_int 2 * Qc_of_int j + 1))%Qc
  ∧ (sum_y s = m * sum_x s + c * Qc_of_int j)%Qc
  ∧ (sum_xy s = m * sum_xx s + c * sum_x s)%Qc.

(** The sum of a list of numbers. *)
Definition Qc_sum (l : list Qc) : Qc := foldr Qcplus 0%Qc l.
(** * Supporting lemmas *)

(** ** The error monad *)

Lemma bind_Ok {A B} (f : A → result B) (m : result A) (b : B) :
  (m ≫= f) = Ok b ↔ ∃ a, m = Ok a ∧ f a = Ok b.
Proof.
  destruct m as [a|e]; simpl; split.
  - intros H. exists a. done.
  - intros (a' & [= ->] & H). done.
  - intros [=].
  - intros (a' & [=] & _).
Qed.

Lemma fmap_Ok {A B} (f : A → B) (m : result A) (b : B) :
  (f <$> m) = Ok b ↔ ∃ a, m = Ok a ∧ b = f a.
Proof.
  destruct m as [a|e]; simpl; split.
  - intros [= <-]. by exists a.
  - intros (a' & [= ->] & ->). done.
  - intros [=].
  - intros (a' & [=] & _).
Qed.

Lemma Ok_bind {A B} (f : A → result B) (a : A) : (Ok a ≫= f) = f a.
Proof. reflexivity. Qed.

(** Takes apart a hypothesis saying that a sequence of binds returned. *)
Ltac ok_inv H :=
  repeat match type of H with
  | (_ ≫= _) = Ok _ =>
      let x := fresh "x" in
      let Hx := fresh "Hx" in
      apply bind_Ok in H as (x & Hx & H)
  end.

(** ** Numbers *)

Lemma Qc_ltb_lt (x y : Qc) : Qc_ltb x y = true ↔ (x < y)%Qc.
Proof.
  unfold Qc_ltb. rewrite Qclt_alt.
  destruct (x ?= y)%Qc; split; congruence.
Qed.

Lemma Qc_eqb_eq (x y : Qc) : Qc_eqb x y = true ↔ x = y.
Proof.
  unfold Qc_eqb. rewrite Qceq_alt.
  destruct (x ?= y)%Qc; split; congruence.
Qed.

Lemma Qc_of_int_sub (a b : Z) :
  Qc_of_int (a - b) = (Qc_of_int a - Qc_of_int b)%Qc.
Proof.
  apply Qc_is_canon. unfold Qc_of_int, Qcminus, Qcplus, Qcopp, Q2Qc, this.
  rewrite !Qred_correct. unfold Z.sub. rewrite inject_Z_plus, inject_Z_opp. reflexivity.
Qed.
Lemma Qc_of_int_add (a b : Z) :
  Qc_of_int (a + b) = (Qc_of_int a + Qc_of_int b)%Qc.
Proof.
  apply Qc_is_canon. unfold Qc_of_int, Qcplus, Q2Qc, this.
  rewrite !Qred_correct. rewrite inject_Z_plus. reflexivity.
Qed.
Lemma Qc_of_int_nonzero (a : Z) : a ≠ 0 → Qc_of_int a ≠ 0%Qc.
Proof.
  intros Ha E. apply Ha.
  apply (f_equal this) in E. unfold Qc_of_int, Q2Qc, this in E.
  assert (inject_Z a == 0)%Q as E'.
  { rewrite <- (Qred_correct (inject_Z a)), E. reflexivity. }
  unfold Qeq in E'; simpl in E'. lia.
Qed.

(** ** Sorted sets of indexes *)

Lemma sorted_set_elem (l : list nat) (i : nat) : i ∈ sorted_set l ↔ i ∈ l.
Proof.
  unfold sorted_set. rewrite merge_sort_Permutation. apply elem_of_remove_dups.
Qed.

Lemma sorted_nodup_strict (l : list nat) :
  StronglySorted (≤)%nat l → NoDup l → StronglySorted (<)%nat l.
Proof.
  induction 1 as [|x l Hl IH Hx]; intros Hnd; constructor.
  - apply IH. by apply NoDup_cons in Hnd as [_ ?].
  - apply NoDup_cons in Hnd as [Hnx _].
    rewrite Forall_forall in Hx |- *. intros y Hy.
    specialize (Hx y Hy). assert (x ≠ y) by (intros ->; done). lia.
Qed.

Lemma sorted_set_sorted (l : list nat) : StronglySorted (<)%nat (sorted_set l).
Proof.
  apply sorted_nodup_strict.
  - apply StronglySorted_merge_sort; apply _.
  - unfold sorted_set. rewrite merge_sort_Permutation. apply NoDup_remove_dups.
Qed.

Lemma strict_sorted_nodup (l : list nat) : StronglySorted (<)%nat l → NoDup l.
Proof.
  induction 1 as [|x l Hl IH Hx]; constructor; [|done].
  intros Hin. rewrite Forall_forall in Hx. specialize (Hx x Hin). lia.
Qed.

Lemma strict_sorted_weaken (l : list nat) :
  StronglySorted (<)%nat l → StronglySorted (≤)%nat l.
Proof.
  induction 1 as [|x l Hl IH Hx]; constructor; [done|].
  eapply Forall_impl; [done|]. simpl. lia.
Qed.

Lemma remove_dups_nodup (l : list nat) : NoDup l → remove_dups l = l.
Proof.
  induction 1 as [|x l Hx Hl IH]; [done|]. simpl.
  destruct (decide_rel _ x l); [done|]. by rewrite IH.
Qed.

(** A list that is already strictly increasing is its own sorted set. *)
Lemma sorted_set_id (l : list nat) : StronglySorted (<)%nat l → sorted_set l = l.
Proof.
  intros Hl. unfold sorted_set. rewrite remove_dups_nodup by by apply strict_sorted_nodup.
  apply (StronglySorted_unique (≤)%nat).
  - apply StronglySorted_merge_sort; apply _.
  - by apply strict_sorted_weaken.
  - apply merge_sort_Permutation.
Qed.

(** ** Slices and enumerations *)

Lemma slice_length {A} (l : list A) (start stop : Z) :
  Z.of_nat (length (slice l start stop))
  = Z.max 0 (Z.min (slice_bound (len l) stop - slice_bound (len l) start)
                   (len l - slice_bound (len l) start)).
Proof.
  unfold slice, len. rewrite length_take, length_drop.
  unfold slice_bound. repeat case_decide; lia.
Qed.

Lemma enumerate_from_elem {A} (k : nat) (l : list A) (i : nat) (x : A) :
  (i, x) ∈ enumerate_from k l → (k ≤ i < k + length l)%nat.
Proof.
  revert k. induction l as [|y l IH]; intros k; simpl.
  - by intros ?%elem_of_nil.
  - intros [[= -> ->]|Hin]%elem_of_cons; [lia|].
    apply IH in Hin. lia.
Qed.

(** The positions the loop of [detect_peaks] visits. *)
Lemma candidate_positions (signal : list Qc) (lookahead : Z) (i : nat) (x : Qc) :
  (i, x) ∈ enumerate (slice signal 0 (- lookahead)) →
  Z.of_nat i ≤ len signal - lookahead - 1
  ∧ (0 ≤ lookahead → 0 < lookahead ∧ Z.of_nat i + lookahead < len signal + 1).
Proof.
  intros [_ Hi]%enumerate_from_elem.
  assert (Z.of_nat i < Z.of_nat (length (slice signal 0 (- lookahead)))) as Hi' by lia.
  rewrite slice_length in Hi'. unfold slice_bound, len in *.
  repeat case_decide; lia.
Qed.

Lemma slice_window_nonempty {A} (l : list A) (i : nat) (lookahead : Z) :
  0 < lookahead → Z.of_nat i < len l →
  slice l (Z.of_nat i) (Z.of_nat i + lookahead) ≠ [].
Proof.
  intros Hl Hi E. apply (f_equal length) in E.
  apply (f_equal Z.of_nat) in E. rewrite slice_length in E.
  unfold slice_bound, len in *. simpl in E. repeat case_decide; lia.
Qed.

(** ** detect_peaks *)

Lemma track_positions (bound : Z) (index : nat) (value : Qc) (st : peak_state) :
  Z.of_nat index ≤ bound → positions_within bound st →
  positions_within bound (track index value st).
Proof.
  intros Hi (Hp & Hmax & Hmin). unfold track.
  repeat case_match; repeat split; simpl; try done; intros ? [= <-]; done.
Qed.

Lemma track_bound_locals (index : nat) (value : Qc) (st : peak_state) :
  locals_bound st → locals_bound (track index value st).
Proof.
  intros [Hmax Hmin]. unfold track.
  repeat case_match; split; simpl; eauto.
Qed.

Lemma confirm_peak_positions (signal : list Qc) (lookahead : Z) (delta : Qc)
    (bound : Z) (index : nat) (value : Qc) (st st' : peak_state) (f : flow) :
  confirm_peak signal lookahead delta index value st = Ok (Some (f, st')) →
  positions_within bound st → positions_within bound st'.
Proof.
  intros H (Hp & Hmax & Hmin). unfold confirm_peak in H.
  case_match; [|done].
  ok_inv H. case_match; [|done]. ok_inv H.
  destruct (max_pos st) as [p|] eqn:Hpos; [|done].
  injection Hx0 as <-.
  assert (st' = PeakState PosInf (Some p) PosInf (min_pos st)
                          (peaks st ++ [(p, max_value st)]) (valleys st)) as ->
    by (case_decide; congruence).
  repeat split; simpl; [|done..].
  intros q. rewrite <- (assoc_L (++)), !elem_of_app, list_elem_of_singleton.
  intros [?|[->|?]]; [apply Hp, elem_of_app; by left|by apply Hmax|apply Hp, elem_of_app; by right].
Qed.

Lemma confirm_valley_positions (signal : list Qc) (lookahead : Z) (delta : Qc)
    (bound : Z) (index : nat) (value : Qc) (st st' : peak_state) (f : flow) :
  confirm_valley signal lookahead delta index value st = Ok (f, st') →
  positions_within bound st → positions_within bound st'.
Proof.
  intros H (Hp & Hmax & Hmin). unfold confirm_valley in H.
  case_match; [|by simplify_eq].
  ok_inv H. case_match; [|by simplify_eq]. ok_inv H.
  destruct (min_pos st) as [p|] eqn:Hpos; [|done].
  injection Hx0 as <-.
  assert (st' = PeakState NegInf (max_pos st) NegInf (Some p)
                          (peaks st) (valleys st ++ [(p, min_value st)])) as ->
    by (case_decide; congruence).
  repeat split; simpl; [|done..].
  intros q. rewrite (assoc_L (++)), elem_of_app, list_elem_of_singleton.
  intros [? | ->]; [by apply Hp|by apply Hmin].
Qed.

Lemma peak_step_positions (signal : list Qc) (lookahead : Z) (delta : Qc)
    (bound : Z) (index : nat) (value : Qc) (st st' : peak_state) (f : flow) :
  peak_step signal lookahead delta index value st = Ok (f, st') →
  Z.of_nat index ≤ bound → positions_within bound st →
  positions_within bound st'.
Proof.
  intros H Hi Hst. unfold peak_step in H. ok_inv H.
  pose proof (track_positions bound index value st Hi Hst) as Ht.
  destruct x as [[f' st'']|].
  - injection H as -> ->. by eapply confirm_peak_positions.
  - by eapply confirm_valley_positions.
Qed.

Lemma peak_loop_positions (signal : list Qc) (lookahead : Z) (delta : Qc)
    (bound : Z) (items : list (nat * Qc)) (st st' : peak_state) :
  peak_loop signal lookahead delta items st = Ok st' →
  (∀ i x, (i, x) ∈ items → Z.of_nat i ≤ bound) →
  positions_within bound st → positions_within bound st'.
Proof.
  revert st. induction items as [|[index value] items IH]; intros st H Hitems Hst.
  - by injection H as <-.
  - simpl in H. ok_inv H. destruct x as [f st1].
    assert (positions_within bound st1) as Hst1.
    { eapply peak_step_positions; [done| |done].
      eapply Hitems. by left. }
    destruct f.
    + eapply IH; [done| |done]. intros i x ?. eapply Hitems. by right.
    + by injection H as <-.
Qed.

Lemma array_max_nonempty (a : list Qc) : a ≠ [] → ∃ m, array_max a = Ok m.
Proof. destruct a; [done|]. intros _. by eexists. Qed.

Lemma array_min_nonempty (a : list Qc) : a ≠ [] → ∃ m, array_min a = Ok m.
Proof. destruct a; [done|]. intros _. by eexists. Qed.

(** With a window that is not empty and every candidate's position
    assigned, an iteration raises nothing. *)
Lemma peak_step_returns (signal : list Qc) (lookahead : Z) (delta : Qc)
    (index : nat) (value : Qc) (st : peak_state) :
  slice signal (Z.of_nat index) (Z.of_nat index + lookahead) ≠ [] →
  locals_bound st →
  ∃ f st', peak_step signal lookahead delta index value st = Ok (f, st')
           ∧ locals_bound st'.
Proof.
  intros Hw Hst.
  destruct (array_max_nonempty _ Hw) as [hi Hhi].
  destruct (array_min_nonempty _ Hw) as [lo Hlo].
  pose proof (track_bound_locals index value st Hst) as [Hmax Hmin].
  unfold peak_step. set (st1 := track index value st) in *.
  assert (∃ r, confirm_peak signal lookahead delta index value st1 = Ok r
               ∧ ∀ f st', r = Some (f, st') → locals_bound st') as (r & Hr & Hr').
  { unfold confirm_peak. rewrite Hhi, Ok_bind.
    destruct (ext_ltb (Fin value) (ext_sub (max_value st1) delta)
              && negb (ext_eqb (max_value st1) PosInf)) eqn:Hc; [|by eexists].
    destruct (ext_ltb (Fin hi) (max_value st1)); [|by eexists].
    destruct (max_value st1) as [|q|] eqn:Hv; simpl in Hc; [done| |done].
    destruct (Hmax q eq_refl) as [p ->]. simpl.
    case_decide; eexists; (split; [done|]);
      intros f st' [= <- <-]; split; simpl; done. }
  rewrite Hr, Ok_bind. destruct r as [[f st']|].
  { exists f, st'. split; [done|]. by eapply Hr'. }
  unfold confirm_valley. rewrite Hlo, Ok_bind.
  destruct (ext_ltb (ext_add (min_value st1) delta) (Fin value)
            && negb (ext_eqb (min_value st1) NegInf)) eqn:Hc;
    [|by exists Continue, st1].
  destruct (ext_ltb (min_value st1) (Fin lo)); [|by exists Continue, st1].
  destruct (min_value st1) as [|q|] eqn:Hv; simpl in Hc; [done| |done].
  destruct (Hmin q eq_refl) as [p ->]. simpl.
  case_decide; eexists _, _; (split; [done|]); split; simpl; done.
Qed.

Lemma peak_loop_returns (signal : list Qc) (lookahead : Z) (delta : Qc)
    (items : list (nat * Qc)) (st : peak_state) :
  (∀ i x, (i, x) ∈ items →
     slice signal (Z.of_nat i) (Z.of_nat i + lookahead) ≠ []) →
  locals_bound st →
  ∃ st', peak_loop signal lookahead delta items st = Ok st'.
Proof.
  revert st. induction items as [|[index value] items IH]; intros st Hitems Hst.
  - by eexists.
  - simpl.
    destruct (peak_step_returns signal lookahead delta index value st)
      as (f & st1 & -> & Hst1); [eapply Hitems; by left|done|].
    simpl. destruct f; [|by eexists].
    apply IH; [|done]. intros i x ?. eapply Hitems. by right.
Qed.
(** ** Subscriptions *)

Lemma getitem_nat {A} (l : list A) (i : nat) :
  getitem l (Z.of_nat i)
  = match l !! i with Some x => Ok x | None => Raise IndexError end.
Proof.
  unfold getitem. cbv zeta.
  destruct (decide (Z.of_nat i < 0)) as [|_]; [lia|]. rewrite Nat2Z.id.
  destruct (decide (0 ≤ Z.of_nat i < Z.of_nat (length l))); [done|].
  rewrite lookup_ge_None_2; [done|lia].
Qed.

Lemma getitem_nat_Ok {A} (l : list A) (i : nat) (x : A) :
  getitem l (Z.of_nat i) = Ok x ↔ l !! i = Some x.
Proof. rewrite getitem_nat. destruct (l !! i); split; congruence. Qed.

Lemma setitem_nat_Ok {A} (l l' : list A) (i : nat) (x : A) :
  setitem l (Z.of_nat i) x = Ok l' ↔ (i < length l)%nat ∧ l' = <[i:=x]> l.
Proof.
  unfold setitem. cbv zeta.
  destruct (decide (Z.of_nat i < 0)) as [|_]; [lia|]. rewrite Nat2Z.id.
  destruct (decide (0 ≤ Z.of_nat i < Z.of_nat (length l))); split.
  - intros [= <-]. split; [lia|done].
  - by intros [_ ->].
  - done.
  - intros [? _]. lia.
Qed.

(** ** The end of a block of flagged indexes *)

Lemma run_end_unique (shots : list nat) (k stop stop' : nat) :
  run_end shots k stop → run_end shots k stop' → stop = stop'.
Proof.
  intros (H1 & H2 & H3) (H1' & H2' & H3').
  destruct (decide (stop < stop')%nat); [destruct H3; apply H2'; lia|].
  destruct (decide (stop' < stop)%nat); [destruct H3'; apply H2; lia|].
  lia.
Qed.

Lemma extend_stop_run_end (k : nat) (rest : list nat) :
  StronglySorted (<)%nat (k :: rest) →
  ∃ stop, extend_stop (Z.of_nat k + 1) rest = Z.of_nat stop
          ∧ run_end (k :: rest) k stop.
Proof.
  revert k. induction rest as [|r rest IH]; intros k Hs.
  - exists (S k). split; [simpl; lia|]. repeat split; [lia| |].
    + intros j Hj. assert (j = k) as -> by lia. by left.
    + intros [?|[]%elem_of_nil]%elem_of_cons. lia.
  - apply StronglySorted_cons in Hs as [Hk Hs].
    pose proof Hk as Hk'. apply Forall_cons in Hk' as [Hkr Hk'].
    simpl. case_decide as Hr.
    + destruct (IH r Hs) as (stop & Hstop & H1 & H2 & H3).
      exists stop. split; [rewrite <- Hstop; f_equal; lia|].
      repeat split; [lia| |].
      * intros j Hj. destruct (decide (j = k)) as [->|]; [by left|].
        right. apply H2. lia.
      * intros [?|?]%elem_of_cons; [lia|done].
    + exists (S k). split; [lia|]. repeat split; [lia| |].
      * intros j Hj. assert (j = k) as -> by lia. by left.
      * intros [?|[?|Hin]%elem_of_cons]%elem_of_cons; [lia..|].
        apply StronglySorted_cons in Hs as [Hr' _].
        rewrite Forall_forall in Hr'. specialize (Hr' _ Hin). lia.
Qed.

(** The indexes before [k] in the sorted list play no part in where the
    block of [k] ends. *)
Lemma run_end_suffix (pre rest : list nat) (k stop : nat) :
  StronglySorted (<)%nat (pre ++ k :: rest) →
  run_end (pre ++ k :: rest) k stop ↔ run_end (k :: rest) k stop.
Proof.
  intros Hs. apply StronglySorted_app in Hs as (Hlt & _ & _).
  assert (∀ j, (k ≤ j)%nat → j ∈ pre ++ k :: rest ↔ j ∈ k :: rest) as Hin.
  { intros j Hj. rewrite elem_of_app. split; [|by right].
    intros [Hp|?]; [|done]. specialize (Hlt j k Hp). 
    assert (j < k)%nat by (apply Hlt; by left). lia. }
  unfold run_end. split; intros (H1 & H2 & H3); repeat split; try done.
  - intros j Hj. apply Hin; [lia|]. by apply H2.
  - rewrite <- Hin; [done|lia].
  - intros j Hj. apply Hin; [lia|]. by apply H2.
  - rewrite Hin; [done|lia].
Qed.

(** ** One replacement *)

Lemma replace_shot_Ok (s s' : list sample) (k : nat) (rest : list nat) (a : access) :
  replace_shot s k rest = Ok (s', a) →
  let stop := clamp_stop (len s) (extend_stop (Z.of_nat k + 1) rest) in
  ∃ sv stopv v,
    (if decide (Z.of_nat k - 1 > 0) then getitem s (Z.of_nat k - 1)
     else np_average (present s)) = Ok sv
    ∧ getitem s stop = Ok stopv
    ∧ stop - (Z.of_nat k - 1) ≠ 0
    ∧ interpolate sv stopv (1 / Qc_of_int (stop - (Z.of_nat k - 1)))%Qc = Ok v
    ∧ (k < length s)%nat
    ∧ s' = <[k:=v]> s
    ∧ a = Access k (start_anchor_of k) stop.
Proof.
  intros H stop. unfold replace_shot in H. cbv zeta in H. fold stop in H.
  ok_inv H. injection H as <- <-.
  unfold int_truediv in Hx.
  destruct (decide (stop - (Z.of_nat k - 1) = 0)) as [|Hz]; [done|].
  injection Hx as <-.
  apply setitem_nat_Ok in Hx3 as [Hk ->].
  exists x0, x1, x2. repeat split; try done.
  replace (Z.of_nat k - (Z.of_nat k - 1)) with 1 in Hx2 by lia. done.
Qed.

(** ** The loop of replacements *)

Lemma replace_shots_cons (s out : list sample) (k : nat) (rest : list nat)
    (log : list access) :
  replace_shots s (k :: rest) = Ok (out, log) →
  ∃ s1 a log', replace_shot s k rest = Ok (s1, a)
               ∧ replace_shots s1 rest = Ok (out, log')
               ∧ log = a :: log'.
Proof.
  intros H. simpl in H. ok_inv H. destruct x as [s1 a], x0 as [out' log'].
  injection H as <- <-. by exists s1, a, log'.
Qed.

(** The loop writes at the indexes of its list, in their order, and
    nowhere else. *)
Lemma replace_shots_frame (s out : list sample) (shots : list nat)
    (log : list access) :
  replace_shots s shots = Ok (out, log) →
  length out = length s
  ∧ (∀ i, i ∉ shots → out !! i = s !! i)
  ∧ written <$> log = shots.
Proof.
  revert s out log. induction shots as [|k rest IH]; intros s out log H.
  - by injection H as <- <-.
  - apply replace_shots_cons in H as (s1 & a & log' & Hstep & Hrest & ->).
    apply replace_shot_Ok in Hstep as (sv & stopv & v & _ & _ & _ & _ & Hk & -> & ->).
    apply IH in Hrest as (Hlen & Hout & Hlog).
    rewrite length_insert in Hlen. repeat split; [done| |by rewrite fmap_cons, Hlog].
    intros i [Hik Hi]%not_elem_of_cons.
    rewrite Hout by done. by apply list_lookup_insert_ne.
Qed.

(** What the loop computes at a flagged index [k] whose block ends at
    [stop]: [cur] is the signal as the iteration for [k] finds it, the
    samples before [k] as they are returned and the others untouched. *)
Lemma replace_shots_at (pre shots : list nat) (s out : list sample)
    (log : list access) (k stop : nat) :
  StronglySorted (<)%nat (pre ++ shots) →
  replace_shots s shots = Ok (out, log) →
  k ∈ shots → run_end (pre ++ shots) k stop →
  let stop_index := clamp_stop (len s) (Z.of_nat stop) in
  ∃ cur sv stopv v,
    length cur = length s
    ∧ (∀ i, (i < k)%nat → cur !! i = out !! i)
    ∧ (∀ i, (k ≤ i)%nat → cur !! i = s !! i)
    ∧ (if decide (Z.of_nat k - 1 > 0) then getitem cur (Z.of_nat k - 1)
       else np_average (present cur)) = Ok sv
    ∧ getitem cur stop_index = Ok stopv
    ∧ stop_index - (Z.of_nat k - 1) ≠ 0
    ∧ interpolate sv stopv (1 / Qc_of_int (stop_index - (Z.of_nat k - 1)))%Qc = Ok v
    ∧ (k < length s)%nat
    ∧ out !! k = Some v
    ∧ Access k (start_anchor_of k) stop_index ∈ log.
Proof.
  revert pre s out log.
  induction shots as [|k0 rest IH]; intros pre s out log Hs H Hk Hend stop_index.
  { by apply elem_of_nil in Hk. }
  apply replace_shots_cons in H as (s1 & a & log' & Hstep & Hrest & ->).
  pose proof Hs as Hs'. apply StronglySorted_app in Hs' as (_ & _ & Hs').
  pose proof Hs' as Hs''. apply StronglySorted_cons in Hs'' as [Hlt _].
  rewrite Forall_forall in Hlt.
  apply replace_shot_Ok in Hstep as (sv & stopv & v & Hsv & Hstopv & Hnz & Hv & Hk0 & -> & ->).
  pose proof (replace_shots_frame _ _ _ _ Hrest) as (Hlen & Hout & _).
  rewrite length_insert in Hlen.
  apply elem_of_cons in Hk as [->|Hk].
  - destruct (extend_stop_run_end k0 rest Hs') as (stop' & Hstop' & Hend').
    apply run_end_suffix in Hend; [|done].
    pose proof (run_end_unique _ _ _ _ Hend Hend') as <-.
    rewrite Hstop' in *. fold stop_index in Hsv, Hstopv, Hnz, Hv |- *.
    exists s, sv, stopv, v. repeat split; try done.
    + intros i Hi. rewrite Hout.
      * rewrite list_lookup_insert_ne; [done|lia].
      * intros Hin. specialize (Hlt _ Hin). lia.
    + rewrite Hout.
      * by apply list_lookup_insert_eq.
      * intros Hin. specialize (Hlt _ Hin). lia.
    + by left.
  - specialize (Hlt _ Hk).
    destruct (IH (pre ++ [k0]) (<[k0:=v]> s) out log') as
      (cur & sv' & stopv' & v' & Hcur & Hlo & Hhi & Hsv' & Hstopv' & Hnz' & Hv' & Hk' & Hov & Hlog);
      [by rewrite <- (assoc_L (++))|done|done|by rewrite <- (assoc_L (++))|].
    unfold len in *. rewrite length_insert in *.
    exists cur, sv', stopv', v'. repeat split; try done.
    + intros i Hi. rewrite Hhi by done. apply list_lookup_insert_ne. lia.
    + by right.
Qed.

(** The signal as the iteration for [k] finds it, from the signal
    returned and the one that came in. *)
Lemma signal_as_found (cur s out : list sample) (k : nat) :
  (k < length out)%nat →
  (∀ i, (i < k)%nat → cur !! i = out !! i) →
  (∀ i, (k ≤ i)%nat → cur !! i = s !! i) →
  cur = take k out ++ drop k s.
Proof.
  intros Hk Hbefore Hafter. apply list_eq. intros i.
  assert (length (take k out) = k) as Htl by (rewrite length_take; lia).
  destruct (decide (i < k)%nat) as [Hi|Hi].
  - rewrite lookup_app_l by lia. rewrite lookup_take_lt by done. by apply Hbefore.
  - rewrite lookup_app_r by lia. rewrite Htl, lookup_drop.
    replace (k + (i - k))%nat with i by lia. apply Hafter. lia.
Qed.
(** ** The straight line *)

(** One step along the line from [sa] to [sb]: from the point at [T - 1]
    of [M] to the point at [T], when [D] steps are left to the far end. *)
Lemma line_step (sa sb T M D : Qc) :
  M ≠ 0%Qc → D ≠ 0%Qc → D = (M - T + 1)%Qc →
  (let p := sa + (sb - sa) * ((T - 1) / M) in p + (sb - p) * (1 / D))%Qc
  = (sa + (sb - sa) * (T / M))%Qc.
Proof.
  intros HM HD E. cbv zeta. subst D. field. split; assumption.
Qed.

Lemma remove_shots_log_Ok (signal out : list sample) (c : criteria) :
  remove_shots signal c = Ok out ↔
  ∃ shots log, shot_indexes signal c = Ok shots
               ∧ replace_shots signal (sorted_set shots) = Ok (out, log).
Proof.
  unfold remove_shots, remove_shots_log. rewrite fmap_Ok. split.
  - intros ([out' log] & H & ->). ok_inv H. by exists x, log.
  - intros (shots & log & Hs & H). exists (out, log). split; [|done].
    by rewrite Hs.
Qed.

(** ** The log of the loop *)

Lemma run_end_sorted_set (shots : list nat) (k stop : nat) :
  run_end (sorted_set shots) k stop ↔ run_end shots k stop.
Proof.
  unfold run_end. rewrite sorted_set_elem.
  split; intros (H1 & H2 & H3); repeat split; try done;
    intros j Hj; apply sorted_set_elem; auto.
Qed.

(** Every access of the log is the one of a flagged index, with the far
    anchor at the end of its block. *)
Lemma replace_shots_log_at (pre shots : list nat) (s out : list sample)
    (log : list access) (a : access) :
  StronglySorted (<)%nat (pre ++ shots) →
  replace_shots s shots = Ok (out, log) →
  a ∈ log →
  ∃ stop, written a ∈ shots
          ∧ run_end (pre ++ shots) (written a) stop
          ∧ a = Access (written a) (start_anchor_of (written a))
                       (clamp_stop (len s) (Z.of_nat stop)).
Proof.
  revert pre s out log.
  induction shots as [|k0 rest IH]; intros pre s out log Hs H Ha.
  { injection H as <- <-. by apply elem_of_nil in Ha. }
  apply replace_shots_cons in H as (s1 & a0 & log' & Hstep & Hrest & ->).
  pose proof Hs as Hs'. apply StronglySorted_app in Hs' as (_ & _ & Hs').
  apply replace_shot_Ok in Hstep as (sv & stopv & v & _ & _ & _ & _ & _ & -> & ->).
  apply elem_of_cons in Ha as [->|Ha].
  - destruct (extend_stop_run_end k0 rest Hs') as (stop & Hstop & Hend).
    exists stop. simpl. rewrite Hstop.
    split; [by left|]. split; [by apply run_end_suffix|done].
  - destruct (IH (pre ++ [k0]) (<[k0:=v]> s) out log') as (stop & Hin & Hend & E);
      [by rewrite <- (assoc_L (++))|done|done|].
    exists stop. unfold len in *. rewrite length_insert in E.
    rewrite <- (assoc_L (++)) in Hend.
    split; [by right|]. split; [done|done].
Qed.

(** ** Signals without a number *)

Lemma indexes_where_none (test : sample → result bool) (i : nat)
    (signal : list sample) :
  test PyNone = Raise TypeError →
  (∀ x, x ≠ PyNone → ∃ b, test x = Ok b) →
  PyNone ∈ signal →
  indexes_where test i signal = Raise TypeError.
Proof.
  intros Hnone Hsome. revert i.
  induction signal as [|x signal IH]; intros i Hin.
  { by apply elem_of_nil in Hin. }
  simpl. assert (x = PyNone ∨ x ≠ PyNone) as [->|Hx]
    by (destruct x; [by left|by right..]).
  { by rewrite Hnone. }
  destruct (Hsome x Hx) as [b ->]. simpl.
  apply elem_of_cons in Hin as [?|Hin]; [done|].
  by rewrite IH.
Qed.

Lemma indexes_where_all (test : sample → result bool) (i n : nat) (x : sample) :
  test x = Ok true → indexes_where test i (replicate n x) = Ok (seq i n).
Proof.
  intros Hx. revert i. induction n as [|n IH]; intros i; [done|].
  simpl. by rewrite Hx, Ok_bind, IH.
Qed.

Lemma indexes_where_nowhere (test : sample → result bool) (i n : nat) (x : sample) :
  test x = Ok false → indexes_where test i (replicate n x) = Ok [].
Proof.
  intros Hx. revert i. induction n as [|n IH]; intros i; [done|].
  simpl. by rewrite Hx, Ok_bind, IH.
Qed.

Lemma seq_strict_sorted (i n : nat) : StronglySorted (<)%nat (seq i n).
Proof.
  revert i. induction n as [|n IH]; intros i; simpl; constructor; [done|].
  apply Forall_forall. intros j Hj%elem_of_seq. lia.
Qed.

Lemma extend_stop_seq (i n : nat) :
  extend_stop (Z.of_nat i) (seq i n) = Z.of_nat (i + n).
Proof.
  revert i. induction n as [|n IH]; intros i; simpl; [f_equal; lia|].
  destruct (decide (Z.of_nat i = Z.of_nat i)); [|done].
  replace (Z.of_nat i + 1) with (Z.of_nat (S i)) by lia.
  rewrite IH. f_equal. lia.
Qed.

Lemma present_filled (k m : nat) :
  present (replicate k NaN ++ replicate m PyNone) = replicate k NaN.
Proof.
  unfold present. rewrite List.filter_app.
  assert (List.filter (λ v, negb (is_none v)) (replicate m PyNone) = []) as ->.
  { induction m; [done|]. simpl. done. }
  rewrite app_nil_r. induction k; [done|]. simpl. by f_equal.
Qed.

Lemma np_sum_nan (k : nat) : np_sum (replicate (S k) NaN) = Ok NaN.
Proof.
  induction k as [|k IH]; [done|].
  change (np_sum (replicate (S (S k)) NaN))
    with (np_sum (replicate (S k) NaN) ≫= sample_add NaN).
  by rewrite IH.
Qed.

Lemma np_average_nan (k : nat) : np_average (replicate k NaN) = Ok NaN.
Proof.
  destruct k as [|k]; [done|].
  unfold np_average. by rewrite np_sum_nan.
Qed.

(** A signal whose first [k] samples are filled and whose other samples are
    missing, all of them flagged: the replacement at [k] fills it with
    [NaN]. *)
Lemma replace_shot_all_none (k m : nat) :
  ∃ a, replace_shot (replicate k NaN ++ replicate (S m) PyNone) k (seq (S k) m)
       = Ok (replicate (S k) NaN ++ replicate m PyNone, a).
Proof.
  set (s := replicate k NaN ++ replicate (S m) PyNone).
  assert (length s = (k + S m)%nat) as Hlen.
  { unfold s. by rewrite length_app, !length_replicate. }
  unfold replace_shot. cbv zeta.
  replace (Z.of_nat k + 1) with (Z.of_nat (S k)) by lia.
  rewrite extend_stop_seq.
  assert (clamp_stop (len s) (Z.of_nat (S k + m)) = Z.of_nat (k + m)) as ->.
  { unfold clamp_stop, len. rewrite Hlen.
    destruct (decide (Z.of_nat (S k + m) = Z.of_nat (k + S m))); lia. }
  unfold int_truediv.
  destruct (decide (Z.of_nat (k + m) - (Z.of_nat k - 1) = 0)); [lia|].
  rewrite Ok_bind.
  assert ((if decide (Z.of_nat k - 1 > 0) then getitem s (Z.of_nat k - 1)
           else np_average (present s)) = Ok NaN) as ->.
  { case_decide.
    - replace (Z.of_nat k - 1) with (Z.of_nat (k - 1)) by lia.
      apply getitem_nat_Ok. unfold s.
      rewrite lookup_app_l by (rewrite length_replicate; lia).
      apply lookup_replicate_2. lia.
    - unfold s. rewrite present_filled. apply np_average_nan. }
  rewrite Ok_bind.
  assert (getitem s (Z.of_nat (k + m)) = Ok PyNone) as ->.
  { apply getitem_nat_Ok. unfold s.
    rewrite lookup_app_r by (rewrite length_replicate; lia).
    apply lookup_replicate_2. rewrite length_replicate. lia. }
  rewrite Ok_bind.
  change (interpolate NaN PyNone ?p) with (@Ok sample NaN). rewrite Ok_bind.
  assert (setitem s (Z.of_nat k) NaN
          = Ok (replicate (S k) NaN ++ replicate m PyNone)) as ->.
  { apply setitem_nat_Ok. split; [lia|]. unfold s.
    rewrite insert_app_r_alt by (rewrite length_replicate; lia).
    rewrite length_replicate, Nat.sub_diag. simpl.
    clear. induction k as [|k IH]; [done|]. simpl. by rewrite <- IH. }
  rewrite Ok_bind. by eexists.
Qed.

Lemma replace_shots_all_none (k m : nat) :
  ∃ log, replace_shots (replicate k NaN ++ replicate m PyNone) (seq k m)
         = Ok (replicate (k + m) NaN, log).
Proof.
  revert k. induction m as [|m IH]; intros k.
  - exists []. simpl. by rewrite app_nil_r, Nat.add_0_r.
  - destruct (replace_shot_all_none k m) as [a Ha].
    destruct (IH (S k)) as [log Hlog].
    exists (a :: log). simpl seq.
    change (replace_shots ?s (?x :: ?r))
      with (replace_shot s x r ≫= λ r1,
            replace_shots r1.1 r ≫= λ r2, Ok (r2.1, r1.2 :: r2.2)).
    rewrite Ha, Ok_bind. cbn beta iota delta [fst snd].
    rewrite Hlog, Ok_bind. cbn beta iota delta [fst snd].
    do 3 f_equal. lia.
Qed.

(** The flagged indexes of a signal of missing samples, when missing
    samples are the criterion and no criterion compares. *)
Lemma shot_indexes_all_none (n : nat) (po z : bool) :
  sorted_set <$> shot_indexes (replicate n PyNone)
                   (Criteria None None None po true z None)
  = Ok (seq 0 n).
Proof.
  unfold shot_indexes. simpl.
  rewrite (indexes_where_all (λ x, Ok (is_none x)) 0 n PyNone eq_refl), Ok_bind.
  assert ((if z then indexes_where (λ x, Ok (sample_is_zero x)) 0 (replicate n PyNone)
           else Ok []) = Ok []) as ->.
  { destruct z; [|done]. by apply indexes_where_nowhere. }
  rewrite Ok_bind. simpl. rewrite !app_nil_r.
  f_equal. apply sorted_set_id, seq_strict_sorted.
Qed.
(** ** Signals without a missing sample *)

Lemma sample_add_present (x y : sample) :
  x ≠ PyNone → y ≠ PyNone → ∃ z, sample_add x y = Ok z ∧ z ≠ PyNone.
Proof. destruct x, y; intros; try done; by eexists. Qed.

Lemma sample_sub_present (x y : sample) :
  x ≠ PyNone → y ≠ PyNone → ∃ z, sample_sub x y = Ok z ∧ z ≠ PyNone.
Proof. destruct x, y; intros; try done; by eexists. Qed.

Lemma sample_scale_present (x : sample) (p : Qc) :
  x ≠ PyNone → ∃ z, sample_scale x p = Ok z ∧ z ≠ PyNone.
Proof. destruct x; intros; try done; by eexists. Qed.

Lemma sample_abs_present (x : sample) :
  x ≠ PyNone → ∃ z, sample_abs x = Ok z ∧ z ≠ PyNone.
Proof. destruct x; intros; try done; by eexists. Qed.

Lemma sample_gt_present (x : sample) (t : Qc) :
  x ≠ PyNone → ∃ b, sample_gt x t = Ok b.
Proof. destruct x; intros; try done; by eexists. Qed.

Lemma sample_lt_present (x : sample) (t : Qc) :
  x ≠ PyNone → ∃ b, sample_lt x t = Ok b.
Proof. destruct x; intros; try done; by eexists. Qed.

Lemma np_sum_present (l : list sample) :
  Forall (λ x, x ≠ PyNone) l → ∃ s, np_sum l = Ok s ∧ s ≠ PyNone.
Proof.
  induction 1 as [|x l Hx Hl (s & Hs & Hs')]; [by eexists|].
  simpl. rewrite Hs, Ok_bind. by apply sample_add_present.
Qed.

Lemma np_average_present (l : list sample) :
  Forall (λ x, x ≠ PyNone) l → ∃ s, np_average l = Ok s ∧ s ≠ PyNone.
Proof.
  intros Hl. destruct (np_sum_present l Hl) as (s & Hs & Hs').
  unfold np_average. rewrite Hs, Ok_bind.
  destruct l; [by eexists|]. by apply sample_scale_present.
Qed.

Lemma present_present (l : list sample) : Forall (λ x, x ≠ PyNone) (present l).
Proof.
  apply Forall_forall. intros x Hx. unfold present in Hx.
  apply list_elem_of_In, List.filter_In in Hx as [_ Hx]. by destruct x.
Qed.

Lemma squared_distances_present (m : sample) (l : list sample) :
  m ≠ PyNone → Forall (λ x, x ≠ PyNone) l →
  ∃ d, squared_distances m l = Ok d ∧ Forall (λ x, x ≠ PyNone) d.
Proof.
  intros Hm. induction 1 as [|x l Hx Hl (d & Hd & Hd')]; [by eexists|].
  simpl. destruct (sample_sub_present x m Hx Hm) as (z & -> & Hz).
  rewrite Ok_bind, Hd, Ok_bind. eexists. split; [done|].
  constructor; [|done]. by destruct z.
Qed.

Lemma np_var_present (l : list sample) :
  Forall (λ x, x ≠ PyNone) l → ∃ v, np_var l = Ok v ∧ v ≠ PyNone.
Proof.
  intros Hl. unfold np_var.
  destruct (np_average_present l Hl) as (m & -> & Hm). rewrite Ok_bind.
  destruct (squared_distances_present m l Hm Hl) as (d & -> & Hd).
  rewrite Ok_bind. by apply np_average_present.
Qed.

(** ** The flagged indexes *)

Lemma indexes_where_Ok (test : sample → result bool) (i : nat)
    (signal : list sample) :
  Forall (λ x, ∃ b, test x = Ok b) signal →
  ∃ l, indexes_where test i signal = Ok l.
Proof.
  intros H. revert i. induction H as [|x s [b Hb] Hs IH]; intros i; [by eexists|].
  simpl. rewrite Hb, Ok_bind. destruct (IH (S i)) as [l ->]. by eexists.
Qed.

Lemma indexes_where_elem (test : sample → result bool) (i : nat)
    (signal : list sample) (l : list nat) (k : nat) :
  indexes_where test i signal = Ok l →
  k ∈ l ↔ (i ≤ k)%nat ∧ ∃ x, signal !! (k - i)%nat = Some x ∧ test x = Ok true.
Proof.
  revert i l. induction signal as [|y s IH]; intros i l H.
  { injection H as <-. split; [by intros ?%elem_of_nil|].
    by intros (_ & x & ? & _). }
  simpl in H. ok_inv H. injection H as <-.
  specialize (IH (S i) x0 Hx0).
  destruct x.
  - rewrite elem_of_cons, IH. split.
    + intros [->|(Hk & z & Hz & Ht)].
      * split; [lia|]. exists y. by rewrite Nat.sub_diag.
      * split; [lia|]. exists z. split; [|done].
        by replace (k - i)%nat with (S (k - S i)) by lia.
    + intros (Hk & z & Hz & Ht).
      destruct (decide (k = i)) as [->|]; [by left|right].
      split; [lia|]. exists z. split; [|done].
      by replace (k - i)%nat with (S (k - S i)) in Hz by lia.
  - rewrite IH. split.
    + intros (Hk & z & Hz & Ht). split; [lia|]. exists z. split; [|done].
      by replace (k - i)%nat with (S (k - S i)) by lia.
    + intros (Hk & z & Hz & Ht).
      destruct (decide (k = i)) as [->|].
      { rewrite Nat.sub_diag in Hz. injection Hz as <-. congruence. }
      split; [lia|]. exists z. split; [|done].
      by replace (k - i)%nat with (S (k - S i)) in Hz by lia.
Qed.

Lemma indexes_where_range (test : sample → result bool) (i : nat)
    (signal : list sample) (l : list nat) (k : nat) :
  indexes_where test i signal = Ok l → k ∈ l →
  (i ≤ k < i + length signal)%nat.
Proof.
  intros H Hk. apply (indexes_where_elem _ _ _ _ k) in H.
  apply H in Hk as (Hik & x & Hx & _). apply lookup_lt_Some in Hx. lia.
Qed.

Lemma jump_scan_range (jump : Qc) (base : sample) (j : nat)
    (rest : list sample) (l : list nat) (k : nat) :
  jump_scan jump base j rest = Ok l → k ∈ l → (j ≤ k < j + length rest)%nat.
Proof.
  revert base j l. induction rest as [|x rest IH]; intros base j l H Hk.
  { injection H as <-. by apply elem_of_nil in Hk. }
  simpl in H. ok_inv H. destruct x2.
  - ok_inv H. injection H as <-. apply elem_of_cons in Hk as [->|Hk].
    + simpl. lia.
    + apply (IH _ _ _ Hx2) in Hk. simpl. lia.
  - apply (IH _ _ _ H) in Hk. simpl. lia.
Qed.

Lemma jump_scan_Ok (jump : Qc) (base : sample) (j : nat) (rest : list sample) :
  base ≠ PyNone → Forall (λ x, x ≠ PyNone) rest →
  ∃ l, jump_scan jump base j rest = Ok l.
Proof.
  intros Hb H. revert base j Hb.
  induction H as [|x rest Hx Hrest IH]; intros base j Hb; [by eexists|].
  simpl. destruct (sample_sub_present x base Hx Hb) as (d & -> & Hd).
  rewrite Ok_bind. destruct (sample_abs_present d Hd) as (d' & -> & Hd').
  rewrite Ok_bind. destruct (sample_gt_present d' jump Hd') as [b ->].
  rewrite Ok_bind. destruct b.
  - destruct (IH base (S j) Hb) as [l ->]. by eexists.
  - by apply IH.
Qed.

Lemma deviates_present (average variance x : sample) (d : Qc) (po : bool) :
  average ≠ PyNone → variance ≠ PyNone → x ≠ PyNone →
  ∃ b, deviates average variance d po x = Ok b.
Proof.
  intros Ha Hv Hx. unfold deviates.
  destruct (sample_sub_present x average Hx Ha) as (z & -> & Hz).
  rewrite Ok_bind.
  assert (∃ z', (if po then Ok z else sample_abs z) = Ok z' ∧ z' ≠ PyNone)
    as (z' & -> & Hz').
  { destruct po; [by eexists|]. by apply sample_abs_present. }
  rewrite Ok_bind. destruct z', variance; try done; by eexists.
Qed.

(** Every flagged index is an index of the signal. *)
Lemma shot_indexes_range (signal : list sample) (c : criteria)
    (shots : list nat) (k : nat) :
  shot_indexes signal c = Ok shots → k ∈ shots → (k < length signal)%nat.
Proof.
  intros H Hk. unfold shot_indexes in H. ok_inv H. injection H as <-.
  assert (∀ test l, indexes_where test 0 signal = Ok l → k ∈ l →
                    (k < length signal)%nat) as Hw.
  { intros test l Hl Hin.
    pose proof (indexes_where_range _ _ _ _ _ Hl Hin). lia. }
  rewrite !elem_of_app in Hk.
  destruct Hk as [Hk|[Hk|[Hk|[Hk|[Hk|Hk]]]]].
  - destruct (threshold_high c); [by eapply Hw|].
    injection Hx as <-. by apply elem_of_nil in Hk.
  - destruct (threshold_low c); [by eapply Hw|].
    injection Hx0 as <-. by apply elem_of_nil in Hk.
  - destruct (devs c).
    + ok_inv Hx1. by eapply Hw.
    + injection Hx1 as <-. by apply elem_of_nil in Hk.
  - destruct (nones c); [by eapply Hw|].
    injection Hx2 as <-. by apply elem_of_nil in Hk.
  - destruct (zeros c); [by eapply Hw|].
    injection Hx3 as <-. by apply elem_of_nil in Hk.
  - destruct (jump c) as [j|].
    + unfold jump_shots in Hx4. destruct signal as [|y rest].
      { injection Hx4 as <-. by apply elem_of_nil in Hk. }
      pose proof (jump_scan_range _ _ _ _ _ _ Hx4 Hk). simpl. lia.
    + injection Hx4 as <-. by apply elem_of_nil in Hk.
Qed.

(** On a signal without a missing sample no criterion raises. *)
Lemma shot_indexes_present (signal : list sample) (c : criteria) :
  Forall (λ x, x ≠ PyNone) signal → ∃ shots, shot_indexes signal c = Ok shots.
Proof.
  intros Hs. unfold shot_indexes.
  assert (∀ test, (∀ x, x ≠ PyNone → ∃ b, test x = Ok b) →
                  ∃ l, indexes_where test 0 signal = Ok l) as Hw.
  { intros test Ht. apply indexes_where_Ok.
    eapply Forall_impl; [exact Hs|]. exact Ht. }
  assert (∃ s1, match threshold_high c with
                | Some t => indexes_where (λ x, sample_gt x t) 0 signal
                | None => Ok []
                end = Ok s1) as [s1 ->].
  { destruct (threshold_high c); [|by eexists].
    apply Hw. intros x Hx. by apply sample_gt_present. }
  rewrite Ok_bind.
  assert (∃ s2, match threshold_low c with
                | Some t => indexes_where (λ x, sample_lt x t) 0 signal
                | None => Ok []
                end = Ok s2) as [s2 ->].
  { destruct (threshold_low c); [|by eexists].
    apply Hw. intros x Hx. by apply sample_lt_present. }
  rewrite Ok_bind.
  assert (∃ s3, match devs c with
                | Some d =>
                    average ← np_average signal;
                    variance ← np_var signal;
                    indexes_where (deviates average variance d (positive_only c)) 0 signal
                | None => Ok []
                end = Ok s3) as [s3 ->].
  { destruct (devs c); [|by eexists].
    destruct (np_average_present signal Hs) as (a & -> & Ha). rewrite Ok_bind.
    destruct (np_var_present signal Hs) as (v & -> & Hv). rewrite Ok_bind.
    apply Hw. intros x Hx. by apply deviates_present. }
  rewrite Ok_bind.
  assert (∃ s4, (if nones c then indexes_where (λ x, Ok (is_none x)) 0 signal
                 else Ok []) = Ok s4) as [s4 ->].
  { destruct (nones c); [|by eexists]. apply Hw. intros; by eexists. }
  rewrite Ok_bind.
  assert (∃ s5, (if zeros c then indexes_where (λ x, Ok (sample_is_zero x)) 0 signal
                 else Ok []) = Ok s5) as [s5 ->].
  { destruct (zeros c); [|by eexists]. apply Hw. intros; by eexists. }
  rewrite Ok_bind.
  assert (∃ s6, match jump c with
                | Some j => jump_shots j signal
                | None => Ok []
                end = Ok s6) as [s6 ->].
  { destruct (jump c); [|by eexists]. unfold jump_shots.
    destruct Hs as [|x rest Hx Hrest]; [by eexists|]. by apply jump_scan_Ok. }
  rewrite Ok_bind. by eexists.
Qed.

(** With the nones criterion and no criterion that compares, no criterion
    raises and every missing sample is flagged. *)
Lemma shot_indexes_nones (signal : list sample) (c : criteria) :
  threshold_high c = None → threshold_low c = None → devs c = None →
  jump c = None → nones c = true →
  ∃ shots, shot_indexes signal c = Ok shots
           ∧ ∀ i, signal !! i = Some PyNone → i ∈ shots.
Proof.
  intros H1 H2 H3 H4 H5. unfold shot_indexes. rewrite H1, H2, H3, H4, H5.
  rewrite !Ok_bind.
  destruct (indexes_where_Ok (λ x, Ok (is_none x)) 0 signal) as [s4 Hs4].
  { apply Forall_forall. intros; by eexists. }
  rewrite Hs4, Ok_bind.
  assert (∃ s5, (if zeros c then indexes_where (λ x, Ok (sample_is_zero x)) 0 signal
                 else Ok []) = Ok s5) as [s5 ->].
  { destruct (zeros c); [|by eexists]. apply indexes_where_Ok.
    apply Forall_forall. intros; by eexists. }
  rewrite Ok_bind. eexists. split; [done|].
  intros i Hi. simpl. apply elem_of_app. left.
  apply (indexes_where_elem _ _ _ _ i Hs4). split; [lia|].
  exists PyNone. by rewrite Nat.sub_0_r.
Qed.

(** ** The loop raises nothing *)

Lemma interpolate_present (start_value stop_value : sample) (pos : Qc) :
  start_value ≠ PyNone →
  ∃ v, interpolate start_value stop_value pos = Ok v ∧ v ≠ PyNone.
Proof.
  intros Hs. unfold interpolate. destruct (is_none stop_value) eqn:E.
  { by eexists. }
  assert (stop_value ≠ PyNone) as Hstop by (by destruct stop_value).
  destruct (sample_sub_present stop_value start_value Hstop Hs) as (d & -> & Hd).
  rewrite Ok_bind. destruct (sample_scale_present d pos Hd) as (m & -> & Hm).
  rewrite Ok_bind. by apply sample_add_present.
Qed.

Lemma extend_stop_bounds (k : nat) (rest : list nat) (n : nat) :
  StronglySorted (<)%nat (k :: rest) → Forall (λ i, i < n)%nat (k :: rest) →
  ∃ stop, extend_stop (Z.of_nat k + 1) rest = Z.of_nat stop
          ∧ (k < stop ≤ n)%nat.
Proof.
  intros Hs Hn. destruct (extend_stop_run_end k rest Hs) as (stop & E & Hlt & Hin & _).
  exists stop. split; [done|]. split; [done|].
  rewrite Forall_forall in Hn.
  assert (stop - 1 < n)%nat; [|lia]. apply Hn, Hin. lia.
Qed.

(** When every missing sample of the signal is at an index still to be
    replaced, the loop raises nothing and leaves no missing sample. *)
Lemma replace_shots_total (s : list sample) (shots : list nat) :
  StronglySorted (<)%nat shots →
  Forall (λ i, i < length s)%nat shots →
  (∀ i, s !! i = Some PyNone → i ∈ shots) →
  ∃ out log, replace_shots s shots = Ok (out, log)
             ∧ Forall (λ x, x ≠ PyNone) out.
Proof.
  revert s. induction shots as [|k rest IH]; intros s Hs Hn Hnone.
  { exists s, []. split; [done|]. apply Forall_forall. intros x Hx ->.
    apply list_elem_of_lookup in Hx as [i Hi]. by apply Hnone, elem_of_nil in Hi. }
  destruct (extend_stop_bounds k rest (length s) Hs Hn) as (stop & Hstop & Hlt).
  pose proof Hs as Hs'. apply StronglySorted_cons in Hs' as [Hk Hrest].
  pose proof Hn as Hn'. apply Forall_cons in Hn' as [Hkn Hrestn].
  rewrite Forall_forall in Hk.
  assert (∃ m, clamp_stop (len s) (Z.of_nat stop) = Z.of_nat m
               ∧ (m < length s)%nat) as (m & Hm & Hmn).
  { unfold clamp_stop, len.
    destruct (decide (Z.of_nat stop = Z.of_nat (length s))).
    - exists (length s - 1)%nat. lia.
    - exists stop. lia. }
  assert (∀ i, (i < length s)%nat → i ∉ k :: rest →
               ∃ x, s !! i = Some x ∧ x ≠ PyNone) as Hfree.
  { intros i Hi Hnot. destruct (lookup_lt_is_Some_2 s i Hi) as [x Hx].
    exists x. split; [done|]. intros ->. by apply Hnot, Hnone. }
  assert (∃ sv, (if decide (Z.of_nat k - 1 > 0) then getitem s (Z.of_nat k - 1)
                 else np_average (present s)) = Ok sv ∧ sv ≠ PyNone)
    as (sv & Hsv & Hsv').
  { case_decide.
    - replace (Z.of_nat k - 1) with (Z.of_nat (k - 1)) by lia.
      destruct (Hfree (k - 1)%nat) as (x & Hx & Hx'); [lia| |].
      + intros [?|Hin]%elem_of_cons; [lia|]. specialize (Hk _ Hin). lia.
      + exists x. split; [|done]. by apply getitem_nat_Ok.
    - apply np_average_present, present_present. }
  destruct (lookup_lt_is_Some_2 s m Hmn) as [stopv Hstopv].
  destruct (interpolate_present sv stopv
              (1 / Qc_of_int (Z.of_nat m - (Z.of_nat k - 1)))%Qc Hsv')
    as (v & Hv & Hv').
  assert (replace_shot s k rest
          = Ok (<[k:=v]> s, Access k (start_anchor_of k) (Z.of_nat m))) as Hstep.
  { unfold replace_shot. cbv zeta. rewrite Hstop, Hm.
    unfold int_truediv.
    destruct (decide (Z.of_nat m - (Z.of_nat k - 1) = 0)).
    { exfalso. unfold clamp_stop, len in Hm.
      destruct (decide (Z.of_nat stop = Z.of_nat (length s))); lia. }
    rewrite Ok_bind, Hsv, Ok_bind.
    rewrite (proj2 (getitem_nat_Ok s m stopv) Hstopv), Ok_bind.
    replace (Z.of_nat k - (Z.of_nat k - 1)) with 1 by lia.
    change (Qc_of_int 1) with 1%Qc. rewrite Hv, Ok_bind.
    rewrite (proj2 (setitem_nat_Ok s (<[k:=v]> s) k v)) by done.
    rewrite Ok_bind. done. }
  destruct (IH (<[k:=v]> s)) as (out & log & Hout & Hnn).
  - done.
  - rewrite length_insert. done.
  - intros i Hi. destruct (decide (i = k)) as [->|Hik].
    + rewrite list_lookup_insert_eq in Hi by done. congruence.
    + rewrite list_lookup_insert_ne in Hi by done.
      apply Hnone, elem_of_cons in Hi as [?|?]; done.
  - exists out, (Access k (start_anchor_of k) (Z.of_nat m) :: log).
    split; [|done].
    change (replace_shots s (k :: rest))
      with (replace_shot s k rest ≫= λ r1,
            replace_shots r1.1 rest ≫= λ r2, Ok (r2.1, r1.2 :: r2.2)).
    rewrite Hstep, Ok_bind. cbn beta iota delta [fst snd].
    by rewrite Hout, Ok_bind.
Qed.
(** * Properties *)

(** Membership in a list that is written out. *)
Ltac elem_solve :=
  simpl; rewrite ?list_elem_of_In; simpl; intuition (try lia; try discriminate).

(** C1.  On the signal [0,1,2,3,2,1,0,-1,-2,-1,0,1,2] with lookahead 3 and
    delta 0, [detect_peaks] returns the peak (3, 3) and two valleys: the
    first sample, (0, 0), confirmed at index 1, before (8, -2).  The claim
    expects the one valley (8, -2). *)
Lemma detect_peaks_confirmation :
  detect_peaks confirmation_signal 3 (qz 0)
  = Ok ([(3%nat, Fin (qz 3))], [(0%nat, Fin (qz 0)); (8%nat, Fin (qz (-2)))]).
Proof. vm_compute. reflexivity. Qed.

(** C2.  On [0,0,0,100,0,0,0] with jump=5 the jump criterion flags index 3
    and nothing after it: no flagged index lies beyond 3. *)
Lemma jump_cascade_counterexample :
  ∃ shots, shot_indexes cascade_signal (only_jump (qz 5)) = Ok shots
           ∧ Forall (λ j, j ≤ 3)%nat shots.
Proof.
  exists [3%nat]. split; [vm_compute; reflexivity|].
  repeat constructor.
Qed.

(** C2, as amended.  On [0,0,0,100,0,0,0] with jump=5 and no other
    criterion the flagged set is {3}: the samples that follow are compared
    with the last sample that was not flagged (index 2), index 4 is within
    the bound of it, and the signal returned is all zeros. *)
Theorem jump_flags_the_spike_only :
  shot_indexes cascade_signal (only_jump (qz 5)) = Ok [3%nat]
  ∧ jump_scan (qz 5) (nz 0) 4 (nz <$> [0; 0; 0]) = Ok []
  ∧ remove_shots cascade_signal (only_jump (qz 5))
    = Ok (nz <$> [0; 0; 0; 0; 0; 0; 0]).
Proof. repeat split; vm_compute; reflexivity. Qed.

(** C3.  On [0,3,100,100,9] with threshold_high=50 the block 2..3 is
    replaced by 5 and 7; the replacement as the claim words it, with the
    position counted from the first index of the block, gives 3 and 5. *)
Lemma replacement_counterexample :
  remove_shots two_shot_signal (only_threshold_high (qz 50))
  = Ok (nz <$> [0; 3; 5; 7; 9])
  ∧ spec_replacement two_shot_signal 2 4 2 = Ok (nz 3)
  ∧ spec_replacement two_shot_signal 2 4 3 = Ok (nz 5)
  ∧ Qc_eqb (qz 5) (qz 3) = false ∧ Qc_eqb (qz 7) (qz 5) = false.
Proof. repeat split; vm_compute; reflexivity. Qed.

(** C3, as amended.  For a flagged index k other than 1, the new value is
    start_value + (stop_value - start_value) * pos with
    pos = 1 / (stop_index - (k - 1)), where stop_index is the first index
    after the block of k that is not flagged, moved to n - 1 when it is n;
    start_value is the sample at k - 1 as the earlier replacements left it
    (k >= 2), or the average of the samples present in the input (k = 0);
    stop_value is the input's sample at stop_index, and when it is missing
    the new value is start_value. *)
Theorem remove_shots_replacement (signal out : list sample) (c : criteria)
    (shots : list nat) (k stop : nat) :
  shot_indexes signal c = Ok shots →
  remove_shots signal c = Ok out →
  k ∈ shots → k ≠ 1%nat → run_end shots k stop →
  let stop_index := clamp_stop (len signal) (Z.of_nat stop) in
  ∃ start_value stop_value v,
    (if decide (k = 0%nat) then np_average (present signal) = Ok start_value
     else out !! (k - 1)%nat = Some start_value)
    ∧ getitem signal stop_index = Ok stop_value
    ∧ interpolate start_value stop_value
        (1 / Qc_of_int (stop_index - (Z.of_nat k - 1)))%Qc = Ok v
    ∧ out !! k = Some v.
Proof.
  intros Hshots Hout Hk Hk1 Hend stop_index.
  apply remove_shots_log_Ok in Hout as (shots' & log & Hshots' & Hloop).
  assert (shots' = shots) as -> by congruence.
  destruct (replace_shots_at [] (sorted_set shots) signal out log k stop)
    as (cur & sv & stopv & v & Hlen & Hbefore & Hafter & Hsv & Hstopv & _ & Hv & Hklt & Hov & _);
    [apply sorted_set_sorted|done|by apply sorted_set_elem
    |by apply run_end_sorted_set|].
  fold stop_index in Hstopv, Hv.
  exists sv, stopv, v. split; [|split; [|done]].
  - destruct (decide (k = 0%nat)) as [->|Hk0].
    + destruct (decide (Z.of_nat 0 - 1 > 0)); [lia|].
      assert (cur = signal) as <-; [|done].
      apply list_eq. intros i. apply Hafter. lia.
    + destruct (decide (Z.of_nat k - 1 > 0)); [|lia].
      replace (Z.of_nat k - 1) with (Z.of_nat (k - 1)) in Hsv by lia.
      apply getitem_nat_Ok in Hsv. rewrite <- Hbefore; [done|lia].
  - destruct Hend as (Hlt & _ & _).
    assert (∃ m, stop_index = Z.of_nat m ∧ (k ≤ m)%nat) as (m & Hm & Hkm).
    { unfold stop_index, clamp_stop, len.
      destruct (decide (Z.of_nat stop = Z.of_nat (length signal))).
      - exists (length signal - 1)%nat. lia.
      - exists stop. lia. }
    rewrite Hm in *. apply getitem_nat_Ok in Hstopv. apply getitem_nat_Ok.
    by rewrite <- Hafter.
Qed.

Lemma remove_shots_replacement_witness :
  ∃ start_value stop_value,
    (nz <$> [0; 3; 5; 7; 9]) !! 2%nat = Some start_value
    ∧ getitem two_shot_signal 4 = Ok stop_value
    ∧ interpolate start_value stop_value (1 / Qc_of_int (4 - (3 - 1)))%Qc
      = Ok (nz 7).
Proof.
  destruct (remove_shots_replacement two_shot_signal (nz <$> [0; 3; 5; 7; 9])
              (only_threshold_high (qz 50)) [2; 3]%nat 3 4)
    as (sv & stopv & v & Hsv & Hstopv & Hv & Hov).
  - vm_compute; reflexivity.
  - vm_compute; reflexivity.
  - elem_solve.
  - lia.
  - repeat split; [lia| |elem_solve].
    intros j Hj. assert (j = 3%nat) as -> by lia. elem_solve.
  - exists sv, stopv. injection Hov as <-.
    split; [exact Hsv|]. split; [exact Hstopv|exact Hv].
Defined.

(** C4.  On [0,3,100,100,9] with threshold_high=50 the indexes 2 and 3 are
    flagged, and the replacement at 3 reads its start value at index 2:
    inside the block, where the replacement before it has written 5. *)
Lemma anchors_counterexample :
  shot_indexes two_shot_signal (only_threshold_high (qz 50)) = Ok [2; 3]%nat
  ∧ remove_shots_log two_shot_signal (only_threshold_high (qz 50))
    = Ok (nz <$> [0; 3; 5; 7; 9],
          [Access 2 (AtIndex 1) 4; Access 3 (AtIndex 2) 4]).
Proof. split; vm_compute; reflexivity. Qed.

(** C4, as amended.  Every replacement is the one of a flagged index k;
    take k other than 1.  Its stop anchor is the first index after k that
    is not flagged, so past k and outside every block, unless the block of
    k reaches the end of the signal, where it is the last index n - 1.
    Its start value is read at index k - 1 when k >= 2, whether this index
    is flagged or not, and is the average of the samples present when
    k = 0.  What is returned at k is interpolated between the samples at
    these two anchors, as the iteration for k finds them: the samples
    before k as they are returned, the others as they came. *)
Theorem remove_shots_anchors (signal out : list sample) (c : criteria)
    (shots : list nat) (log : list access) (a : access) :
  shot_indexes signal c = Ok shots →
  remove_shots_log signal c = Ok (out, log) →
  a ∈ log → written a ≠ 1%nat →
  written a ∈ shots
  ∧ (∃ stop, run_end shots (written a) stop
       ∧ (stop ≤ length signal)%nat
       ∧ stop_anchor a
         = (if decide (stop = length signal) then len signal - 1 else Z.of_nat stop))
  ∧ start_anchor a
    = (if decide (written a = 0%nat) then AverageOfPresent
       else AtIndex (Z.of_nat (written a) - 1))
  ∧ (let cur := take (written a) out ++ drop (written a) signal in
     ∃ start_value stop_value v,
       match start_anchor a with
       | AtIndex i => getitem cur i
       | AverageOfPresent => np_average (present cur)
       end = Ok start_value
       ∧ getitem cur (stop_anchor a) = Ok stop_value
       ∧ interpolate start_value stop_value
           (1 / Qc_of_int (stop_anchor a - (Z.of_nat (written a) - 1)))%Qc = Ok v
       ∧ out !! written a = Some v).
Proof.
  intros Hshots Hlog Ha H1. unfold remove_shots_log in Hlog.
  rewrite Hshots, Ok_bind in Hlog.
  destruct (replace_shots_log_at [] (sorted_set shots) signal out log a)
    as (stop & Hin & Hend & E);
    [apply sorted_set_sorted|done|done|].
  destruct (replace_shots_at [] (sorted_set shots) signal out log (written a) stop)
    as (cur & sv & stopv & v & Hcl & Hbefore & Hafter & Hsv & Hstopv & _ & Hv & Hklt & Hov & _);
    [apply sorted_set_sorted|done|done|done|].
  apply (signal_as_found cur signal out) in Hbefore as Hcur;
    [|by apply lookup_lt_Some in Hov|done].
  simpl in Hin, Hend. rewrite sorted_set_elem in Hin.
  rewrite run_end_sorted_set in Hend.
  assert (start_anchor a = start_anchor_of (written a)) as Esa by (by rewrite E).
  assert (stop_anchor a = clamp_stop (len signal) (Z.of_nat stop)) as Esp by (by rewrite E).
  rewrite Esa, Esp. split; [exact Hin|]. split; [|split].
  - exists stop. split; [done|].
    assert (stop ≤ length signal)%nat as Hle.
    { destruct Hend as (Hlt & Hall & _).
      assert ((stop - 1)%nat ∈ shots) as Hs by (apply Hall; lia).
      pose proof (shot_indexes_range _ _ _ _ Hshots Hs). lia. }
    split; [done|]. unfold clamp_stop, len.
    destruct (decide (Z.of_nat stop = Z.of_nat (length signal))),
             (decide (stop = length signal)); try done; lia.
  - unfold start_anchor_of.
    destruct (decide (written a = 0%nat)), (decide (Z.of_nat (written a) - 1 > 0));
      try done; lia.
  - cbv zeta. rewrite <- Hcur. exists sv, stopv, v.
    split; [|done]. unfold start_anchor_of.
    destruct (decide (Z.of_nat (written a) - 1 > 0)); done.
Qed.

Lemma remove_shots_anchors_witness :
  (3%nat ∈ [2; 3]%nat)
  ∧ (∃ stop, run_end [2; 3]%nat 3 stop
       ∧ (stop ≤ length two_shot_signal)%nat
       ∧ 4 = (if decide (stop = length two_shot_signal)
              then len two_shot_signal - 1 else Z.of_nat stop))
  ∧ AtIndex 2 = (if decide (3%nat = 0%nat) then AverageOfPresent
                 else AtIndex (Z.of_nat 3 - 1))
  ∧ (let cur := take 3 (nz <$> [0; 3; 5; 7; 9]) ++ drop 3 two_shot_signal in
     ∃ start_value stop_value v,
       getitem cur 2 = Ok start_value
       ∧ getitem cur 4 = Ok stop_value
       ∧ interpolate start_value stop_value
           (1 / Qc_of_int (4 - (Z.of_nat 3 - 1)))%Qc = Ok v
       ∧ (nz <$> [0; 3; 5; 7; 9]) !! 3%nat = Some v).
Proof.
  apply (remove_shots_anchors two_shot_signal (nz <$> [0; 3; 5; 7; 9])
           (only_threshold_high (qz 50)) [2; 3]%nat
           [Access 2 (AtIndex 1) 4; Access 3 (AtIndex 2) 4]
           (Access 3 (AtIndex 2) 4)).
  - vm_compute; reflexivity.
  - vm_compute; reflexivity.
  - right. left.
  - simpl. lia.
Defined.

(** C5.  A signal of three missing samples, with the nones criterion:
    [remove_shots] raises nothing and returns three NaN. *)
Lemma all_missing_counterexample :
  remove_shots (all_none_signal 3) only_nones = Ok [NaN; NaN; NaN].
Proof. vm_compute; reflexivity. Qed.

(** C5, as amended.  On a signal all of whose samples are missing, with
    the nones criterion enabled and no criterion that compares,
    [remove_shots] raises no error: it returns a signal of the same length
    whose every sample is NaN, the average of no sample. *)
Theorem remove_shots_all_missing (n : nat) (po z : bool) :
  remove_shots (all_none_signal n) (Criteria None None None po true z None)
  = Ok (replicate n NaN).
Proof.
  unfold remove_shots, remove_shots_log, all_none_signal.
  pose proof (shot_indexes_all_none n po z) as Hs.
  apply fmap_Ok in Hs as (shots & -> & Hshots). rewrite Ok_bind, <- Hshots.
  destruct (replace_shots_all_none 0 n) as [log Hlog]. simpl in Hlog.
  by rewrite Hlog.
Qed.

(** C6.  A missing sample with threshold_high enabled: the comparison
    raises [TypeError]. *)
Lemma threshold_on_missing_counterexample :
  remove_shots [nz 1; PyNone; nz 3] (only_threshold_high (qz 2))
  = Raise TypeError.
Proof. vm_compute; reflexivity. Qed.

(** C6, as amended.  For every signal that holds a missing sample,
    [remove_shots] with threshold_high or threshold_low enabled raises
    [TypeError]: the comparison of the missing sample with the threshold is
    not guarded. *)
Theorem remove_shots_threshold_on_missing (signal : list sample) (c : criteria) :
  PyNone ∈ signal →
  is_Some (threshold_high c) ∨ is_Some (threshold_low c) →
  remove_shots signal c = Raise TypeError.
Proof.
  intros Hin Hc. unfold remove_shots, remove_shots_log, shot_indexes.
  destruct (threshold_high c) as [t|].
  { rewrite (indexes_where_none (λ x, sample_gt x t)); [done..| |done].
    intros [] ?; [done|by eexists..]. }
  destruct Hc as [[? [=]]|[t ->]]. rewrite Ok_bind.
  rewrite (indexes_where_none (λ x, sample_lt x t)); [done..| |done].
  intros [] ?; [done|by eexists..].
Qed.

Lemma remove_shots_threshold_on_missing_witness :
  remove_shots [nz 1; PyNone; nz 3] (Criteria None (Some (qz 2)) None false false false None)
  = Raise TypeError.
Proof.
  apply remove_shots_threshold_on_missing.
  - right. left.
  - right. by eexists.
Defined.

(** C7.  [detect_peaks] visits the positions 0 .. n - lookahead - 1 only:
    every index it returns, of a peak or of a valley, is at most
    n - lookahead - 1, and with lookahead >= n it returns two empty lists.
    For a lookahead that is not negative it raises nothing. *)
Theorem detect_peaks_trimmed (signal : list Qc) (lookahead : Z) (delta : Qc) :
  (0 ≤ lookahead → ∃ r, detect_peaks signal lookahead delta = Ok r)
  ∧ (∀ pks vls, detect_peaks signal lookahead delta = Ok (pks, vls) →
       ∀ p, p ∈ pks ++ vls → Z.of_nat p.1 ≤ len signal - lookahead - 1)
  ∧ (len signal ≤ lookahead → detect_peaks signal lookahead delta = Ok ([], [])).
Proof.
  split; [|split].
  - intros Hl. unfold detect_peaks.
    destruct (peak_loop_returns signal lookahead delta
                (enumerate (slice signal 0 (- lookahead))) peak_init) as [st ->].
    + intros i x [_ Hi]%candidate_positions. destruct (Hi Hl).
      apply slice_window_nonempty; lia.
    + split; intros q [=].
    + by eexists.
  - intros pks vls H p Hp. unfold detect_peaks in H. ok_inv H.
    injection H as <- <-.
    eapply peak_loop_positions in Hx as (Hpos & _); [by apply Hpos| |].
    + intros i v Hi. by apply candidate_positions in Hi as [? _].
    + repeat split; simpl; [|done..]. by intros ? ?%elem_of_nil.
  - intros Hn. unfold detect_peaks.
    assert (slice signal 0 (- lookahead) = []) as ->; [|done].
    apply length_zero_iff_nil, Nat2Z.inj. rewrite slice_length.
    unfold slice_bound, len in *. repeat case_decide; lia.
Qed.

Lemma detect_peaks_trimmed_witness :
  (∃ r, detect_peaks confirmation_signal 3 (qz 0) = Ok r)
  ∧ detect_peaks confirmation_signal 13 (qz 0) = Ok ([], []).
Proof.
  destruct (detect_peaks_trimmed confirmation_signal 3 (qz 0)) as (H1 & _).
  destruct (detect_peaks_trimmed confirmation_signal 13 (qz 0)) as (_ & _ & H3).
  split; [apply H1; lia|apply H3; vm_compute; discriminate].
Defined.

(** C8.  When no enabled criterion flags an index, and so when no
    criterion is enabled, [remove_shots] returns its input, sample for
    sample. *)
Theorem remove_shots_clean (signal : list sample) (c : criteria) :
  shot_indexes signal c = Ok [] ∨ none_enabled c →
  remove_shots signal c = Ok signal.
Proof.
  intros H.
  assert (shot_indexes signal c = Ok []) as Hs.
  { destruct H as [?|(H1 & H2 & H3 & H4 & H5 & H6)]; [done|].
    unfold shot_indexes. by rewrite H1, H2, H3, H4, H5, H6. }
  unfold remove_shots, remove_shots_log. by rewrite Hs.
Qed.

Lemma remove_shots_clean_witness :
  remove_shots cascade_signal (only_threshold_high (qz 100)) = Ok cascade_signal
  ∧ remove_shots two_shot_signal no_criteria = Ok two_shot_signal.
Proof.
  split; apply remove_shots_clean.
  - left. vm_compute; reflexivity.
  - right. repeat split.
Defined.

(** C9.  The indexes [remove_shots] assigns to are the flagged ones.  A
    sample whose index is not flagged is returned as it came.  A flagged
    index k is assigned once, in increasing order, and what is returned
    at k is the value that lines 121 to 126 compute for it: from the
    signal as the iteration for k finds it (the samples before k as they
    are returned, the others as they came), with the start value of
    line 122, the sample at stop_index, and pos = 1 / (stop_index -
    (k - 1)), where stop_index is the first index after k that is not
    flagged, moved to n - 1 when it is n. *)
Theorem remove_shots_edits_flagged (signal out : list sample) (c : criteria)
    (shots : list nat) (log : list access) :
  shot_indexes signal c = Ok shots →
  remove_shots_log signal c = Ok (out, log) →
  (∀ i, i ∈ written <$> log ↔ i ∈ shots)
  ∧ NoDup (written <$> log)
  ∧ (∀ i, i ∉ shots → out !! i = signal !! i)
  ∧ length out = length signal
  ∧ (∀ k, k ∈ shots →
       let cur := take k out ++ drop k signal in
       ∃ stop start_value stop_value v,
         run_end shots k stop
         ∧ let stop_index := clamp_stop (len signal) (Z.of_nat stop) in
           (if decide (Z.of_nat k - 1 > 0) then getitem cur (Z.of_nat k - 1)
            else np_average (present cur)) = Ok start_value
           ∧ getitem cur stop_index = Ok stop_value
           ∧ interpolate start_value stop_value
               (1 / Qc_of_int (stop_index - (Z.of_nat k - 1)))%Qc = Ok v
           ∧ out !! k = Some v).
Proof.
  intros Hshots Hlog. unfold remove_shots_log in Hlog.
  rewrite Hshots, Ok_bind in Hlog.
  pose proof (replace_shots_frame _ _ _ _ Hlog) as (Hlen & Hframe & Hw).
  split; [|split; [|split; [|split]]].
  - intros i. rewrite Hw. apply sorted_set_elem.
  - rewrite Hw. apply strict_sorted_nodup, sorted_set_sorted.
  - intros i Hi. apply Hframe. by rewrite sorted_set_elem.
  - done.
  - intros k Hk cur.
    assert (∃ a, a ∈ log ∧ written a = k) as (a & Ha & <-).
    { assert (k ∈ written <$> log) as Hin by (rewrite Hw; by apply sorted_set_elem).
      apply list_elem_of_fmap in Hin as (a & -> & Ha). by exists a. }
    destruct (replace_shots_log_at [] (sorted_set shots) signal out log a)
      as (stop & _ & Hend & _); [apply sorted_set_sorted|done|done|].
    simpl in Hend.
    destruct (replace_shots_at [] (sorted_set shots) signal out log (written a) stop)
      as (cur' & sv & stopv & v & Hcl & Hbefore & Hafter & Hsv & Hstopv & _ & Hv & Hklt & Hov & _);
      [apply sorted_set_sorted|done|by apply sorted_set_elem|done|].
    assert (cur' = cur) as ->.
    { apply list_eq. intros i. unfold cur.
      assert (length (take (written a) out) = written a) as Htl
        by (rewrite length_take; lia).
      destruct (decide (i < written a)%nat) as [Hi|Hi].
      - rewrite lookup_app_l by lia. rewrite lookup_take_lt by done. by apply Hbefore.
      - rewrite lookup_app_r by lia. rewrite Htl, lookup_drop.
        replace (written a + (i - written a))%nat with i by lia.
        apply Hafter. lia. }
    exists stop, sv, stopv, v. split; [by apply run_end_sorted_set|].
    cbv zeta. done.
Qed.

Lemma remove_shots_edits_flagged_witness :
  (∀ i, i ∈ [2; 3]%nat ↔ i ∈ [2; 3; 2; 3]%nat)
  ∧ NoDup [2; 3]%nat
  ∧ (∀ i, i ∉ [2; 3; 2; 3]%nat → (nz <$> [0; 3; 5; 7; 9]) !! i = two_shot_signal !! i)
  ∧ length (nz <$> [0; 3; 5; 7; 9]) = length two_shot_signal
  ∧ (∀ k, k ∈ [2; 3; 2; 3]%nat →
       let cur := take k (nz <$> [0; 3; 5; 7; 9]) ++ drop k two_shot_signal in
       ∃ stop start_value stop_value v,
         run_end [2; 3; 2; 3]%nat k stop
         ∧ let stop_index := clamp_stop (len two_shot_signal) (Z.of_nat stop) in
           (if decide (Z.of_nat k - 1 > 0) then getitem cur (Z.of_nat k - 1)
            else np_average (present cur)) = Ok start_value
           ∧ getitem cur stop_index = Ok stop_value
           ∧ interpolate start_value stop_value
               (1 / Qc_of_int (stop_index - (Z.of_nat k - 1)))%Qc = Ok v
           ∧ (nz <$> [0; 3; 5; 7; 9]) !! k = Some v).
Proof.
  apply (remove_shots_edits_flagged two_shot_signal (nz <$> [0; 3; 5; 7; 9])
           (Criteria (Some (qz 50)) None None false false false (Some (qz 50)))
           [2; 3; 2; 3]%nat [Access 2 (AtIndex 1) 4; Access 3 (AtIndex 2) 4]).
  - vm_compute; reflexivity.
  - vm_compute; reflexivity.
Defined.

(** C10.  A block [a..b] of flagged indexes that is as long as it can be,
    with a >= 2 and b <= n - 2 and numbers on both sides, is filled with
    the straight line through (a-1, signal[a-1]) and (b+1, signal[b+1]),
    in exact arithmetic, although every replacement after the first reads
    the sample the one before has written. *)
Theorem remove_shots_straight_line (signal out : list sample) (c : criteria)
    (shots : list nat) (a b : nat) (sa sb : Qc) :
  shot_indexes signal c = Ok shots →
  remove_shots signal c = Ok out →
  (2 ≤ a)%nat → (a ≤ b)%nat → (b + 2 ≤ length signal)%nat →
  (∀ k, (a ≤ k ≤ b)%nat → k ∈ shots) →
  (a - 1)%nat ∉ shots → (b + 1)%nat ∉ shots →
  signal !! (a - 1)%nat = Some (Num sa) →
  signal !! (b + 1)%nat = Some (Num sb) →
  ∀ k, (a ≤ k ≤ b)%nat →
    out !! k
    = Some (Num (sa + (sb - sa)
                      * (Qc_of_int (Z.of_nat k - (Z.of_nat a - 1))
                         / Qc_of_int ((Z.of_nat b + 1) - (Z.of_nat a - 1))))%Qc).
Proof.
  intros Hshots Hout Ha Hab Hb Hrun Hlo Hhi Hsa Hsb.
  apply remove_shots_log_Ok in Hout as (shots' & log & Hshots' & Hloop).
  assert (shots' = shots) as -> by congruence.
  pose proof (sorted_set_sorted shots) as Hsorted.
  pose proof (replace_shots_frame _ _ _ _ Hloop) as (_ & Hframe & _).
  assert (Qc_of_int (Z.of_nat b + 1 - (Z.of_nat a - 1)) ≠ 0%Qc) as HM
    by (apply Qc_of_int_nonzero; lia).
  (* the line holds from a - 1 on *)
  assert (∀ k, (a - 1 ≤ k ≤ b)%nat →
            out !! k
            = Some (Num (sa + (sb - sa)
                      * (Qc_of_int (Z.of_nat k - (Z.of_nat a - 1))
                         / Qc_of_int ((Z.of_nat b + 1) - (Z.of_nat a - 1))))%Qc))
    as Hline; [|intros k Hk; apply Hline; lia].
  induction k as [|k IH]; intros Hk; [lia|].
  destruct (decide (S k = a - 1)%nat) as [E|NE].
  { rewrite E, Hframe; [|by rewrite sorted_set_elem]. rewrite Hsa.
    do 2 f_equal. replace (Z.of_nat (a - 1) - (Z.of_nat a - 1)) with 0 by lia.
    change (Qc_of_int 0) with 0%Qc. field. exact HM. }
  specialize (IH ltac:(lia)).
  destruct (replace_shots_at [] (sorted_set shots) signal out log (S k) (S b))
    as (cur & sv & stopv & v & Hlen & Hbefore & Hafter & Hsv & Hstopv & Hnz & Hv & _ & Hov & _);
    [done|done|apply sorted_set_elem, Hrun; lia| |].
  { repeat split; [lia| |].
    - intros j Hj. apply sorted_set_elem, Hrun. lia.
    - simpl. rewrite sorted_set_elem. by replace (S b) with (b + 1)%nat by lia. }
  assert (clamp_stop (len signal) (Z.of_nat (S b)) = Z.of_nat (S b)) as Hclamp.
  { unfold clamp_stop, len.
    destruct (decide (Z.of_nat (S b) = Z.of_nat (length signal))); lia. }
  rewrite Hclamp in *.
  destruct (decide (Z.of_nat (S k) - 1 > 0)) as [_|]; [|lia].
  replace (Z.of_nat (S k) - 1) with (Z.of_nat k) in * by lia.
  apply getitem_nat_Ok in Hsv, Hstopv.
  rewrite Hbefore, IH in Hsv by lia. injection Hsv as <-.
  rewrite Hafter in Hstopv by lia.
  replace (S b) with (b + 1)%nat in Hstopv by lia.
  rewrite Hsb in Hstopv. injection Hstopv as <-.
  rewrite Hov. simpl in Hv. injection Hv as <-. do 2 f_equal.
  replace (Z.of_nat k - (Z.of_nat a - 1))
    with ((Z.of_nat (S k) - (Z.of_nat a - 1)) - 1) by lia.
  rewrite (Qc_of_int_sub _ 1). change (Qc_of_int 1) with 1%Qc.
  apply (line_step sa sb); [done|by apply Qc_of_int_nonzero|].
  replace (Z.of_nat (S b) - Z.of_nat k)
    with ((Z.of_nat b + 1 - (Z.of_nat a - 1)) - (Z.of_nat (S k) - (Z.of_nat a - 1)) + 1) by lia.
  rewrite Qc_of_int_add, Qc_of_int_sub. done.
Qed.

Lemma remove_shots_straight_line_witness :
  (nz <$> [0; 3; 5; 7; 9]) !! 3%nat
  = Some (Num (qz 3 + (qz 9 - qz 3)
                      * (Qc_of_int (Z.of_nat 3 - (Z.of_nat 2 - 1))
                         / Qc_of_int ((Z.of_nat 3 + 1) - (Z.of_nat 2 - 1))))%Qc).
Proof.
  apply (remove_shots_straight_line two_shot_signal (nz <$> [0; 3; 5; 7; 9])
           (only_threshold_high (qz 50)) [2; 3]%nat 2 3 (qz 3) (qz 9)).
  - vm_compute; reflexivity.
  - vm_compute; reflexivity.
  - lia.
  - lia.
  - simpl; lia.
  - intros k Hk. assert (k = 2 ∨ k = 3)%nat as [-> | ->] by lia; elem_solve.
  - elem_solve.
  - elem_solve.
  - reflexivity.
  - reflexivity.
  - lia.
Defined.

(** The run that ends the signal.  On [10, 10, 10, 1000] with
    threshold_high=100 index 3 is flagged, [stop_index] is moved from 4
    onto 3, and the flagged sample is interpolated against itself with
    pos = 1: it keeps its value 1000. *)
Lemma boundary_clamp_keeps_last_sample :
  remove_shots_log boundary_signal (only_threshold_high (qz 100))
  = Ok (boundary_signal, [Access 3 (AtIndex 2) 3]).
Proof. vm_compute; reflexivity. Qed.

(** A flagged index 1.  [start_index] is 0, the test [start_index > 0]
    fails, and the start value is the average of the samples present, not
    the sample at index 0: on [0, 90, 0] with threshold_high=50 the average
    is 30 and index 1 is set to 30 + (0 - 30) / 2 = 15. *)
Lemma flagged_index_one_reads_average :
  remove_shots_log (nz <$> [0; 90; 0]) (only_threshold_high (qz 50))
  = Ok (nz <$> [0; 15; 0], [Access 1 AverageOfPresent 2]).
Proof. vm_compute; reflexivity. Qed.
(** * Further properties *)

(** ** remove_shots *)

(** A signal without a missing sample: whatever the criteria,
    [remove_shots] raises nothing and returns a signal of the same length
    without a missing sample. *)
Theorem remove_shots_numeric (signal : list sample) (c : criteria) :
  Forall (λ x, x ≠ PyNone) signal →
  ∃ out, remove_shots signal c = Ok out
         ∧ length out = length signal
         ∧ Forall (λ x, x ≠ PyNone) out.
Proof.
  intros Hs. destruct (shot_indexes_present signal c Hs) as [shots Hshots].
  destruct (replace_shots_total signal (sorted_set shots)) as (out & log & Hout & Hnn).
  - apply sorted_set_sorted.
  - apply Forall_forall. intros k Hk. rewrite sorted_set_elem in Hk.
    exact (shot_indexes_range _ _ _ _ Hshots Hk).
  - intros i Hi. rewrite Forall_forall in Hs.
    exfalso. by eapply Hs; [eapply list_elem_of_lookup_2|].
  - exists out. split; [|split; [|done]].
    + apply remove_shots_log_Ok. by exists shots, log.
    + by apply replace_shots_frame in Hout as (? & _).
Qed.

Lemma remove_shots_numeric_witness :
  ∃ out, remove_shots two_shot_signal (only_threshold_high (qz 50)) = Ok out
         ∧ length out = length two_shot_signal
         ∧ Forall (λ x, x ≠ PyNone) out.
Proof.
  apply remove_shots_numeric. repeat constructor; discriminate.
Defined.

(** Filling in missing values.  With the nones criterion alone,
    [remove_shots] raises nothing on any signal: the signal returned has
    the length of the input and no missing sample, and the samples that
    were present are returned as they came. *)
Theorem remove_shots_fills_missing (signal : list sample) (c : criteria) :
  threshold_high c = None → threshold_low c = None → devs c = None →
  jump c = None → zeros c = false → nones c = true →
  ∃ out, remove_shots signal c = Ok out
         ∧ length out = length signal
         ∧ Forall (λ x, x ≠ PyNone) out
         ∧ ∀ i x, signal !! i = Some x → x ≠ PyNone → out !! i = Some x.
Proof.
  intros H1 H2 H3 H4 H5 H6.
  destruct (shot_indexes_nones signal c H1 H2 H3 H4 H6) as (shots & Hshots & Hnone).
  destruct (replace_shots_total signal (sorted_set shots)) as (out & log & Hout & Hnn).
  - apply sorted_set_sorted.
  - apply Forall_forall. intros k Hk. rewrite sorted_set_elem in Hk.
    exact (shot_indexes_range _ _ _ _ Hshots Hk).
  - intros i Hi. by apply sorted_set_elem, Hnone.
  - exists out. split; [|split; [|split; [done|]]].
    + apply remove_shots_log_Ok. by exists shots, log.
    + by apply replace_shots_frame in Hout as (? & _).
    + intros i x Hi Hx. apply replace_shots_frame in Hout as (_ & Hframe & _).
      rewrite Hframe; [done|]. rewrite sorted_set_elem.
      intros Hin. unfold shot_indexes in Hshots.
      rewrite H1, H2, H3, H4, H5, H6, !Ok_bind in Hshots.
      ok_inv Hshots. injection Hx1 as <-. injection Hx2 as <-.
      injection Hshots as <-. simpl in Hin. rewrite app_nil_r in Hin.
      apply (indexes_where_elem _ _ _ _ i Hx0) in Hin as (_ & y & Hy & Ht).
      rewrite Nat.sub_0_r in Hy. assert (y = x) as -> by congruence.
      injection Ht as Ht. by destruct x.
Qed.

Lemma remove_shots_fills_missing_witness :
  ∃ out, remove_shots [nz 1; PyNone; PyNone; nz 4; PyNone] only_nones = Ok out
         ∧ length out = 5%nat
         ∧ Forall (λ x, x ≠ PyNone) out
         ∧ ∀ i x, [nz 1; PyNone; PyNone; nz 4; PyNone] !! i = Some x →
                  x ≠ PyNone → out !! i = Some x.
Proof. by apply remove_shots_fills_missing. Defined.

(** The last sample.  A last sample that is a number and is not flagged is
    returned as it came.  When it is flagged, its [stop_index] is moved
    onto itself: it is interpolated towards its own value with [pos = 1],
    that is, returned as [start_value + (x - start_value) * 1], with the
    start value of line 122 read from the signal as the iteration finds
    it; it is not filled with the start value.  In exact arithmetic, the
    rounding of floats apart, that value is the sample itself again, or
    NaN when the start value is NaN. *)
Theorem remove_shots_last_sample (signal out : list sample) (c : criteria)
    (shots : list nat) (x : Qc) :
  shot_indexes signal c = Ok shots →
  remove_shots signal c = Ok out →
  signal !! (length signal - 1)%nat = Some (Num x) →
  let k := (length signal - 1)%nat in
  if decide (k ∈ shots) then
    let cur := take k out ++ drop k signal in
    ∃ start_value v,
      (if decide (Z.of_nat k - 1 > 0) then getitem cur (Z.of_nat k - 1)
       else np_average (present cur)) = Ok start_value
      ∧ interpolate start_value (Num x) 1%Qc = Ok v
      ∧ out !! k = Some v
      ∧ (v = Num x ∨ v = NaN)
  else out !! k = Some (Num x).
Proof.
  intros Hshots Hout Hlast k.
  apply remove_shots_log_Ok in Hout as (shots' & log & Hshots' & Hloop).
  assert (shots' = shots) as -> by congruence.
  pose proof (lookup_lt_Some _ _ _ Hlast) as Hn. fold k in Hlast, Hn.
  destruct (decide (k ∈ shots)) as [Hk|Hk].
  2:{ apply replace_shots_frame in Hloop as (_ & Hframe & _).
      rewrite Hframe; [done|]. by rewrite sorted_set_elem. }
  destruct (replace_shots_at [] (sorted_set shots) signal out log k (length signal))
    as (cur & sv & stopv & v & Hlen & Hbefore & Hafter & Hsv & Hstopv & _ & Hv & _ & Hov & _);
    [apply sorted_set_sorted|done|by apply sorted_set_elem| |].
  { simpl. apply run_end_sorted_set. repeat split; [lia| |].
    - intros j Hj. by replace j with k by lia.
    - intros Hin. apply (shot_indexes_range _ _ _ _ Hshots) in Hin. lia. }
  assert (clamp_stop (len signal) (Z.of_nat (length signal)) = Z.of_nat k) as E.
  { unfold clamp_stop, len.
    destruct (decide (Z.of_nat (length signal) = Z.of_nat (length signal))); lia. }
  rewrite E in *. apply getitem_nat_Ok in Hstopv.
  rewrite Hafter, Hlast in Hstopv by lia. injection Hstopv as <-.
  replace (Z.of_nat k - (Z.of_nat k - 1)) with 1 in Hv by lia.
  change (Qc_of_int 1) with 1%Qc in Hv.
  assert (1 / 1 = 1)%Qc as E1 by (apply Qc_is_canon; by vm_compute).
  rewrite E1 in Hv.
  assert (cur = take k out ++ drop k signal) as <-.
  { apply signal_as_found; [|done|done].
    apply lookup_lt_Some in Hov. done. }
  exists sv, v. split; [done|]. split; [done|]. split; [done|].
  unfold interpolate in Hv.
  destruct sv as [| |s];
    cbn [is_none sample_sub sample_scale sample_add mbind result_bind] in Hv;
    [done|right; congruence|left].
  injection Hv as <-. f_equal. ring.
Qed.

Lemma remove_shots_last_sample_witness :
  let k := (length boundary_signal - 1)%nat in
  if decide (k ∈ [3%nat]) then
    let cur := take k boundary_signal ++ drop k boundary_signal in
    ∃ start_value v,
      (if decide (Z.of_nat k - 1 > 0) then getitem cur (Z.of_nat k - 1)
       else np_average (present cur)) = Ok start_value
      ∧ interpolate start_value (Num (qz 1000)) 1%Qc = Ok v
      ∧ boundary_signal !! k = Some v
      ∧ (v = Num (qz 1000) ∨ v = NaN)
  else boundary_signal !! k = Some (Num (qz 1000)).
Proof.
  apply (remove_shots_last_sample boundary_signal boundary_signal
           (only_threshold_high (qz 100)) [3%nat] (qz 1000)).
  - vm_compute; reflexivity.
  - vm_compute; reflexivity.
  - reflexivity.
Defined.

(** A flagged index 1.  Its start value is not the sample at index 0 but
    the average of the samples that are not missing, taken over the
    signal as the replacement finds it (index 0 already replaced when it
    is flagged too): the test of line 122 is [start_index > 0]. *)
Theorem remove_shots_index_one (signal out : list sample) (c : criteria)
    (shots : list nat) (stop : nat) :
  shot_indexes signal c = Ok shots →
  remove_shots signal c = Ok out →
  1%nat ∈ shots → run_end shots 1 stop →
  let stop_index := clamp_stop (len signal) (Z.of_nat stop) in
  ∃ first start_value stop_value v,
    out !! 0%nat = Some first
    ∧ np_average (present (<[0%nat:=first]> signal)) = Ok start_value
    ∧ getitem signal stop_index = Ok stop_value
    ∧ interpolate start_value stop_value (1 / Qc_of_int stop_index)%Qc = Ok v
    ∧ out !! 1%nat = Some v.
Proof.
  intros Hshots Hout Hk Hend stop_index.
  apply remove_shots_log_Ok in Hout as (shots' & log & Hshots' & Hloop).
  assert (shots' = shots) as -> by congruence.
  destruct (replace_shots_at [] (sorted_set shots) signal out log 1 stop)
    as (cur & sv & stopv & v & Hlen & Hbefore & Hafter & Hsv & Hstopv & _ & Hv & Hklt & Hov & _);
    [apply sorted_set_sorted|done|by apply sorted_set_elem
    |by apply run_end_sorted_set|].
  fold stop_index in Hstopv, Hv.
  destruct (decide (Z.of_nat 1 - 1 > 0)); [lia|].
  replace (stop_index - (Z.of_nat 1 - 1)) with stop_index in Hv by lia.
  destruct (lookup_lt_is_Some_2 cur 0) as [first Hfirst]; [lia|].
  assert (cur = <[0%nat:=first]> signal) as Hcur.
  { apply list_eq. intros [|i].
    - rewrite list_lookup_insert_eq by lia. done.
    - rewrite list_lookup_insert_ne by lia. apply Hafter. lia. }
  exists first, sv, stopv, v. split; [|split; [|split; [|done]]].
  - rewrite <- Hbefore by lia. done.
  - by rewrite <- Hcur.
  - destruct Hend as (Hlt & _ & _).
    assert (∃ m, stop_index = Z.of_nat m ∧ (1 ≤ m)%nat) as (m & Hm & Hkm).
    { unfold stop_index, clamp_stop, len.
      destruct (decide (Z.of_nat stop = Z.of_nat (length signal))).
      - exists (length signal - 1)%nat. lia.
      - exists stop. lia. }
    rewrite Hm in *. apply getitem_nat_Ok in Hstopv. apply getitem_nat_Ok.
    by rewrite <- Hafter.
Qed.

Lemma remove_shots_index_one_witness :
  ∃ first start_value stop_value v,
    (nz <$> [0; 15; 0]) !! 0%nat = Some first
    ∧ np_average (present (<[0%nat:=first]> (nz <$> [0; 90; 0]))) = Ok start_value
    ∧ getitem (nz <$> [0; 90; 0]) 2 = Ok stop_value
    ∧ interpolate start_value stop_value (1 / Qc_of_int 2)%Qc = Ok v
    ∧ (nz <$> [0; 15; 0]) !! 1%nat = Some v.
Proof.
  destruct (remove_shots_index_one (nz <$> [0; 90; 0]) (nz <$> [0; 15; 0])
              (only_threshold_high (qz 50)) [1%nat] 2)
    as (first & sv & stopv & v & H0 & Hsv & Hstopv & Hv & H1).
  - vm_compute; reflexivity.
  - vm_compute; reflexivity.
  - elem_solve.
  - repeat split; [lia| |elem_solve].
    intros j Hj. assert (j = 1%nat) as -> by lia. elem_solve.
  - exists first, sv, stopv, v.
    split; [exact H0|]. split; [exact Hsv|]. split; [exact Hstopv|].
    split; [exact Hv|exact H1].
Defined.
(** ** The jump criterion *)

Lemma jump_scan_elem (jump : Qc) (base : sample) (j : nat)
    (rest : list sample) (l : list nat) (k : nat) :
  jump_scan jump base j rest = Ok l →
  k ∈ l ↔
    (j ≤ k)%nat
    ∧ ∃ x b, rest !! (k - j)%nat = Some x
             ∧ further_than jump x b
             ∧ (((∀ i, (j ≤ i < k)%nat → i ∈ l) ∧ b = base)
                ∨ (∃ i, (j ≤ i < k)%nat ∧ (i ∉ l)
                        ∧ (∀ i', (i < i' < k)%nat → i' ∈ l)
                        ∧ rest !! (i - j)%nat = Some b)).
Proof.
  revert base j l. induction rest as [|x0 rest IH]; intros base j l H.
  { injection H as <-. split; [by intros ?%elem_of_nil|].
    by intros (_ & x & b & ? & _). }
  pose proof (jump_scan_range _ _ _ _ _ k H) as Hrange.
  simpl in H.
  destruct (sample_sub x0 base ≫= λ d, sample_abs d ≫= λ d, sample_gt d jump)
    as [flag|] eqn:Hflag.
  2:{ exfalso. clear -H Hflag. destruct (sample_sub x0 base); [|done].
      simpl in *. destruct (sample_abs a); [|done]. simpl in *.
      destruct (sample_gt a0 jump); done. }
  assert (∃ l', jump_scan jump (if flag then base else x0) (S j) rest = Ok l'
                ∧ l = if flag then j :: l' else l') as (l' & Hrest & El).
  { destruct (sample_sub x0 base) as [d|]; [|done]. simpl in Hflag, H.
    destruct (sample_abs d) as [d'|]; [|done]. simpl in Hflag, H.
    rewrite Hflag in H. simpl in H. destruct flag.
    - ok_inv H. injection H as <-. by exists x.
    - by exists l. }
  assert ((if flag then j ∈ l else j ∉ l)
          ∧ ∀ i, (j < i)%nat → i ∈ l ↔ i ∈ l') as (Hj & Hl).
  { destruct flag; subst l.
    - split; [by left|]. intros i Hi. rewrite elem_of_cons.
      split; [intros [?|?]; [lia|done]|by right].
    - split; [|done]. intros Hin.
      pose proof (jump_scan_range _ _ _ _ _ j Hrest Hin). lia. }
  specialize (IH _ _ _ Hrest). clear H Hrest.
  assert (further_than jump x0 base ↔ flag = true) as Hfar.
  { unfold further_than. rewrite Hflag. split; congruence. }
  destruct (decide (k = j)) as [->|Hkj].
  { rewrite Nat.sub_diag. simpl. destruct flag.
    - split; [intros _|done]. split; [done|]. exists x0, base.
      split; [done|]. split; [by apply Hfar|]. left. split; [|done].
      intros i ?. lia.
    - split; [done|]. intros (_ & x & b & [= <-] & Hb & [[_ ->]|(i & ? & _)]).
      + by apply Hfar in Hb.
      + lia. }
  destruct (decide (k < j)%nat) as [Hlt|Hge].
  { split; [intros Hin; specialize (Hrange Hin); lia|intros [? _]; lia]. }
  rewrite (Hl k) by lia. rewrite IH. clear IH.
  replace (k - j)%nat with (S (k - S j)) by lia. simpl.
  split.
  - intros (_ & x & b & Hx & Hb & Halt). split; [lia|].
    exists x, b. split; [done|]. split; [done|].
    destruct Halt as [[Hall ->]|(i & Hi & Hil & Hbetween & Hib)].
    + destruct flag.
      * left. split; [|done]. intros i Hi.
        destruct (decide (i = j)) as [->|]; [done|].
        apply Hl; [lia|]. apply Hall. lia.
      * right. exists j. split; [lia|]. split; [done|].
        split; [|by rewrite Nat.sub_diag].
        intros i' Hi'. apply Hl; [lia|]. apply Hall. lia.
    + right. exists i. split; [lia|]. split.
      { intros Hin. apply Hil. by apply Hl; [lia|]. }
      split.
      { intros i' Hi'. apply Hl; [lia|]. apply Hbetween. lia. }
      by replace (i - j)%nat with (S (i - S j)) by lia.
  - intros (_ & x & b & Hx & Hb & Halt). split; [lia|].
    exists x, b. split; [done|]. split; [done|].
    destruct Halt as [[Hall ->]|(i & Hi & Hil & Hbetween & Hib)].
    + destruct flag.
      * left. split; [|done]. intros i Hi. apply Hl; [lia|]. apply Hall. lia.
      * exfalso. apply Hj, Hall. lia.
    + destruct (decide (i = j)) as [->|Hij].
      * rewrite Nat.sub_diag in Hib. injection Hib as <-.
        destruct flag; [done|]. left. split; [|done].
        intros i1 Hi1. apply Hl; [lia|]. apply Hbetween. lia.
      * right. exists i. split; [lia|]. split.
        { intros Hin. apply Hil. by apply Hl; [lia|]. }
        split.
        { intros i' Hi'. apply Hl; [lia|]. apply Hbetween. lia. }
        by replace (i - j)%nat with (S (i - S j)) in Hib by lia.
Qed.

(** The jump criterion.  It never flags index 0, and it flags an index k
    exactly when the sample at k is further than [jump] from the sample at
    the last index before k that it has not flagged: a flagged sample is
    never the one the next samples are compared with. *)
Theorem jump_shots_baseline (jump : Qc) (signal : list sample) (l : list nat) :
  jump_shots jump signal = Ok l →
  (0%nat ∉ l)
  ∧ ∀ k, k ∈ l ↔
      ∃ i x b, (i < k)%nat ∧ (i ∉ l) ∧ (∀ i', (i < i' < k)%nat → i' ∈ l)
               ∧ signal !! i = Some b ∧ signal !! k = Some x
               ∧ further_than jump x b.
Proof.
  intros H. unfold jump_shots in H. destruct signal as [|s0 rest].
  { injection H as <-. split; [by intros ?%elem_of_nil|]. intros k.
    split; [by intros ?%elem_of_nil|]. by intros (i & x & b & _ & _ & _ & ? & _). }
  assert (0%nat ∉ l) as H0.
  { intros Hin. pose proof (jump_scan_range _ _ _ _ _ _ H Hin). lia. }
  split; [done|]. intros k. rewrite (jump_scan_elem _ _ _ _ _ k H). split.
  - intros (Hk & x & b & Hx & Hb & Halt).
    destruct Halt as [[Hall ->]|(i & Hi & Hil & Hbetween & Hib)].
    + exists 0%nat, x, s0. split; [lia|]. split; [done|].
      split; [intros i' ?; apply Hall; lia|]. split; [done|].
      split; [|done]. by replace k with (S (k - 1)) by lia.
    + exists i, x, b. split; [lia|]. split; [done|]. split; [done|].
      split; [by replace i with (S (i - 1)) by lia|].
      split; [|done]. by replace k with (S (k - 1)) by lia.
  - intros (i & x & b & Hik & Hil & Hbetween & Hib & Hx & Hb).
    split; [lia|]. exists x, b.
    split; [by replace k with (S (k - 1)) in Hx by lia|]. split; [done|].
    destruct i as [|i].
    + left. split; [intros i' ?; apply Hbetween; lia|]. by injection Hib.
    + right. exists (S i). split; [lia|]. split; [done|]. split; [done|].
      simpl in Hib. by replace (S i - 1)%nat with i by lia.
Qed.

Lemma jump_shots_baseline_witness :
  (0%nat ∉ [3%nat])
  ∧ ∀ k, k ∈ [3%nat] ↔
      ∃ i x b, (i < k)%nat ∧ (i ∉ [3%nat]) ∧ (∀ i', (i < i' < k)%nat → i' ∈ [3%nat])
               ∧ cascade_signal !! i = Some b ∧ cascade_signal !! k = Some x
               ∧ further_than (qz 5) x b.
Proof.
  apply (jump_shots_baseline (qz 5) cascade_signal [3%nat]).
  vm_compute; reflexivity.
Defined.
(** ** What detect_peaks confirms *)

Lemma track_inv (signal : list Qc) (idx : nat) (value : Qc) (st : peak_state) :
  signal !! idx = Some value → peak_inv signal idx st →
  peak_inv signal (S idx) (track idx value st)
  ∧ peaks (track idx value st) = peaks st
  ∧ valleys (track idx value st) = valleys st.
Proof.
  intros Hv (Hext & Hmax & Hmin & Hsp & Hsv).
  assert (∀ p v, (p, v) ∈ peaks st ++ valleys st →
                 (p < S idx)%nat ∧ ∃ q, v = Fin q ∧ signal !! p = Some q) as Hext'.
  { intros p v Hp. destruct (Hext p v Hp) as [? ?]. split; [lia|done]. }
  assert (∀ q, max_value st = Fin q →
            ∃ m, max_pos st = Some m ∧ (m < S idx)%nat ∧ signal !! m = Some q
                 ∧ ∀ p v, (p, v) ∈ peaks st → (p < m)%nat) as Hmax'.
  { intros q Hq. destruct (Hmax q Hq) as (m & ? & ? & ? & ?).
    exists m. repeat split; try done. lia. }
  assert (∀ q, min_value st = Fin q →
            ∃ m, min_pos st = Some m ∧ (m < S idx)%nat ∧ signal !! m = Some q
                 ∧ ∀ p v, (p, v) ∈ valleys st → (p < m)%nat) as Hmin'.
  { intros q Hq. destruct (Hmin q Hq) as (m & ? & ? & ? & ?).
    exists m. repeat split; try done. lia. }
  assert (∀ q, Fin value = Fin q →
            ∃ m, Some idx = Some m ∧ (m < S idx)%nat ∧ signal !! m = Some q
                 ∧ ∀ p v, (p, v) ∈ peaks st → (p < m)%nat) as Hnewmax.
  { intros q [= <-]. exists idx. repeat split; [lia|done|].
    intros p v Hp. apply (Hext p v), elem_of_app. by left. }
  assert (∀ q, Fin value = Fin q →
            ∃ m, Some idx = Some m ∧ (m < S idx)%nat ∧ signal !! m = Some q
                 ∧ ∀ p v, (p, v) ∈ valleys st → (p < m)%nat) as Hnewmin.
  { intros q [= <-]. exists idx. repeat split; [lia|done|].
    intros p v Hp. apply (Hext p v), elem_of_app. by right. }
  unfold track.
  destruct (ext_ltb (max_value st) (Fin value));
    cbn [max_value max_pos min_value min_pos peaks valleys];
    destruct (ext_ltb (Fin value) (min_value st));
    cbn [max_value max_pos min_value min_pos peaks valleys];
    (split; [|done]);
    (split; [exact Hext'|]);
    (split; [first [exact Hmax'|exact Hnewmax]|]);
    (split; [first [exact Hmin'|exact Hnewmin]|]);
    (split; [exact Hsp|exact Hsv]).
Qed.

Lemma sorted_snoc (l : list nat) (m : nat) :
  StronglySorted (<)%nat l → (∀ p, p ∈ l → (p < m)%nat) →
  StronglySorted (<)%nat (l ++ [m]).
Proof.
  intros Hl Hm. apply StronglySorted_app. split; [|split; [done|]].
  - intros x1 x2 Hx1 ->%list_elem_of_singleton. by apply Hm.
  - repeat constructor.
Qed.

Lemma peak_step_inv (signal : list Qc) (lookahead : Z) (delta : Qc)
    (idx : nat) (value : Qc) (st st' : peak_state) (f : flow) :
  signal !! idx = Some value → peak_inv signal idx st →
  peak_step signal lookahead delta idx value st = Ok (f, st') →
  peak_inv signal (S idx) st'.
Proof.
  intros Hv Hinv H. unfold peak_step in H.
  destruct (track_inv signal idx value st Hv Hinv)
    as ((Hext & Hmax & Hmin & Hsp & Hsv) & _ & _).
  set (st1 := track idx value st) in *. ok_inv H.
  destruct x as [[f1 st2]|].
  - injection H as -> ->. unfold confirm_peak in Hx.
    destruct (ext_ltb (Fin value) (ext_sub (max_value st1) delta)
              && negb (ext_eqb (max_value st1) PosInf)) eqn:Hc; [|done].
    ok_inv Hx. destruct (ext_ltb (Fin x) (max_value st1)); [|done]. ok_inv Hx.
    destruct (max_value st1) as [|q|] eqn:Hq; simpl in Hc; [done| |done].
    destruct (Hmax q eq_refl) as (m & Hm & Hlt & Hsig & Hbefore).
    rewrite Hm in Hx1. injection Hx1 as <-.
    assert (st' = PeakState PosInf (Some m) PosInf (min_pos st1)
                            (peaks st1 ++ [(m, Fin q)]) (valleys st1)) as ->.
    { rewrite <- Hm. destruct (decide (Z.of_nat idx + lookahead >= size signal));
        congruence. }
    split; [|split; [|split; [|split]]]; simpl; [|done|done| |done].
    + intros p v. rewrite !elem_of_app, list_elem_of_singleton.
      intros [[Hp|[= -> ->]]|Hp].
      * apply Hext, elem_of_app. by left.
      * split; [done|]. by exists q.
      * apply Hext, elem_of_app. by right.
    + rewrite fmap_app. apply sorted_snoc; [done|].
      intros p ((p' & v) & -> & Hp)%list_elem_of_fmap. by eapply Hbefore.
  - unfold confirm_valley in H.
    destruct (ext_ltb (ext_add (min_value st1) delta) (Fin value)
              && negb (ext_eqb (min_value st1) NegInf)) eqn:Hc;
      [|by injection H as <- <-].
    apply bind_Ok in H as (lo & _ & H).
    destruct (ext_ltb (min_value st1) (Fin lo));
      [|by injection H as <- <-].
    apply bind_Ok in H as (pos & Hpos & H).
    destruct (min_value st1) as [|q|] eqn:Hq; simpl in Hc; [done| |done].
    destruct (Hmin q eq_refl) as (m & Hm & Hlt & Hsig & Hbefore).
    rewrite Hm in Hpos. injection Hpos as <-.
    assert (st' = PeakState NegInf (max_pos st1) NegInf (Some m)
                            (peaks st1) (valleys st1 ++ [(m, Fin q)])) as ->.
    { rewrite <- Hm. destruct (decide (Z.of_nat idx + lookahead >= size signal));
        congruence. }
    split; [|split; [|split; [|split]]]; simpl; [|done|done|done|].
    + intros p v. rewrite (assoc_L (++)), elem_of_app, list_elem_of_singleton.
      intros [Hp|[= -> ->]].
      * by apply Hext.
      * split; [done|]. by exists q.
    + rewrite fmap_app. apply sorted_snoc; [done|].
      intros p ((p' & v) & -> & Hp)%list_elem_of_fmap. by eapply Hbefore.
Qed.

Lemma peak_loop_inv (signal : list Qc) (lookahead : Z) (delta : Qc)
    (idx : nat) (samples : list Qc) (st st' : peak_state) :
  (∀ j x, samples !! j = Some x → signal !! (idx + j)%nat = Some x) →
  peak_inv signal idx st →
  peak_loop signal lookahead delta (enumerate_from idx samples) st = Ok st' →
  ∃ idx', peak_inv signal idx' st'.
Proof.
  revert idx st. induction samples as [|x samples IH]; intros idx st Hs Hinv H.
  { injection H as <-. by exists idx. }
  simpl in H. ok_inv H. destruct x0 as [f st1].
  assert (peak_inv signal (S idx) st1) as Hinv1.
  { eapply peak_step_inv; [|done|done].
    specialize (Hs 0%nat x eq_refl). by rewrite Nat.add_0_r in Hs. }
  destruct f.
  - eapply (IH (S idx)); [|done|done].
    intros j y Hj. specialize (Hs (S j) y Hj).
    by replace (S idx + j)%nat with (idx + S j)%nat by lia.
  - injection H as <-. by exists (S idx).
Qed.

Lemma slice_prefix_lookup {A} (l : list A) (stop : Z) (j : nat) (x : A) :
  slice l 0 stop !! j = Some x → l !! j = Some x.
Proof.
  unfold slice. replace (slice_bound (Z.of_nat (length l)) 0) with 0.
  - simpl. intros [? _]%lookup_take_Some. done.
  - unfold slice_bound. destruct (decide (0 < 0)); lia.
Qed.

(** Every peak and every valley [detect_peaks] returns is a sample of the
    signal paired with its own index, and each of the two lists is in
    strictly increasing order of the indexes. *)
Theorem detect_peaks_samples (signal : list Qc) (lookahead : Z) (delta : Qc)
    (pks vls : list (nat * ext)) :
  detect_peaks signal lookahead delta = Ok (pks, vls) →
  (∀ p v, (p, v) ∈ pks ++ vls → ∃ q, v = Fin q ∧ signal !! p = Some q)
  ∧ StronglySorted (<)%nat pks.*1
  ∧ StronglySorted (<)%nat vls.*1.
Proof.
  intros H. unfold detect_peaks in H. ok_inv H. injection H as <- <-.
  apply (peak_loop_inv signal lookahead delta 0) in Hx
    as (idx & Hext & _ & _ & Hsp & Hsv).
  - split; [|done]. intros p v Hp. by apply Hext in Hp as [_ ?].
  - intros j y Hj. by apply slice_prefix_lookup in Hj.
  - split; [|split; [|split; [|split]]]; simpl;
      [by intros p v ?%elem_of_nil|done|done|constructor|constructor].
Qed.

Lemma detect_peaks_samples_witness :
  (∀ p v, (p, v) ∈ [(3%nat, Fin (qz 3))] ++ [(0%nat, Fin (qz 0)); (8%nat, Fin (qz (-2)))] →
          ∃ q, v = Fin q ∧ confirmation_signal !! p = Some q)
  ∧ StronglySorted (<)%nat [(3%nat, Fin (qz 3))].*1
  ∧ StronglySorted (<)%nat [(0%nat, Fin (qz 0)); (8%nat, Fin (qz (-2)))].*1.
Proof.
  apply (detect_peaks_samples confirmation_signal 3 (qz 0)).
  vm_compute; reflexivity.
Defined.

Lemma ext_PosInf_cases (x : ext) : x = PosInf ∨ x ≠ PosInf.
Proof. destruct x; [by right|by right|by left]. Qed.

Lemma ext_NegInf_cases (x : ext) : x = NegInf ∨ x ≠ NegInf.
Proof. destruct x; [by left|by right|by right]. Qed.

Lemma track_sentinels (idx : nat) (value : Qc) (st : peak_state) :
  (max_value (track idx value st) = PosInf ↔ max_value st = PosInf)
  ∧ (min_value (track idx value st) = NegInf ↔ min_value st = NegInf)
  ∧ peaks (track idx value st) = peaks st
  ∧ valleys (track idx value st) = valleys st.
Proof.
  unfold track.
  destruct (ext_ltb (max_value st) (Fin value)) eqn:E1;
    cbn [max_value max_pos min_value min_pos peaks valleys];
    destruct (ext_ltb (Fin value) (min_value st)) eqn:E2;
    cbn [max_value max_pos min_value min_pos peaks valleys];
    destruct (max_value st), (min_value st); simpl in E1, E2;
    repeat split; congruence.
Qed.

Lemma track_turns (idx : nat) (value : Qc) (st : peak_state) :
  peak_turns st → peak_turns (track idx value st).
Proof.
  destruct (track_sentinels idx value st) as (Hmax & Hmin & Hp & Hv).
  unfold peak_turns. rewrite Hmax, Hmin, Hp, Hv. done.
Qed.

Lemma peak_step_turns (signal : list Qc) (lookahead : Z) (delta : Qc)
    (idx : nat) (value : Qc) (st st' : peak_state) (f : flow) :
  peak_turns st →
  peak_step signal lookahead delta idx value st = Ok (f, st') →
  peak_turns st'.
Proof.
  intros Hturns H. unfold peak_step in H.
  apply (track_turns idx value) in Hturns.
  set (st1 := track idx value st) in *. ok_inv H.
  destruct Hturns as (H1 & H2 & H3).
  destruct x as [[f1 st2]|].
  - injection H as -> ->. unfold confirm_peak in Hx.
    destruct (ext_ltb (Fin value) (ext_sub (max_value st1) delta)
              && negb (ext_eqb (max_value st1) PosInf)) eqn:Hc; [|done].
    apply bind_Ok in Hx as (hi & _ & Hx).
    destruct (ext_ltb (Fin hi) (max_value st1)); [|done].
    apply bind_Ok in Hx as (pos & _ & Hx).
    assert (max_value st1 ≠ PosInf) as Hmax.
    { intros E. rewrite E in Hc. simpl in Hc. congruence. }
    assert (st' = PeakState PosInf (max_pos st1) PosInf (min_pos st1)
                            (peaks st1 ++ [(pos, max_value st1)]) (valleys st1)) as ->.
    { destruct (decide (Z.of_nat idx + lookahead >= size signal)); congruence. }
    unfold peak_turns; simpl. rewrite length_app. simpl.
    split; [|split]; [|done|done]. intros _. split; [done|].
    destruct (ext_NegInf_cases (min_value st1)) as [E|E].
    + destruct (H2 E) as [_ ?]. lia.
    + destruct (H3 Hmax E). lia.
  - unfold confirm_valley in H.
    destruct (ext_ltb (ext_add (min_value st1) delta) (Fin value)
              && negb (ext_eqb (min_value st1) NegInf)) eqn:Hc;
      [|by injection H as <- <-].
    apply bind_Ok in H as (lo & _ & H).
    destruct (ext_ltb (min_value st1) (Fin lo));
      [|by injection H as <- <-].
    apply bind_Ok in H as (pos & _ & H).
    assert (min_value st1 ≠ NegInf) as Hmin.
    { intros E. rewrite E in Hc. simpl in Hc. congruence. }
    assert (st' = PeakState NegInf (max_pos st1) NegInf (min_pos st1)
                            (peaks st1) (valleys st1 ++ [(pos, min_value st1)])) as ->.
    { destruct (decide (Z.of_nat idx + lookahead >= size signal)); congruence. }
    unfold peak_turns; simpl. rewrite length_app. simpl.
    split; [|split]; [done| |done]. intros _. split; [done|].
    destruct (ext_PosInf_cases (max_value st1)) as [E|E].
    + destruct (H1 E) as [_ ?]. lia.
    + destruct (H3 E Hmin). lia.
Qed.

Lemma peak_loop_turns (signal : list Qc) (lookahead : Z) (delta : Qc)
    (items : list (nat * Qc)) (st st' : peak_state) :
  peak_turns st →
  peak_loop signal lookahead delta items st = Ok st' →
  peak_turns st'.
Proof.
  revert st. induction items as [|[idx value] items IH]; intros st Hturns H.
  { by injection H as <-. }
  simpl in H. ok_inv H. destruct x as [f st1].
  pose proof (peak_step_turns _ _ _ _ _ _ _ _ Hturns Hx) as Hturns1.
  destruct f; [by eapply IH|by injection H as <-].
Qed.

(** Peaks and valleys are confirmed in turn, so that their numbers differ
    by one at most. *)
Theorem detect_peaks_alternate (signal : list Qc) (lookahead : Z) (delta : Qc)
    (pks vls : list (nat * ext)) :
  detect_peaks signal lookahead delta = Ok (pks, vls) →
  -1 ≤ Z.of_nat (length pks) - Z.of_nat (length vls) ≤ 1.
Proof.
  intros H. unfold detect_peaks in H. ok_inv H. injection H as <- <-.
  apply peak_loop_turns in Hx as (H1 & H2 & H3).
  - destruct (ext_PosInf_cases (max_value x)) as [E|E]; [destruct (H1 E); lia|].
    destruct (ext_NegInf_cases (min_value x)) as [E'|E']; [destruct (H2 E'); lia|].
    destruct (H3 E E'). lia.
  - unfold peak_turns, peak_init. simpl. repeat split; done.
Qed.

Lemma detect_peaks_alternate_witness :
  -1 ≤ Z.of_nat (length [(3%nat, Fin (qz 3))])
       - Z.of_nat (length [(0%nat, Fin (qz 0)); (8%nat, Fin (qz (-2)))]) ≤ 1.
Proof.
  apply (detect_peaks_alternate confirmation_signal 3 (qz 0)).
  vm_compute; reflexivity.
Defined.

(** ** detect_onsets *)

Lemma range_elem (n : Z) (i : nat) : i ∈ range n ↔ Z.of_nat i < n.
Proof. unfold range, range_from. rewrite elem_of_seq. lia. Qed.

Lemma onsets_loop_spec (signal : list sample) (onsets indexes : list nat) :
  (∀ i, i ∈ indexes → (S i < length signal)%nat) →
  StronglySorted lt indexes →
  match onsets_loop signal onsets indexes with
  | Ok r => ∃ r', r = onsets ++ r' ∧ StronglySorted lt r'
            ∧ (∀ i, i ∈ r' ↔ i ∈ indexes ∧ onset_at signal i)
            ∧ (∀ i, i ∈ indexes → ¬ zero_before_none signal i)
  | Raise e => e = TypeError ∧ ∃ i, i ∈ indexes ∧ zero_before_none signal i
  end.
Proof.
  revert onsets. induction indexes as [|i indexes IH]; intros onsets Hin Hs.
  { simpl. exists []. rewrite app_nil_r. split; [done|]. split; [constructor|].
    split; [|by intros i ?%elem_of_nil]. intros i. rewrite elem_of_nil. tauto. }
  apply StronglySorted_inv in Hs as [Hs Hi].
  assert (Hin' : ∀ k, k ∈ indexes → (S k < length signal)%nat).
  { intros k Hk. apply Hin. by right. }
  assert (Hlt : (S i < length signal)%nat) by (apply Hin; left).
  destruct (lookup_lt_is_Some_2 signal i) as [x Hx]; [lia|].
  destruct (lookup_lt_is_Some_2 signal (S i)) as [y Hy]; [lia|].
  (* the iteration that appends nothing *)
  assert (Hskip : ¬ onset_at signal i → ¬ zero_before_none signal i →
    match onsets_loop signal onsets indexes with
    | Ok r => ∃ r', r = onsets ++ r' ∧ StronglySorted lt r'
            ∧ (∀ k, k ∈ r' ↔ k ∈ i :: indexes ∧ onset_at signal k)
            ∧ (∀ k, k ∈ i :: indexes → ¬ zero_before_none signal k)
    | Raise e => e = TypeError ∧ ∃ k, k ∈ i :: indexes ∧ zero_before_none signal k
    end).
  { intros Hno Hnb. specialize (IH onsets Hin' Hs).
    destruct (onsets_loop signal onsets indexes) as [r|e].
    - destruct IH as (r' & -> & Hr' & Hiff & Hbad). exists r'.
      split; [done|]. split; [done|]. split.
      + intros k. rewrite Hiff, elem_of_cons. split; [tauto|].
        intros [[-> | ?] ?]; tauto.
      + intros k [-> | ?]%elem_of_cons; auto.
    - destruct IH as (-> & k & Hk & Hb). split; [done|]. exists k.
      split; [by right|done]. }
  cbn [onsets_loop]. rewrite getitem_nat, Hx, Ok_bind.
  replace (Z.of_nat i + 1) with (Z.of_nat (S i)) by lia.
  rewrite getitem_nat, Hy.
  destruct x as [| |a]; cbn [sample_is_zero]; rewrite ?Ok_bind.
  - apply Hskip; intros [? _]; congruence.
  - apply Hskip; intros [? _]; congruence.
  - destruct (Qc_eqb a 0) eqn:Ha; rewrite ?Ok_bind.
    2:{ apply Hskip; intros [? _]; assert (a = 0%Qc) as -> by congruence;
        by vm_compute in Ha. }
    apply Qc_eqb_eq in Ha as ->.
    destruct y as [| |b]; cbn [sample_gt]; rewrite ?Ok_bind.
    + cbn. split; [done|]. exists i. split; [left|done].
    + apply Hskip; [intros [_ (? & ? & _)]|intros [_ ?]]; congruence.
    + destruct (Qc_ltb 0 b) eqn:Hb.
      2:{ apply Hskip; [intros [_ (b' & ? & Hlt')]|intros [_ ?]]; [|congruence].
          assert (b' = b) as -> by congruence.
          apply Qc_ltb_lt in Hlt'. congruence. }
      apply Qc_ltb_lt in Hb.
      specialize (IH (onsets ++ [i]) Hin' Hs).
      destruct (onsets_loop signal (onsets ++ [i]) indexes) as [r|e].
      * destruct IH as (r' & -> & Hr' & Hiff & Hbad). exists (i :: r').
        split; [by rewrite <- app_assoc|]. split.
        { constructor; [done|]. apply Forall_forall. intros k Hk%Hiff.
          rewrite Forall_forall in Hi. apply Hi. tauto. }
        split.
        { intros k. rewrite !elem_of_cons, Hiff. split.
          - intros [-> | [? ?]]; [|tauto]. split; [by left|].
            split; [done|]. by exists b.
          - intros [[-> | ?] ?]; tauto. }
        intros k [-> | ?]%elem_of_cons; [|auto]. intros [_ ?]. congruence.
      * destruct IH as (-> & k & Hk & Hbk). split; [done|]. exists k.
        split; [by right|done].
Qed.

(** The onsets.  When [detect_onsets] returns, its indexes are in
    increasing order, and they are exactly the indexes of a sample equal to
    zero that is followed by a positive sample; so no two of them are
    neighbours. *)
Theorem detect_onsets_zero_then_positive (signal : list sample) (onsets : list nat) :
  detect_onsets signal = Ok onsets →
  StronglySorted lt onsets
  ∧ (∀ i, i ∈ onsets ↔ onset_at signal i)
  ∧ (∀ i, i ∈ onsets → S i ∉ onsets).
Proof.
  intros H. unfold detect_onsets in H.
  pose proof (onsets_loop_spec signal [] (range (len signal - 1))) as Hspec.
  rewrite H in Hspec.
  destruct Hspec as (r' & -> & Hs & Hiff & _).
  { intros i Hi%range_elem. unfold len in Hi. lia. }
  { apply seq_strict_sorted. }
  assert (Hall : ∀ i, i ∈ r' ↔ onset_at signal i).
  { intros i. rewrite Hiff. split; [tauto|]. intros Ho. split; [|done].
    apply range_elem. destruct Ho as [_ (y & Hy%lookup_lt_Some & _)].
    unfold len. lia. }
  split; [done|]. split; [done|].
  intros i [_ (y & Hy & Hpos)]%Hall [Hz _]%Hall.
  rewrite Hy in Hz. injection Hz as ->. by apply Qclt_not_eq in Hpos.
Qed.

Lemma detect_onsets_zero_then_positive_witness :
  let signal := [Num 0%Qc; Num (Qc_of_int 5); PyNone; Num 0%Qc; Num 0%Qc; Num (Qc_of_int 3)] in
  StronglySorted lt [0%nat; 4%nat]
  ∧ (∀ i, i ∈ [0%nat; 4%nat] ↔ onset_at signal i)
  ∧ (∀ i, i ∈ [0%nat; 4%nat] → S i ∉ [0%nat; 4%nat]).
Proof.
  apply (detect_onsets_zero_then_positive
           [Num 0%Qc; Num (Qc_of_int 5); PyNone; Num 0%Qc; Num 0%Qc; Num (Qc_of_int 3)]).
  vm_compute. reflexivity.
Defined.

(** Missing samples.  [detect_onsets] raises nothing but [TypeError], and
    it raises it exactly when some sample equal to zero is followed by
    [None]: a [None] anywhere else is passed over. *)
Theorem detect_onsets_none_after_zero (signal : list sample) :
  ((∃ onsets, detect_onsets signal = Ok onsets) ∨ detect_onsets signal = Raise TypeError)
  ∧ (detect_onsets signal = Raise TypeError ↔ ∃ i, zero_before_none signal i).
Proof.
  unfold detect_onsets.
  pose proof (onsets_loop_spec signal [] (range (len signal - 1))) as Hspec.
  destruct (onsets_loop signal [] (range (len signal - 1))) as [r|e].
  - destruct Hspec as (r' & _ & _ & _ & Hbad).
    { intros i Hi%range_elem. unfold len in Hi. lia. }
    { apply seq_strict_sorted. }
    split; [left; by exists r|]. split; [done|].
    intros [i Hi]. exfalso. apply (Hbad i); [|done].
    apply range_elem. destruct Hi as [_ Hy%lookup_lt_Some]. unfold len. lia.
  - destruct Hspec as (-> & i & _ & Hi).
    { intros i Hi%range_elem. unfold len in Hi. lia. }
    { apply seq_strict_sorted. }
    split; [by right|]. split; [|done]. intros _. by exists i.
Qed.

(** ** upsample *)

Lemma setitem_nat_in_range {A} (l : list A) (i : nat) (x : A) :
  (i < length l)%nat → setitem l (Z.of_nat i) x = Ok (<[i:=x]> l).
Proof. intros. by apply setitem_nat_Ok. Qed.

Lemma upsample_fill_spec (res : list sample) (i F : nat) (v d : sample)
    (val : nat → sample) (j0 m : nat) :
  (∀ j, upsample_value v d (Z.of_nat F) j = Ok (val j)) →
  (i * F + j0 + m ≤ length res)%nat →
  ∃ res', upsample_fill res i (Z.of_nat F) v d (seq j0 m) = Ok res'
    ∧ length res' = length res
    ∧ (∀ j, (j0 ≤ j < j0 + m)%nat → res' !! (i * F + j)%nat = Some (val j))
    ∧ (∀ p, ¬ (i * F + j0 ≤ p < i * F + j0 + m)%nat → res' !! p = res !! p).
Proof.
  intros Hval. revert j0 res. induction m as [|m IH]; intros j0 res Hlen.
  { exists res. split; [done|]. split; [done|]. split; [lia|done]. }
  cbn [seq upsample_fill]. cbv zeta. rewrite Hval, Ok_bind.
  replace (Z.of_nat i * Z.of_nat F + Z.of_nat j0) with (Z.of_nat (i * F + j0)) by lia.
  rewrite setitem_nat_in_range, Ok_bind by lia.
  destruct (IH (S j0) (<[(i * F + j0)%nat:=val j0]> res)) as (res' & Hres' & Hl & Hv & Hframe).
  { rewrite length_insert. lia. }
  exists res'. split; [done|]. split; [by rewrite Hl, length_insert|]. split.
  - intros j Hj. destruct (decide (j = j0)) as [->|Hne].
    + rewrite Hframe by lia. apply list_lookup_insert_eq. lia.
    + apply Hv. lia.
  - intros p Hp. rewrite Hframe by lia. apply list_lookup_insert_ne. lia.
Qed.

Lemma sample_add_total (x y : sample) :
  x ≠ PyNone → y ≠ PyNone → ∃ z, sample_add x y = Ok z ∧ z ≠ PyNone.
Proof. destruct x, y; try done; cbn; eauto. Qed.

Lemma upsample_value_total (v d : sample) (F : nat) :
  (0 < F)%nat → v ≠ PyNone → d ≠ PyNone →
  ∃ val, ∀ j, upsample_value v d (Z.of_nat F) j = Ok (val j).
Proof.
  intros HF Hv Hd. unfold upsample_value, sample_div_int.
  destruct (decide (Z.of_nat F = 0)) as [|_]; [lia|].
  destruct v as [| |a], d as [| |b]; try done; cbn.
  - by exists (λ _, NaN).
  - by exists (λ _, NaN).
  - by exists (λ _, NaN).
  - by exists (λ j, Num (a + b / Qc_of_int (Z.of_nat F) * Qc_of_int (Z.of_nat j))%Qc).
Qed.

Lemma upsample_value_num (a b : Qc) (F j : nat) :
  (0 < F)%nat →
  upsample_value (Num a) (Num b) (Z.of_nat F) j
  = Ok (Num (a + b / Qc_of_int (Z.of_nat F) * Qc_of_int (Z.of_nat j))%Qc).
Proof.
  intros HF. unfold upsample_value, sample_div_int.
  destruct (decide (Z.of_nat F = 0)) as [|_]; [lia|]. done.
Qed.

Lemma range_seq (F : nat) : range (Z.of_nat F) = seq 0 F.
Proof. unfold range, range_from. f_equal. lia. Qed.

Lemma setitem_last {A} (l : list A) (x : A) :
  l ≠ [] → setitem l (-1) x = Ok (<[(length l - 1)%nat:=x]> l).
Proof.
  intros Hl. assert (0 < length l)%nat by (destruct l; [done|simpl; lia]).
  unfold setitem. cbv zeta.
  destruct (decide (-1 < 0)) as [_|]; [|lia].
  destruct (decide (0 ≤ -1 + Z.of_nat (length l) < Z.of_nat (length l))); [|lia].
  do 2 f_equal. lia.
Qed.

Lemma sample_sub_total (x y : sample) :
  x ≠ PyNone → y ≠ PyNone → ∃ z, sample_sub x y = Ok z ∧ z ≠ PyNone.
Proof. destruct x, y; try done; cbn; eauto. Qed.

Lemma drop_cons_lookup {A} (l l' : list A) (k : nat) (x : A) :
  drop k l = x :: l' → l !! k = Some x ∧ drop (S k) l = l'.
Proof.
  intros H. split.
  - rewrite <- (Nat.add_0_r k), <- lookup_drop, H. done.
  - replace (S k) with (k + 1)%nat by lia. rewrite <- (drop_drop l 1 k), H. done.
Qed.

Section UpsampleLoop.
Variables (signal : list sample) (F : nat).
Hypothesis (HF : (2 ≤ F)%nat).
Hypothesis (Hn : (2 ≤ length signal)%nat).

Let L : nat := ((length signal - 1) * F)%nat.

Lemma upsample_loop_spec (res : list sample) (k : nat) (l : list sample) :
  Forall (λ x, x ≠ PyNone) signal →
  length res = L → drop k signal = l → l ≠ [] →
  ∃ out, upsample_loop signal res (Z.of_nat F) (enumerate_from k l) = Ok out
    ∧ length out = L
    ∧ (∀ i j v v_ x, (k ≤ i)%nat → signal !! i = Some v → signal !! S i = Some v_ →
         (j < F)%nat → (i * F + j)%nat ≠ (L - 1)%nat →
         (d ← sample_sub v_ v; upsample_value v d (Z.of_nat F) j) = Ok x →
         out !! (i * F + j)%nat = Some x)
    ∧ (∀ p, (p < k * F)%nat → p ≠ (L - 1)%nat → out !! p = res !! p)
    ∧ out !! (L - 1)%nat = signal !! (length signal - 1)%nat.
Proof.
  intros Hnone. revert k res. induction l as [|v l' IH]; intros k res Hres Hdrop Hl; [done|]. clear Hl.
  apply drop_cons_lookup in Hdrop as [Hv Hdrop].
  pose proof (lookup_lt_Some _ _ _ Hv) as Hk.
  assert (HL : (0 < L)%nat) by (unfold L; nia).
  cbn [enumerate_from upsample_loop]. unfold len.
  destruct (decide (Z.of_nat k = Z.of_nat (length signal) - 1)) as [Hlast|Hnl].
  - assert (k = (length signal - 1)%nat) as -> by lia.
    rewrite setitem_last by (intros ->; simpl in Hres; lia).
    eexists. split; [done|]. rewrite length_insert, Hres.
    split; [done|]. split; [|split].
    + intros i j ? v_ ? Hi _ Hv_%lookup_lt_Some. lia.
    + intros p _ Hp. by apply list_lookup_insert_ne.
    + rewrite Hv. apply list_lookup_insert_eq. lia.
  - destruct l' as [|v_ l''].
    { exfalso. apply (f_equal length) in Hdrop. rewrite length_drop in Hdrop.
      simpl in Hdrop. lia. }
    pose proof Hdrop as [Hv_ _]%drop_cons_lookup.
    replace (Z.of_nat k + 1) with (Z.of_nat (S k)) by lia.
    rewrite getitem_nat, Hv_, Ok_bind.
    rewrite Forall_forall in Hnone.
    assert (v ≠ PyNone) as Hvn by (apply Hnone; by eapply list_elem_of_lookup_2).
    assert (v_ ≠ PyNone) as Hv_n by (apply Hnone; by eapply list_elem_of_lookup_2).
    destruct (sample_sub_total v_ v Hv_n Hvn) as (d & Hd & Hdn).
    rewrite Hd, Ok_bind.
    destruct (upsample_value_total v d F) as [val Hval]; [lia|done|done|].
    pose proof (lookup_lt_Some _ _ _ Hv_) as Hk'.
    destruct (upsample_fill_spec res k F v d val 0 F Hval)
      as (res1 & Hfill & Hl1 & Hvals & Hframe).
    { rewrite Hres. unfold L. nia. }
    rewrite range_seq, Hfill, Ok_bind.
    destruct (IH (S k) res1) as (out & Hout & Hlo & Hint & Hfr & Hlst);
      [by rewrite Hl1|done|done|].
    exists out. split; [done|]. split; [done|]. split; [|split; [|done]].
    + intros i j w w_ x Hi Hw Hw_ Hj Hne Hx.
      destruct (decide (i = k)) as [->|Hik].
      * rewrite Hfr by nia. rewrite Hvals by lia.
        assert (w = v) as -> by congruence. assert (w_ = v_) as -> by congruence.
        rewrite Hd, Ok_bind, Hval in Hx. congruence.
      * apply (Hint i j w w_ x); [lia|done..].
    + intros p Hp Hne. rewrite Hfr by nia. apply Hframe. lia.
Qed.

Lemma upsample_loop_none (res : list sample) (k : nat) (l : list sample) :
  length res = L → drop k signal = l → (S k < length signal)%nat → PyNone ∈ l →
  upsample_loop signal res (Z.of_nat F) (enumerate_from k l) = Raise TypeError.
Proof.
  revert k res. induction l as [|v l' IH]; intros k res Hres Hdrop Hk Hin.
  { by apply elem_of_nil in Hin. }
  apply drop_cons_lookup in Hdrop as [Hv Hdrop].
  cbn [enumerate_from upsample_loop]. unfold len.
  destruct (decide (Z.of_nat k = Z.of_nat (length signal) - 1)) as [|_]; [lia|].
  destruct l' as [|v_ l''].
  { exfalso. apply (f_equal length) in Hdrop. rewrite length_drop in Hdrop.
    simpl in Hdrop. lia. }
  pose proof Hdrop as [Hv_ Hdrop']%drop_cons_lookup.
  replace (Z.of_nat k + 1) with (Z.of_nat (S k)) by lia.
  rewrite getitem_nat, Hv_, Ok_bind.
  destruct v as [| |a]; [by destruct v_| |];
    (destruct v_ as [| |b]; [done| |]).
  all: cbn [sample_sub]; rewrite Ok_bind.
  all: match goal with
       | |- context [upsample_fill ?r ?i _ ?v ?d _] =>
           destruct (upsample_value_total v d F) as [val Hval]; [lia|done|done|];
           destruct (upsample_fill_spec r i F v d val 0 F Hval)
             as (res1 & Hfill & Hl1 & _); [rewrite Hres; unfold L; nia|];
           rewrite range_seq, Hfill, Ok_bind
       end.
  all: apply elem_of_cons in Hin as [?|Hin]; [done|];
       apply elem_of_cons in Hin as [?|Hin]; [done|].
  all: apply IH; [by rewrite Hl1|done| |by right].
  all: destruct l''; [by apply elem_of_nil in Hin|];
       apply (f_equal length) in Hdrop'; rewrite length_drop in Hdrop';
       simpl in Hdrop'; lia.
Qed.

End UpsampleLoop.

(** What [upsample] returns.  For a factor above 1 and a signal of two
    numbers or more, [upsample] returns [(len(signal) - 1) * factor]
    samples: every sample but the last is followed by [factor - 1] values on
    the line to the next sample, except that the very last value is not
    the one on the line but the last sample of the signal itself. *)
Theorem upsample_interpolates (qs : list Qc) (factor : Z) :
  factor > 1 → (2 ≤ length qs)%nat →
  ∃ out, upsample (Num <$> qs) factor = Checked (Ok out)
    ∧ length out = ((length qs - 1) * Z.to_nat factor)%nat
    ∧ (∀ i j a b, qs !! i = Some a → qs !! S i = Some b →
         (j < Z.to_nat factor)%nat →
         (i * Z.to_nat factor + j)%nat ≠ (length out - 1)%nat →
         out !! (i * Z.to_nat factor + j)%nat
         = Some (Num (a + (b - a) / Qc_of_int factor * Qc_of_int (Z.of_nat j))%Qc))
    ∧ last out = Num <$> last qs.
Proof.
  intros Hf Hn. unfold upsample.
  destruct (decide (factor > 1)) as [_|]; [|done].
  assert (∃ F, factor = Z.of_nat F ∧ (2 ≤ F)%nat) as (F & -> & HF)
    by (exists (Z.to_nat factor); lia).
  rewrite Nat2Z.id. set (signal := Num <$> qs).
  assert (Hlen : length signal = length qs) by apply length_fmap.
  destruct (upsample_loop_spec signal F ltac:(lia) ltac:(lia)
              (replicate (Z.to_nat ((len signal - 1) * Z.of_nat F)) PyNone) 0 signal)
    as (out & Hout & Hlo & Hint & _ & Hlast).
  { apply Forall_forall. intros x (q & -> & _)%list_elem_of_fmap. done. }
  { rewrite length_replicate. unfold len. nia. }
  { done. }
  { intros Hs. rewrite Hs in Hlen. simpl in Hlen. lia. }
  exists out. unfold enumerate. rewrite Hout. split; [done|].
  rewrite Hlo, Hlen. split; [done|]. split.
  - intros i j a b Ha Hb Hj Hne.
    apply (Hint i j (Num a) (Num b)); [lia| | |done|by rewrite Hlen|].
    + unfold signal. by rewrite list_lookup_fmap, Ha.
    + unfold signal. by rewrite list_lookup_fmap, Hb.
    + cbn [sample_sub]. rewrite Ok_bind. apply upsample_value_num. lia.
  - rewrite !last_lookup, Hlo, Hlen.
    replace (Init.Nat.pred ((length qs - 1) * F)) with ((length qs - 1) * F - 1)%nat by lia.
    rewrite <- Hlen at 1. rewrite Hlast. unfold signal.
    rewrite list_lookup_fmap, length_fmap. do 2 f_equal. lia.
Qed.

Lemma upsample_interpolates_witness :
  ∃ out, upsample (Num <$> [0%Qc; 1%Qc; 0%Qc]) 2 = Checked (Ok out)
    ∧ length out = 4%nat
    ∧ (∀ i j a b, [0%Qc; 1%Qc; 0%Qc] !! i = Some a → [0%Qc; 1%Qc; 0%Qc] !! S i = Some b →
         (j < 2)%nat → (i * 2 + j)%nat ≠ (length out - 1)%nat →
         out !! (i * 2 + j)%nat
         = Some (Num (a + (b - a) / Qc_of_int 2 * Qc_of_int (Z.of_nat j))%Qc))
    ∧ last out = Num <$> Some 0%Qc.
Proof.
  apply (upsample_interpolates [0%Qc; 1%Qc; 0%Qc] 2); [lia|simpl; lia].
Defined.

(** Missing samples.  [upsample] takes no [None]: on a signal of two
    samples or more that holds one, it raises [TypeError]. *)
Theorem upsample_none (signal : list sample) (factor : Z) :
  factor > 1 → (2 ≤ length signal)%nat → PyNone ∈ signal →
  upsample signal factor = Checked (Raise TypeError).
Proof.
  intros Hf Hn Hin. unfold upsample.
  destruct (decide (factor > 1)) as [_|]; [|done].
  assert (∃ F, factor = Z.of_nat F ∧ (2 ≤ F)%nat) as (F & -> & HF)
    by (exists (Z.to_nat factor); lia).
  f_equal. unfold enumerate.
  apply (upsample_loop_none signal F ltac:(lia) ltac:(lia)); [|done|lia|done].
  rewrite length_replicate. unfold len. nia.
Qed.

Lemma upsample_none_witness :
  upsample [Num 1%Qc; PyNone; Num 1%Qc] 3 = Checked (Raise TypeError).
Proof.
  apply upsample_none; [lia|simpl; lia|]. right. left.
Defined.

(** Short signals.  For a factor above 1, [upsample] returns the empty
    list on the empty signal, and raises [IndexError] on a signal of one
    sample, which it tries to store in an empty result. *)
Theorem upsample_short (factor : Z) :
  factor > 1 →
  upsample [] factor = Checked (Ok [])
  ∧ ∀ x, upsample [x] factor = Checked (Raise IndexError).
Proof.
  intros Hf. unfold upsample.
  destruct (decide (factor > 1)) as [_|]; [|done]. split.
  - unfold enumerate. cbn [enumerate_from upsample_loop].
    replace (Z.to_nat ((len [] - 1) * factor)) with 0%nat by (unfold len; simpl; lia).
    done.
  - intros x. reflexivity.
Qed.

Lemma upsample_short_witness :
  upsample [] 2 = Checked (Ok [])
  ∧ ∀ x, upsample [x] 2 = Checked (Raise IndexError).
Proof. apply upsample_short. lia. Defined.

(** ** integral, delta, derivative *)

Lemma Qfloor_unique (q : Q) (k : Z) :
  (inject_Z k <= q)%Q → (q < inject_Z (k + 1))%Q → Qfloor q = k.
Proof.
  intros Hle Hlt.
  pose proof (Qfloor_resp_le _ _ Hle) as H1. rewrite Qfloor_Z in H1.
  pose proof (Qfloor_le q) as H2.
  assert (inject_Z (Qfloor q) < inject_Z (k + 1))%Q as H3
    by (eapply Qle_lt_trans; eassumption).
  rewrite <- Zlt_Qlt in H3. lia.
Qed.

Lemma Qceiling_unique (q : Q) (k : Z) :
  (inject_Z (k - 1) < q)%Q → (q <= inject_Z k)%Q → Qceiling q = k.
Proof.
  intros Hlt Hle.
  pose proof (Qceiling_resp_le _ _ Hle) as H1. rewrite Qceiling_Z in H1.
  pose proof (Qle_ceiling q) as H2.
  assert (inject_Z (k - 1) < inject_Z (Qceiling q))%Q as H3
    by (eapply Qlt_le_trans; eassumption).
  rewrite <- Zlt_Qlt in H3. lia.
Qed.

Lemma Qc_of_int_this (i : Z) : (this (Qc_of_int i) == inject_Z i)%Q.
Proof. unfold Qc_of_int, Q2Qc, this. apply Qred_correct. Qed.

Lemma Qc_plus_this (a b : Qc) : (this (a + b)%Qc == this a + this b)%Q.
Proof. unfold Qcplus, Q2Qc, this at 1. apply Qred_correct. Qed.

Lemma Qc_floor_int_plus (i : Z) (e : Qc) :
  (0 <= e)%Qc → (e < 1)%Qc → Qfloor (Qc_of_int i + e)%Qc = i.
Proof.
  intros H0 H1. unfold Qcle in H0. unfold Qclt in H1.
  change (this 0%Qc) with 0%Q in H0. change (this 1%Qc) with 1%Q in H1.
  apply Qfloor_unique; rewrite Qc_plus_this, Qc_of_int_this.
  - rewrite <- (Qplus_0_r (inject_Z i)) at 1. by apply Qplus_le_r.
  - rewrite inject_Z_plus. by apply Qplus_lt_r.
Qed.

Lemma Qc_ceiling_int_plus (i : Z) (e : Qc) :
  (0 < e)%Qc → (e <= 1)%Qc → Qceiling (Qc_of_int i + e)%Qc = i + 1.
Proof.
  intros H0 H1. unfold Qclt in H0. unfold Qcle in H1.
  change (this 0%Qc) with 0%Q in H0. change (this 1%Qc) with 1%Q in H1.
  apply Qceiling_unique; rewrite Qc_plus_this, Qc_of_int_this.
  - replace (i + 1 - 1) with i by lia.
    rewrite <- (Qplus_0_r (inject_Z i)) at 1. by apply Qplus_lt_r.
  - rewrite inject_Z_plus. by apply Qplus_le_r.
Qed.

Lemma Qc_of_int_floor (i : Z) : Qfloor (Qc_of_int i) = i.
Proof. rewrite <- (Qcplus_0_r (Qc_of_int i)). by apply Qc_floor_int_plus. Qed.

Lemma Qc_of_int_ceiling (i : Z) : Qceiling (Qc_of_int i) = i.
Proof.
  apply Qceiling_unique; rewrite Qc_of_int_this.
  - rewrite <- Zlt_Qlt. lia.
  - apply Qle_refl.
Qed.

Lemma Qc_of_int_le (a b : Z) : a ≤ b → (Qc_of_int a <= Qc_of_int b)%Qc.
Proof. intros H. unfold Qcle. rewrite !Qc_of_int_this, <- Zle_Qle. done. Qed.

Lemma Qc_of_int_lt (a b : Z) : a < b → (Qc_of_int a < Qc_of_int b)%Qc.
Proof. intros H. unfold Qclt. rewrite !Qc_of_int_this, <- Zlt_Qlt. done. Qed.

Lemma Qc_ltb_ge (x y : Qc) : Qc_ltb x y = false ↔ (y <= x)%Qc.
Proof.
  split.
  - intros H. apply Qcnot_lt_le. intros Hlt%Qc_ltb_lt. congruence.
  - intros H. destruct (Qc_ltb x y) eqn:E; [|done].
    apply Qc_ltb_lt in E. by apply Qcle_not_lt in H.
Qed.

Lemma integral_loop_spec (signal : list Qc) (v : Qc) (res : list Qc) (k : nat) (l : list Qc) :
  drop k signal = l →
  integral_loop signal v res (seq k (length l)) = Ok (res ++ running_sums v l).
Proof.
  revert k v res. induction l as [|y l IH]; intros k v res Hdrop.
  { simpl. by rewrite app_nil_r. }
  apply drop_cons_lookup in Hdrop as [Hy Hdrop].
  cbn [length seq integral_loop running_sums].
  rewrite getitem_nat, Hy, Ok_bind. cbv zeta.
  rewrite (IH (S k) _ _ Hdrop), <- app_assoc. done.
Qed.

Lemma integral_running_sums (signal : list Qc) :
  integral signal = Ok (running_sums 0%Qc signal).
Proof.
  unfold integral. unfold len. rewrite range_seq.
  apply (integral_loop_spec signal 0%Qc [] 0 signal). done.
Qed.

Lemma diff1_running_sums (v y : Qc) (l : list Qc) :
  diff1 (running_sums v (y :: l)) = l.
Proof.
  revert v y. induction l as [|z l IH]; intros v y; [done|].
  change (running_sums v (y :: z :: l))
    with ((v + y)%Qc :: running_sums (v + y)%Qc (z :: l)).
  change (running_sums (v + y)%Qc (z :: l))
    with ((v + y + z)%Qc :: running_sums (v + y + z)%Qc l) at 1.
  cbn [diff1]. f_equal; [ring|].
  apply (IH (v + y)%Qc z).
Qed.

Lemma running_sums_diff1 (v x : Qc) (l : list Qc) :
  running_sums v (diff1 (x :: l)) = (λ y, v + (y - x))%Qc <$> l.
Proof.
  revert v x. induction l as [|y l IH]; intros v x; [done|].
  change (diff1 (x :: y :: l)) with ((y - x)%Qc :: diff1 (y :: l)).
  cbn [running_sums fmap list_fmap]. f_equal. rewrite IH.
  apply list_fmap_ext. intros _ z _. ring.
Qed.

(** [delta] after [integral].  In exact arithmetic, the rounding of
    floats apart, the changes between the running sums of a signal of
    floats are its samples: [delta(integral(signal))] is the signal with 0
    in the place of its first sample (and [[0]] for the empty signal).
    [integral] raises nothing and returns as many values as there are
    samples. *)
Theorem delta_integral (signal : list Qc) :
  ∃ sums, integral signal = Ok sums
    ∧ length sums = length signal
    ∧ delta (Vector sums) = Ok (Vector (0%Qc :: tail signal)).
Proof.
  exists (running_sums 0%Qc signal). split; [apply integral_running_sums|].
  split.
  - generalize 0%Qc. induction signal as [|y l IH]; intros v; [done|].
    simpl. by rewrite IH.
  - unfold delta, np_diff, np_concatenate. do 2 f_equal.
    destruct signal as [|y l]; [done|]. simpl tail. f_equal.
    apply diff1_running_sums.
Qed.

(** [integral] after [delta].  In exact arithmetic, the rounding of
    floats apart, the running sums of the changes of a signal of floats
    are the signal counted from its first sample:
    [integral(delta(signal))[i]] is [signal[i] - signal[0]]. *)
Theorem integral_delta (first : Qc) (rest : list Qc) :
  ∃ changes, delta (Vector (first :: rest)) = Ok (Vector changes)
    ∧ integral changes = Ok ((λ x, x - first)%Qc <$> first :: rest).
Proof.
  exists (0%Qc :: diff1 (first :: rest)). split; [done|].
  rewrite integral_running_sums. f_equal.
  cbn [running_sums fmap list_fmap]. f_equal; [ring|].
  rewrite running_sums_diff1. apply list_fmap_ext. intros _ z _. ring.
Qed.

(** A signal of two dimensions.  On an array of shape [(n, dims)] with
    [dims] above 0, [delta] raises [ValueError]: [np.diff] takes the
    differences along the last axis, which leaves [dims - 1] columns, and
    the row of [dims] zeros does not fit on top of them. *)
Theorem delta_matrix (dims : nat) (rows : list (list Qc)) :
  (0 < dims)%nat → delta (Matrix dims rows) = Raise ValueError.
Proof.
  intros Hd. unfold delta, np_diff, np_concatenate.
  destruct (decide (dims = (dims - 1)%nat)); [lia|done].
Qed.

Lemma delta_matrix_witness :
  delta (Matrix 2 [[Qc_of_int 1; Qc_of_int 2]; [Qc_of_int 3; Qc_of_int 4]]) = Raise ValueError.
Proof. apply delta_matrix. lia. Defined.

Lemma mapM_cons {A B} (g : A → result B) (a : A) (l : list A) :
  mapM g (a :: l) = (y ← g a; k ← mapM g l; Ok (y :: k)).
Proof. reflexivity. Qed.

Lemma half_step_bounds :
  (0 <= derivative_h * Q2Qc (1 # 2))%Qc ∧ (derivative_h * Q2Qc (1 # 2) < 1)%Qc
  ∧ (0 <= 1 - derivative_h * Q2Qc (1 # 2))%Qc ∧ (1 - derivative_h * Q2Qc (1 # 2) < 1)%Qc.
Proof. repeat split; by vm_compute. Qed.

Lemma py_int_above (i : nat) :
  py_int (Qc_of_int (Z.of_nat i) + derivative_h * Q2Qc (1 # 2))%Qc = Z.of_nat i.
Proof.
  destruct half_step_bounds as (H0 & H1 & _).
  unfold py_int.
  assert (Qc_ltb (Qc_of_int (Z.of_nat i) + derivative_h * Q2Qc (1 # 2)) 0 = false) as ->.
  { apply Qc_ltb_ge. rewrite <- (Qcplus_0_r 0%Qc).
    apply Qcplus_le_compat; [|done]. apply (Qc_of_int_le 0). lia. }
  by apply Qc_floor_int_plus.
Qed.

Lemma py_int_below (i : nat) :
  py_int (Qc_of_int (Z.of_nat (S i)) - derivative_h * Q2Qc (1 # 2))%Qc = Z.of_nat i.
Proof.
  destruct half_step_bounds as (_ & _ & H0 & H1).
  replace (Qc_of_int (Z.of_nat (S i)) - derivative_h * Q2Qc (1 # 2))%Qc
    with (Qc_of_int (Z.of_nat i) + (1 - derivative_h * Q2Qc (1 # 2)))%Qc.
  2:{ replace (Z.of_nat (S i)) with (Z.of_nat i + 1) by lia.
      rewrite Qc_of_int_add. change (Qc_of_int 1) with 1%Qc. ring. }
  unfold py_int.
  assert (Qc_ltb (Qc_of_int (Z.of_nat i) + (1 - derivative_h * Q2Qc (1 # 2))) 0 = false) as ->.
  { apply Qc_ltb_ge. rewrite <- (Qcplus_0_r 0%Qc).
    apply Qcplus_le_compat; [|done]. apply (Qc_of_int_le 0). lia. }
  by apply Qc_floor_int_plus.
Qed.

Lemma over_derivative_h (d : Qc) :
  py_truediv d derivative_h = Ok (d / derivative_h)%Qc.
Proof.
  unfold py_truediv.
  assert (Qc_eqb derivative_h 0 = false) as -> by (by vm_compute). done.
Qed.

Lemma derivative_df_first (first : Qc) (rest : list Qc) :
  derivative_df (first :: rest) (Qc_of_int (Z.of_nat 0)) derivative_h
  = Ok ((first - first) / derivative_h)%Qc.
Proof.
  unfold derivative_df, derivative_f.
  assert (py_int (Qc_of_int (Z.of_nat 0) + derivative_h * Q2Qc (1 # 2)) = 0) as ->
    by (by vm_compute).
  assert (py_int (Qc_of_int (Z.of_nat 0) - derivative_h * Q2Qc (1 # 2)) = 0) as ->
    by (by vm_compute).
  change (getitem (first :: rest) 0) with (Ok first). rewrite !Ok_bind.
  apply over_derivative_h.
Qed.

Lemma derivative_df_next (signal : list Qc) (k : nat) (x y : Qc) :
  signal !! k = Some x → signal !! S k = Some y →
  derivative_df signal (Qc_of_int (Z.of_nat (S k))) derivative_h
  = Ok ((y - x) / derivative_h)%Qc.
Proof.
  intros Hx Hy. unfold derivative_df, derivative_f.
  rewrite py_int_above, py_int_below, !getitem_nat, Hx, Hy, !Ok_bind.
  apply over_derivative_h.
Qed.

Lemma derivative_rest (signal : list Qc) (k : nat) (x : Qc) (l : list Qc) :
  drop k signal = x :: l →
  mapM (λ i, derivative_df signal (Qc_of_int (Z.of_nat i)) derivative_h)
       (seq (S k) (length l))
  = Ok ((λ d, d / derivative_h)%Qc <$> diff1 (x :: l)).
Proof.
  revert k x. induction l as [|y l IH]; intros k x Hdrop; [done|].
  pose proof Hdrop as [Hx Hdrop']%drop_cons_lookup.
  pose proof Hdrop' as [Hy _]%drop_cons_lookup.
  cbn [length seq]. rewrite mapM_cons.
  rewrite (derivative_df_next signal k x y Hx Hy), Ok_bind.
  rewrite (IH (S k) y Hdrop'), Ok_bind. done.
Qed.

(** [derivative] and [delta].  On a signal of floats that is not empty,
    [derivative(signal)] is [delta(signal)] with every value divided by
    the step [h]: [int] cuts [x + h/2] to [x] and [x - h/2] to [x - 1] (to 0
    for [x = 0]), so the value at [x] is the change from the sample before,
    [signal[x] - signal[x-1]], over [h], and the signal is never read
    between two samples; at index 0 it is [(signal[0] - signal[0]) / h]. *)
Theorem derivative_delta_over_h (first : Qc) (rest : list Qc) :
  ∃ changes, delta (Vector (first :: rest)) = Ok (Vector changes)
    ∧ derivative (first :: rest)
      = Ok ((λ d, d / derivative_h)%Qc <$> changes).
Proof.
  exists (0%Qc :: diff1 (first :: rest)).
  assert (first - first = 0)%Qc as E by ring.
  split; [done|].
  unfold derivative, len. rewrite range_seq.
  cbn [length seq]. rewrite mapM_cons, derivative_df_first, Ok_bind.
  rewrite (derivative_rest (first :: rest) 0 first rest eq_refl), Ok_bind.
  cbn [fmap list_fmap]. by rewrite E.
Qed.

(** ** trendline *)

Lemma trendline_loop_ext (s1 s2 : list Qc) (s : trend_sums) (indexes : list nat) :
  (∀ i, i ∈ indexes → s1 !! i = s2 !! i) →
  trendline_loop s1 s indexes = trendline_loop s2 s indexes.
Proof.
  revert s. induction indexes as [|i indexes IH]; intros s H; [done|].
  cbn [trendline_loop]. rewrite !getitem_nat, (H i) by left.
  destruct (s2 !! i) as [y|]; [|done]. rewrite !Ok_bind. cbv zeta.
  apply IH. intros k Hk. apply H. by right.
Qed.

(** The first sample.  [trendline] does not read [signal[0]]: the
    regression runs over the indexes from 1 on, so two signals that differ
    in their first sample only have the same line. *)
Theorem trendline_skips_first (a b : Qc) (rest : list Qc) :
  trendline (a :: rest) = trendline (b :: rest).
Proof.
  unfold trendline, len. cbn [length].
  rewrite (trendline_loop_ext (a :: rest) (b :: rest)); [done|].
  intros i Hi. unfold range_from in Hi. apply elem_of_seq in Hi.
  destruct i as [|i]; [lia|done].
Qed.

(** Short signals.  On a signal of two samples or fewer both divisions
    are by zero: the [ZeroDivisionError] is caught and [trendline] returns
    [(0, 0)]. *)
Theorem trendline_short (signal : list Qc) :
  (length signal ≤ 2)%nat → trendline signal = Ok (0%Qc, 0%Qc).
Proof.
  intros H. destruct signal as [|x [|y [|z signal]]]; [| | |simpl in H; lia].
  - by vm_compute.
  - by vm_compute.
  - unfold trendline, len. cbn [length]. unfold range_from.
    replace (Z.to_nat (Z.of_nat 2 - 1 + 1 - Z.of_nat 1)) with 1%nat by lia.
    cbn [seq trendline_loop]. rewrite getitem_nat. cbn [lookup list_lookup].
    rewrite !Ok_bind. cbv zeta. cbn [sum_x sum_y sum_xx sum_xy].
    unfold py_truediv.
    assert (Qc_eqb (Qc_of_int (Z.of_nat 2 - 1) * (0 + Qc_of_int (Z.of_nat 1) ^ 2)
                    - (0 + Qc_of_int (Z.of_nat 1)) * (0 + Qc_of_int (Z.of_nat 1))) 0
            = true) as -> by (by vm_compute).
    done.
Qed.

Lemma trendline_short_witness :
  trendline [Qc_of_int 5; Qc_of_int 9] = Ok (0%Qc, 0%Qc).
Proof. apply trendline_short. simpl. lia. Defined.

Lemma Qc_two : Qc_of_int 2 = (1 + 1)%Qc.
Proof. apply Qc_is_canon. by vm_compute. Qed.

Lemma Qc_six : Qc_of_int 6 = ((1 + 1) * (1 + 1 + 1))%Qc.
Proof. apply Qc_is_canon. by vm_compute. Qed.

Lemma sums_on_line_step (m c : Qc) (j : Z) (s : trend_sums) (y : Qc) :
  sums_on_line m c j s →
  y = (m * Qc_of_int (j + 1) + c)%Qc →
  sums_on_line m c (j + 1)
    (TrendSums (sum_x s + Qc_of_int (j + 1)) (sum_y s + y)
               (sum_xx s + Qc_of_int (j + 1) ^ 2)
               (sum_xy s + Qc_of_int (j + 1) * y)).
Proof.
  intros (Hx & Hxx & Hy & Hxy) ->. unfold sums_on_line.
  cbn [sum_x sum_y sum_xx sum_xy Qcpower].
  rewrite Qc_of_int_add. change (Qc_of_int 1) with 1%Qc.
  set (q := Qc_of_int j) in *.
  split; [|split; [|split]].
  - transitivity (Qc_of_int 2 * sum_x s + Qc_of_int 2 * (q + 1))%Qc; [ring|].
    rewrite Hx, Qc_two. ring.
  - transitivity (Qc_of_int 6 * sum_xx s + Qc_of_int 6 * ((q + 1) * (q + 1)))%Qc; [ring|].
    rewrite Hxx, Qc_six, Qc_two. ring.
  - rewrite Hy. ring.
  - rewrite Hxy. ring.
Qed.

Lemma trendline_loop_on_line (signal : list Qc) (m c : Qc) (s : trend_sums)
    (k : nat) (l : list Qc) :
  drop (S k) signal = l →
  (∀ i y, (1 ≤ i)%nat → signal !! i = Some y → y = (m * Qc_of_int (Z.of_nat i) + c)%Qc) →
  sums_on_line m c (Z.of_nat k) s →
  ∃ s', trendline_loop signal s (seq (S k) (length l)) = Ok s'
    ∧ sums_on_line m c (Z.of_nat (k + length l)) s'.
Proof.
  intros Hdrop Hline. revert k s Hdrop.
  induction l as [|y l IH]; intros k s Hdrop Hs.
  { exists s. split; [done|]. by rewrite Nat.add_0_r. }
  apply drop_cons_lookup in Hdrop as [Hy Hdrop].
  cbn [length seq trendline_loop]. rewrite getitem_nat, Hy, Ok_bind. cbv zeta.
  replace (k + S (length l))%nat with (S k + length l)%nat by lia.
  apply IH; [done|].
  replace (Z.of_nat (S k)) with (Z.of_nat k + 1) by lia.
  apply sums_on_line_step; [done|].
  replace (Z.of_nat k + 1) with (Z.of_nat (S k)) by lia.
  apply Hline; [lia|done].
Qed.

Lemma sums_on_line_denominator (m c : Qc) (n : Z) (s : trend_sums) :
  2 ≤ n → sums_on_line m c n s →
  (Qc_of_int n * sum_xx s - sum_x s * sum_x s)%Qc ≠ 0%Qc.
Proof.
  intros Hn (Hx & Hxx & _ & _) HD.
  set (q := Qc_of_int n) in *.
  assert ((1 + 1) * (Qc_of_int 6 * (q * sum_xx s - sum_x s * sum_x s))
          = q * q * (q + 1) * (q - 1))%Qc as E.
  { transitivity ((1 + 1) * q * (Qc_of_int 6 * sum_xx s)
                  - (1 + 1 + 1) * ((Qc_of_int 2 * sum_x s) * (Qc_of_int 2 * sum_x s)))%Qc.
    - rewrite Qc_six, Qc_two. ring.
    - rewrite Hx, Hxx, Qc_two. ring. }
  rewrite HD, !Qcmult_0_r in E. symmetry in E.
  assert (q ≠ 0%Qc) as Hq by (apply Qc_of_int_nonzero; lia).
  assert (q + 1 ≠ 0)%Qc as Hq1.
  { change 1%Qc with (Qc_of_int 1). unfold q. rewrite <- Qc_of_int_add.
    apply Qc_of_int_nonzero. lia. }
  assert (q - 1 ≠ 0)%Qc as Hq2.
  { change 1%Qc with (Qc_of_int 1). unfold q. rewrite <- Qc_of_int_sub.
    apply Qc_of_int_nonzero. lia. }
  apply Qcmult_integral in E as [E|E]; [|done].
  apply Qcmult_integral in E as [E|E]; [|done].
  apply Qcmult_integral in E as [E|E]; done.
Qed.

(** Samples on a line.  In exact arithmetic, the rounding of floats
    apart: when the samples of a signal of three or more, the first one
    apart, are on a line, [signal[i] = m * i + c] from index 1 on,
    [trendline] returns that line, [(m, c)]. *)
Theorem trendline_exact (signal : list Qc) (m c : Qc) :
  (3 ≤ length signal)%nat →
  (∀ i y, (1 ≤ i)%nat → signal !! i = Some y → y = (m * Qc_of_int (Z.of_nat i) + c)%Qc) →
  trendline signal = Ok (m, c).
Proof.
  intros Hlen Hline. unfold trendline, len.
  destruct (trendline_loop_on_line signal m c (TrendSums 0 0 0 0) 0 (drop 1 signal)
              eq_refl Hline) as (s & Hs & Hinv).
  { unfold sums_on_line. cbn [sum_x sum_y sum_xx sum_xy].
    change (Qc_of_int (Z.of_nat 0)) with 0%Qc. repeat split; ring. }
  rewrite length_drop in Hs, Hinv.
  unfold range_from.
  replace (Z.to_nat (Z.of_nat (length signal) - 1 + 1 - Z.of_nat 1))
    with (length signal - 1)%nat by lia.
  rewrite Hs, Ok_bind. cbv zeta.
  replace (Z.of_nat (0 + (length signal - 1))) with (Z.of_nat (length signal) - 1)
    in Hinv by lia.
  assert (2 ≤ Z.of_nat (length signal) - 1) as Hn by lia.
  pose proof (sums_on_line_denominator m c _ s Hn Hinv) as HD.
  destruct Hinv as (_ & _ & Hy & Hxy).
  set (n := Qc_of_int (Z.of_nat (length signal) - 1)) in *.
  unfold py_truediv.
  assert (Qc_eqb (n * sum_xx s - sum_x s * sum_x s) 0 = false) as ->.
  { destruct (Qc_eqb _ _) eqn:E; [|done]. by apply Qc_eqb_eq in E. }
  rewrite !Ok_bind. cbn [fst snd]. f_equal. f_equal.
  - rewrite Hy, Hxy. field. done.
  - rewrite Hy, Hxy. field. done.
Qed.

Lemma trendline_exact_witness :
  trendline [Qc_of_int 7; Qc_of_int 3; Qc_of_int 5; Qc_of_int 7]
  = Ok (Qc_of_int 2, Qc_of_int 1).
Proof.
  apply trendline_exact; [simpl; lia|].
  intros [|[|[|[|i]]]] y Hi Hy; [lia| | | |done];
    injection Hy as <-; apply Qc_is_canon; by vm_compute.
Defined.

(** ** f *)

Lemma Qc_floor_le (t : Qc) : (Qc_of_int (Qfloor t) <= t)%Qc.
Proof. unfold Qcle. rewrite Qc_of_int_this. apply Qfloor_le. Qed.

Lemma Qc_lt_floor (t : Qc) : (t < Qc_of_int (Qfloor t) + 1)%Qc.
Proof.
  unfold Qclt. rewrite Qc_plus_this, Qc_of_int_this.
  change (this 1%Qc) with (inject_Z 1). rewrite <- inject_Z_plus. apply Qlt_floor.
Qed.

Lemma Qc_le_ceiling (t : Qc) : (t <= Qc_of_int (Qceiling t))%Qc.
Proof. unfold Qcle. rewrite Qc_of_int_this. apply Qle_ceiling. Qed.

Lemma Qc_floor_mono (a : Z) (t : Qc) : (Qc_of_int a <= t)%Qc → a ≤ Qfloor t.
Proof.
  intros H. rewrite <- (Qc_of_int_floor a). apply Qfloor_resp_le. exact H.
Qed.

Lemma Qc_ceiling_mono (t : Qc) (b : Z) : (t <= Qc_of_int b)%Qc → Qceiling t ≤ b.
Proof.
  intros H. rewrite <- (Qc_of_int_ceiling b). apply Qceiling_resp_le. exact H.
Qed.

Lemma Qc_floor_le_ceiling (t : Qc) : Qfloor t ≤ Qceiling t.
Proof.
  rewrite Zle_Qle. eapply Qle_trans; [apply Qfloor_le|apply Qle_ceiling].
Qed.

Lemma Qc_leb_le (x y : Qc) : Qc_leb x y = true ↔ (x <= y)%Qc.
Proof.
  unfold Qc_leb. rewrite negb_true_iff. apply Qc_ltb_ge.
Qed.

Lemma Qc_leb_gt (x y : Qc) : Qc_leb x y = false ↔ (y < x)%Qc.
Proof.
  unfold Qc_leb. rewrite negb_false_iff. apply Qc_ltb_lt.
Qed.

Lemma Qc_minus_nonneg (a b : Qc) : (a <= b)%Qc ↔ (0 <= b - a)%Qc.
Proof. apply Qcle_minus_iff. Qed.

Lemma Qc_mult_nonneg (a b : Qc) : (0 <= a)%Qc → (0 <= b)%Qc → (0 <= a * b)%Qc.
Proof.
  intros Ha Hb. rewrite <- (Qcmult_0_l b). by apply Qcmult_le_compat_r.
Qed.

Lemma Qc_between (lo hi p : Qc) :
  (0 <= p)%Qc → (p <= 1)%Qc →
  (Qc_min lo hi <= lo * (1 - p) + hi * p)%Qc
  ∧ (lo * (1 - p) + hi * p <= Qc_max lo hi)%Qc.
Proof.
  intros H0 H1. apply Qc_minus_nonneg in H1.
  unfold Qc_min, Qc_max.
  destruct (Qc_ltb hi lo) eqn:E1; destruct (Qc_ltb lo hi) eqn:E2.
  - apply Qc_ltb_lt in E1, E2. exfalso.
    apply (Qclt_not_le _ _ E1). by apply Qclt_le_weak.
  - apply Qc_ltb_lt, Qclt_le_weak, Qc_minus_nonneg in E1. split.
    + apply Qc_minus_nonneg.
      replace (lo * (1 - p) + hi * p - hi)%Qc with ((lo - hi) * (1 - p))%Qc by ring.
      by apply Qc_mult_nonneg.
    + apply Qc_minus_nonneg.
      replace (lo - (lo * (1 - p) + hi * p))%Qc with ((lo - hi) * p)%Qc by ring.
      by apply Qc_mult_nonneg.
  - apply Qc_ltb_lt, Qclt_le_weak, Qc_minus_nonneg in E2. split.
    + apply Qc_minus_nonneg.
      replace (lo * (1 - p) + hi * p - lo)%Qc with ((hi - lo) * p)%Qc by ring.
      by apply Qc_mult_nonneg.
    + apply Qc_minus_nonneg.
      replace (hi - (lo * (1 - p) + hi * p))%Qc with ((hi - lo) * (1 - p))%Qc by ring.
      by apply Qc_mult_nonneg.
  - apply Qc_ltb_ge in E1, E2. assert (lo = hi) as -> by (by apply Qcle_antisym).
    replace (hi * (1 - p) + hi * p)%Qc with hi by ring.
    split; apply Qcle_refl.
Qed.

Lemma getitem_raises {A} (l : list A) (i : Z) (e : exn) :
  getitem l i = Raise e → e = IndexError.
Proof.
  unfold getitem. cbv zeta.
  destruct (decide _); [|congruence].
  destruct (l !! _); congruence.
Qed.

Lemma getitem_in_range {A} (l : list A) (i : Z) :
  0 ≤ i < Z.of_nat (length l) → ∃ x, getitem l i = Ok x ∧ l !! Z.to_nat i = Some x.
Proof.
  intros Hi. destruct (lookup_lt_is_Some_2 l (Z.to_nat i)) as [x Hx]; [lia|].
  exists x. split; [|done].
  rewrite <- (Z2Nat.id i) by lia. by apply getitem_nat_Ok.
Qed.

Lemma getitem_past_end {A} (l : list A) (i : Z) :
  Z.of_nat (length l) ≤ i → getitem l i = Raise IndexError.
Proof.
  intros Hi. unfold getitem. cbv zeta.
  destruct (decide (i < 0)); [lia|].
  destruct (decide (0 ≤ i < Z.of_nat (length l))); [lia|done].
Qed.

(** Between two samples.  For [x] from 0 to 1 and a signal that is not
    empty, [f] raises nothing: the floor and the ceiling of the position
    [x * (len(signal) - 1)] are indexes of the signal, and [f] returns
    [lo * (1 - pos) + hi * pos] for the samples [lo] and [hi] there and
    [pos], the part of the position after the point, which is at least 0
    and below 1.  In exact arithmetic, the rounding of floats apart, this
    value is between the two samples. *)
Theorem f_between_neighbours (signal : list Qc) (x : Qc) :
  signal ≠ [] → (0 <= x)%Qc → (x <= 1)%Qc →
  let indexf := (x * Qc_of_int (len signal - 1))%Qc in
  let pos := (indexf - Qc_of_int (Qfloor indexf))%Qc in
  ∃ lo hi,
    0 ≤ Qfloor indexf ∧ Qceiling indexf < len signal
    ∧ signal !! Z.to_nat (Qfloor indexf) = Some lo
    ∧ signal !! Z.to_nat (Qceiling indexf) = Some hi
    ∧ f signal x = Ok (lo * (1 - pos) + hi * pos)%Qc
    ∧ (0 <= pos)%Qc ∧ (pos < 1)%Qc
    ∧ (Qc_min lo hi <= lo * (1 - pos) + hi * pos)%Qc
    ∧ (lo * (1 - pos) + hi * pos <= Qc_max lo hi)%Qc.
Proof.
  intros Hne H0 H1 indexf pos.
  assert (0 < length signal)%nat as Hlen by (destruct signal; [done|simpl; lia]).
  assert (0 <= Qc_of_int (len signal - 1))%Qc as Hn
    by (apply (Qc_of_int_le 0); unfold len; lia).
  assert (Qc_of_int 0 <= indexf)%Qc as Hlo by (by apply Qc_mult_nonneg).
  assert (indexf <= Qc_of_int (len signal - 1))%Qc as Hhi.
  { rewrite <- (Qcmult_1_l (Qc_of_int (len signal - 1))). unfold indexf.
    by apply Qcmult_le_compat_r. }
  apply Qc_floor_mono in Hlo. apply Qc_ceiling_mono in Hhi.
  pose proof (Qc_floor_le_ceiling indexf) as Hfc. unfold len in Hhi.
  destruct (getitem_in_range signal (Qfloor indexf)) as (lo & Hg1 & Hl1); [lia|].
  destruct (getitem_in_range signal (Qceiling indexf)) as (hi & Hg2 & Hl2); [lia|].
  assert (0 <= pos)%Qc as Hp0 by apply (proj1 (Qc_minus_nonneg _ _)), Qc_floor_le.
  assert (pos < 1)%Qc as Hp1.
  { apply (proj2 (Qclt_minus_iff _ _)).
    replace (1 + - pos)%Qc with (Qc_of_int (Qfloor indexf) + 1 + - indexf)%Qc
      by (unfold pos; ring).
    apply (proj1 (Qclt_minus_iff _ _)), Qc_lt_floor. }
  exists lo, hi. split; [done|]. split; [unfold len; lia|].
  split; [done|]. split; [done|]. split.
  - unfold f. apply Qc_leb_le in H1. rewrite H1. fold indexf.
    rewrite Hg1, Ok_bind, Hg2, Ok_bind. done.
  - split; [done|]. split; [done|].
    apply Qc_between; [done|]. by apply Qclt_le_weak.
Qed.

Lemma f_between_neighbours_witness :
  let signal := [Qc_of_int 2; Qc_of_int 6; Qc_of_int 4] in
  let indexf := (Q2Qc (1 # 4) * Qc_of_int (len signal - 1))%Qc in
  let pos := (indexf - Qc_of_int (Qfloor indexf))%Qc in
  ∃ lo hi,
    0 ≤ Qfloor indexf ∧ Qceiling indexf < len signal
    ∧ signal !! Z.to_nat (Qfloor indexf) = Some lo
    ∧ signal !! Z.to_nat (Qceiling indexf) = Some hi
    ∧ f signal (Q2Qc (1 # 4)) = Ok (lo * (1 - pos) + hi * pos)%Qc
    ∧ (0 <= pos)%Qc ∧ (pos < 1)%Qc
    ∧ (Qc_min lo hi <= lo * (1 - pos) + hi * pos)%Qc
    ∧ (lo * (1 - pos) + hi * pos <= Qc_max lo hi)%Qc.
Proof.
  apply (f_between_neighbours [Qc_of_int 2; Qc_of_int 6; Qc_of_int 4] (Q2Qc (1 # 4)));
    [done|by vm_compute|by vm_compute].
Defined.

Lemma f_at_index (signal : list Qc) (x : Qc) (k : nat) (y : Qc) :
  (if Qc_leb x 1 then x * Qc_of_int (len signal - 1) else x)%Qc = Qc_of_int (Z.of_nat k) →
  signal !! k = Some y →
  f signal x = Ok y.
Proof.
  intros Hx Hy. unfold f. rewrite Hx, Qc_of_int_floor, Qc_of_int_ceiling.
  rewrite getitem_nat, Hy, !Ok_bind. f_equal. ring.
Qed.

(** At the samples.  A whole number [x] other than 1 reads the sample at
    index [x]; but [x = 1] reads the last sample of the signal, not the one
    at index 1. *)
Theorem f_at_samples (signal : list Qc) (k : nat) (y last : Qc) :
  signal !! k = Some y → k ≠ 1%nat →
  signal !! (length signal - 1)%nat = Some last →
  f signal (Qc_of_int (Z.of_nat k)) = Ok y ∧ f signal 1%Qc = Ok last.
Proof.
  intros Hy Hk Hlast. split.
  - apply (f_at_index signal _ k y); [|done].
    destruct (decide (k = 0%nat)) as [->|Hk0].
    + change (Qc_of_int (Z.of_nat 0)) with 0%Qc.
      assert (Qc_leb 0 1 = true) as -> by (by vm_compute). ring.
    + assert (Qc_leb (Qc_of_int (Z.of_nat k)) 1 = false) as ->; [|done].
      apply Qc_leb_gt. apply (Qc_of_int_lt 1). lia.
  - apply (f_at_index signal _ (length signal - 1) last); [|done].
    assert (Qc_leb 1 1 = true) as -> by (by vm_compute).
    rewrite Qcmult_1_l. f_equal. unfold len.
    apply lookup_lt_Some in Hy. lia.
Qed.

Lemma f_at_samples_witness :
  let signal := [Qc_of_int 2; Qc_of_int 6; Qc_of_int 4; Qc_of_int 8] in
  f signal (Qc_of_int (Z.of_nat 2)) = Ok (Qc_of_int 4)
  ∧ f signal 1%Qc = Ok (Qc_of_int 8).
Proof.
  apply (f_at_samples [Qc_of_int 2; Qc_of_int 6; Qc_of_int 4; Qc_of_int 8] 2);
    [reflexivity|lia|reflexivity].
Defined.

(** Past the end.  For [x] above 1 and above the last index, [f] raises
    [IndexError]. *)
Theorem f_past_end (signal : list Qc) (x : Qc) :
  (1 < x)%Qc → (Qc_of_int (len signal - 1) < x)%Qc →
  f signal x = Raise IndexError.
Proof.
  intros H1 Hx. unfold f. apply Qc_leb_gt in H1. rewrite H1.
  assert (len signal ≤ Qceiling x) as Hc.
  { pose proof (Qc_le_ceiling x) as Hle.
    assert (Qc_of_int (len signal - 1) < Qc_of_int (Qceiling x))%Qc as Hlt
      by (eapply Qclt_le_trans; eassumption).
    unfold Qclt in Hlt. rewrite !Qc_of_int_this, <- Zlt_Qlt in Hlt. lia. }
  rewrite (getitem_past_end signal (Qceiling x)) by exact Hc.
  destruct (getitem signal (Qfloor x)) as [lo|e] eqn:E; [done|].
  apply getitem_raises in E as ->. done.
Qed.

Lemma f_past_end_witness :
  f [Qc_of_int 2; Qc_of_int 6; Qc_of_int 4] (Q2Qc (5 # 2)) = Raise IndexError.
Proof. apply f_past_end; by vm_compute. Defined.

(** ** magnitude, limit *)

Lemma Qc_abs_nonneg (x : Qc) : (0 <= Qc_abs x)%Qc.
Proof.
  unfold Qc_abs. destruct (Qc_ltb x 0) eqn:E.
  - apply Qc_ltb_lt, Qclt_le_weak in E. apply Qc_minus_nonneg in E.
    by replace (0 - x)%Qc with (- x)%Qc in E by ring.
  - by apply Qc_ltb_ge in E.
Qed.

Lemma Qc_of_int_pos (z : Z) : Qc_ltb 0 (Qc_of_int z) = bool_decide (0 < z).
Proof.
  destruct (decide (0 < z)) as [H|H].
  - rewrite bool_decide_true by done. apply Qc_ltb_lt. by apply (Qc_of_int_lt 0).
  - rewrite bool_decide_false by done. apply Qc_ltb_ge. apply (Qc_of_int_le z 0). lia.
Qed.

Lemma int64_in_range (z : Z) : - 2 ^ 63 ≤ z < 2 ^ 63 → int64 z = z.
Proof.
  intros H. unfold int64.
  change (2 ^ 64) with (2 * 2 ^ 63). rewrite Z.mod_small; lia.
Qed.

Lemma int64_abs_min : int64 (Z.abs (- 2 ^ 63)) = - 2 ^ 63.
Proof. reflexivity. Qed.

(** What [magnitude] returns.  On an array of floats it is the absolute
    value, and the threshold at 0 changes nothing.  On an array of 64-bit
    ints it is the absolute value too, but for the smallest int: there
    [np.absolute] wraps around and leaves [-2^63], which the threshold then
    turns into 0.  No value returned is negative. *)
Theorem magnitude_values (fs : list Qc) (zs : list Z) :
  Forall (λ z, - 2 ^ 63 ≤ z < 2 ^ 63) zs →
  magnitude (Floats fs) = Floats (Qc_abs <$> fs)
  ∧ magnitude (Ints zs)
    = Ints ((λ z, if decide (z = - 2 ^ 63) then 0 else Z.abs z) <$> zs)
  ∧ Forall (λ y, (0 <= y)%Qc) (Qc_abs <$> fs)
  ∧ Forall (λ y, 0 ≤ y) ((λ z, if decide (z = - 2 ^ 63) then 0 else Z.abs z) <$> zs).
Proof.
  intros Hzs. split; [|split; [|split]].
  - unfold magnitude, np_absolute, threshold. f_equal.
    rewrite <- list_fmap_compose.
    apply list_fmap_ext. intros _ x _. unfold compose.
    destruct (Qc_ltb 0 (Qc_abs x)) eqn:Hx; [ring|].
    apply Qc_ltb_ge in Hx.
    assert (Qc_abs x = 0%Qc) as -> by (apply Qcle_antisym; [done|apply Qc_abs_nonneg]).
    ring.
  - unfold magnitude, np_absolute, threshold. f_equal.
    rewrite <- list_fmap_compose.
    apply Forall_fmap_ext_1. eapply Forall_impl; [exact Hzs|].
    intros z Hz. unfold compose. cbv beta in Hz.
    destruct (decide (z = - 2 ^ 63)) as [->|Hne].
    + rewrite int64_abs_min. reflexivity.
    + rewrite (int64_in_range (Z.abs z)) by lia.
      rewrite Qc_of_int_pos.
      destruct (decide (0 < Z.abs z)) as [H|H].
      * rewrite bool_decide_true by done. rewrite Z.mul_1_l.
        apply int64_in_range. lia.
      * rewrite bool_decide_false by done. rewrite Z.mul_0_l.
        assert (Z.abs z = 0) as -> by lia. reflexivity.
  - apply Forall_fmap, Forall_forall. intros x _. apply Qc_abs_nonneg.
  - apply Forall_fmap, Forall_forall. intros z _. unfold compose.
    destruct (decide (z = - 2 ^ 63)); lia.
Qed.

Lemma magnitude_values_witness :
  magnitude (Floats [Qc_of_int (-3); Qc_of_int 2])
  = Floats (Qc_abs <$> [Qc_of_int (-3); Qc_of_int 2])
  ∧ magnitude (Ints [- 2 ^ 63; -3; 2])
    = Ints ((λ z, if decide (z = - 2 ^ 63) then 0 else Z.abs z) <$> [- 2 ^ 63; -3; 2])
  ∧ Forall (λ y, (0 <= y)%Qc) (Qc_abs <$> [Qc_of_int (-3); Qc_of_int 2])
  ∧ Forall (λ y, 0 ≤ y)
      ((λ z, if decide (z = - 2 ^ 63) then 0 else Z.abs z) <$> [- 2 ^ 63; -3; 2]).
Proof.
  apply (magnitude_values [Qc_of_int (-3); Qc_of_int 2] [- 2 ^ 63; -3; 2]).
  repeat constructor; lia.
Defined.

Lemma clip_cases (x value : Qc) :
  (0 <= value)%Qc →
  (0 <= Qc_min (Qc_max x 0) value)%Qc ∧ (Qc_min (Qc_max x 0) value <= value)%Qc
  ∧ ((0 <= x)%Qc → (x <= value)%Qc → Qc_min (Qc_max x 0) value = x).
Proof.
  intros Hv. unfold Qc_min, Qc_max.
  destruct (Qc_ltb x 0) eqn:E1.
  - apply Qc_ltb_lt in E1.
    assert (Qc_ltb value 0 = false) as -> by (by apply Qc_ltb_ge).
    split; [apply Qcle_refl|]. split; [done|].
    intros H0. by apply Qcle_not_lt in H0.
  - apply Qc_ltb_ge in E1. destruct (Qc_ltb value x) eqn:E2.
    + apply Qc_ltb_lt in E2. split; [done|]. split; [apply Qcle_refl|].
      intros _ H. by apply Qcle_not_lt in H.
    + apply Qc_ltb_ge in E2. done.
Qed.

(** [limit] with a limit of 0 or more.  Every value that [limit] returns
    is between 0 and the limit, and the samples that already are come
    back unchanged. *)
Theorem limit_range (signal : list Qc) (value : Qc) :
  (0 <= value)%Qc →
  length (limit signal value) = length signal
  ∧ Forall (λ y, (0 <= y)%Qc ∧ (y <= value)%Qc) (limit signal value)
  ∧ ∀ i x, signal !! i = Some x → (0 <= x)%Qc → (x <= value)%Qc →
      limit signal value !! i = Some x.
Proof.
  intros Hv. unfold limit, np_clip. split; [apply length_fmap|]. split.
  - apply Forall_fmap, Forall_forall. intros x _. unfold compose.
    destruct (clip_cases x value Hv) as (? & ? & _). done.
  - intros i x Hx H0 H1. rewrite list_lookup_fmap, Hx. cbn. f_equal.
    destruct (clip_cases x value Hv) as (_ & _ & H). by apply H.
Qed.

Lemma limit_range_witness :
  let signal := [Qc_of_int (-3); Qc_of_int 2; Qc_of_int 9] in
  length (limit signal (Qc_of_int 5)) = length signal
  ∧ Forall (λ y, (0 <= y)%Qc ∧ (y <= Qc_of_int 5)%Qc) (limit signal (Qc_of_int 5))
  ∧ ∀ i x, signal !! i = Some x → (0 <= x)%Qc → (x <= Qc_of_int 5)%Qc →
      limit signal (Qc_of_int 5) !! i = Some x.
Proof.
  apply (limit_range [Qc_of_int (-3); Qc_of_int 2; Qc_of_int 9] (Qc_of_int 5)).
  by vm_compute.
Defined.

(** [limit] with a negative limit.  The lower bound 0 is applied first and
    the limit last, so every value that [limit] returns is the negative
    limit itself, whatever the sample was. *)
Theorem limit_negative (signal : list Qc) (value : Qc) :
  (value < 0)%Qc → limit signal value = replicate (length signal) value.
Proof.
  intros Hv. unfold limit, np_clip.
  induction signal as [|x signal IH]; [done|].
  cbn [fmap list_fmap length replicate]. f_equal; [|exact IH].
  unfold Qc_min, Qc_max. destruct (Qc_ltb x 0) eqn:E1.
  - by apply Qc_ltb_lt in Hv as ->.
  - apply Qc_ltb_ge in E1.
    assert (Qc_ltb value x = true) as ->; [|done].
    apply Qc_ltb_lt. by eapply Qclt_le_trans.
Qed.

Lemma limit_negative_witness :
  limit [Qc_of_int (-3); Qc_of_int 2; Qc_of_int 9] (Qc_of_int (-1))
  = replicate 3 (Qc_of_int (-1)).
Proof.
  apply (limit_negative [Qc_of_int (-3); Qc_of_int 2; Qc_of_int 9]). by vm_compute.
Defined.

(** ** normalize *)

Lemma Qc_min_cases (x y : Qc) :
  (Qc_min x y = x ∨ Qc_min x y = y) ∧ (Qc_min x y <= x)%Qc ∧ (Qc_min x y <= y)%Qc.
Proof.
  unfold Qc_min. destruct (Qc_ltb y x) eqn:E.
  - apply Qc_ltb_lt, Qclt_le_weak in E. split; [by right|]. split; [done|apply Qcle_refl].
  - apply Qc_ltb_ge in E. split; [by left|]. split; [apply Qcle_refl|done].
Qed.

Lemma Qc_max_cases (x y : Qc) :
  (Qc_max x y = x ∨ Qc_max x y = y) ∧ (x <= Qc_max x y)%Qc ∧ (y <= Qc_max x y)%Qc.
Proof.
  unfold Qc_max. destruct (Qc_ltb x y) eqn:E.
  - apply Qc_ltb_lt, Qclt_le_weak in E. split; [by right|]. split; [done|apply Qcle_refl].
  - apply Qc_ltb_ge in E. split; [by left|]. split; [apply Qcle_refl|done].
Qed.

Lemma foldl_Qc_min (x : Qc) (a : list Qc) :
  foldl Qc_min x a ∈ x :: a ∧ ∀ y, y ∈ x :: a → (foldl Qc_min x a <= y)%Qc.
Proof.
  revert x. induction a as [|z a IH]; intros x.
  { simpl. split; [left|]. intros y ->%list_elem_of_singleton. apply Qcle_refl. }
  cbn [foldl]. destruct (IH (Qc_min x z)) as [Hin Hle].
  destruct (Qc_min_cases x z) as (Hc & Hx & Hz). split.
  - apply elem_of_cons in Hin as [->|Hin].
    + destruct Hc as [->| ->]; [left|right; left].
    + right. by right.
  - intros y [->|[->|Hy]%elem_of_cons]%elem_of_cons.
    + eapply Qcle_trans; [apply Hle; left|done].
    + eapply Qcle_trans; [apply Hle; left|done].
    + apply Hle. by right.
Qed.

Lemma foldl_Qc_max (x : Qc) (a : list Qc) :
  foldl Qc_max x a ∈ x :: a ∧ ∀ y, y ∈ x :: a → (y <= foldl Qc_max x a)%Qc.
Proof.
  revert x. induction a as [|z a IH]; intros x.
  { simpl. split; [left|]. intros y ->%list_elem_of_singleton. apply Qcle_refl. }
  cbn [foldl]. destruct (IH (Qc_max x z)) as [Hin Hle].
  destruct (Qc_max_cases x z) as (Hc & Hx & Hz). split.
  - apply elem_of_cons in Hin as [->|Hin].
    + destruct Hc as [->| ->]; [left|right; left].
    + right. by right.
  - intros y [->|[->|Hy]%elem_of_cons]%elem_of_cons.
    + eapply Qcle_trans; [done|apply Hle; left].
    + eapply Qcle_trans; [done|apply Hle; left].
    + apply Hle. by right.
Qed.

Lemma array_min_spec (a : list Qc) :
  a ≠ [] → ∃ lo, array_min a = Ok lo ∧ lo ∈ a ∧ ∀ y, y ∈ a → (lo <= y)%Qc.
Proof.
  destruct a as [|x a]; [done|]. intros _. eexists. split; [done|].
  apply foldl_Qc_min.
Qed.

Lemma array_max_spec (a : list Qc) :
  a ≠ [] → ∃ hi, array_max a = Ok hi ∧ hi ∈ a ∧ ∀ y, y ∈ a → (y <= hi)%Qc.
Proof.
  destruct a as [|x a]; [done|]. intros _. eexists. split; [done|].
  apply foldl_Qc_max.
Qed.

Lemma clip_unit (q : Qc) :
  (0 <= Qc_min (Qc_max q 0) 1)%Qc ∧ (Qc_min (Qc_max q 0) 1 <= 1)%Qc
  ∧ ((0 <= q)%Qc → (q <= 1)%Qc → Qc_min (Qc_max q 0) 1 = q).
Proof. apply clip_cases. by vm_compute. Qed.

(** The range of [normalize].  Whatever the minimum and maximum are,
    given or observed, every value that [normalize] returns is a number
    between 0 and 1, or [nan]; there are as many as samples. *)
Theorem normalize_range (signal : list Qc) (minimum maximum : option Qc)
    (out : list np_float) :
  normalize signal minimum maximum = Ok out →
  length out = length signal
  ∧ Forall (λ y, y = NpNaN ∨ ∃ q, y = NpVal (Fin q) ∧ (0 <= q)%Qc ∧ (q <= 1)%Qc) out.
Proof.
  intros H. unfold normalize in H.
  apply bind_Ok in H as (lo & _ & H). apply bind_Ok in H as (hi & _ & H).
  injection H as <-. split; [by rewrite !length_fmap|].
  rewrite <- !list_fmap_compose. apply Forall_fmap, Forall_forall.
  intros x _. unfold compose, np_divide.
  destruct (Qc_eqb (hi - lo) 0).
  - destruct (Qc_eqb (x - lo) 0); [by left|]. right.
    destruct (Qc_ltb 0 (x - lo)); cbn [np_clip_float]; eexists; (split; [done|]);
      by vm_compute.
  - right. cbn [np_clip_float]. eexists. split; [done|].
    destruct (clip_unit ((x - lo) / (hi - lo))) as (? & ? & _). done.
Qed.

Lemma normalize_range_witness :
  length [NpVal (Fin 0%Qc); NpVal (Fin 1%Qc); NpVal (Fin 1%Qc)] = 3%nat
  ∧ Forall (λ y, y = NpNaN ∨ ∃ q, y = NpVal (Fin q) ∧ (0 <= q)%Qc ∧ (q <= 1)%Qc)
      [NpVal (Fin 0%Qc); NpVal (Fin 1%Qc); NpVal (Fin 1%Qc)].
Proof.
  apply (normalize_range [Qc_of_int 1; Qc_of_int 3; Qc_of_int 7]
           (Some (Qc_of_int 2)) (Some (Qc_of_int 3))).
  by vm_compute.
Defined.

Lemma Qc_div_unit (a d : Qc) :
  (0 <= a)%Qc → (a <= d)%Qc → (0 < d)%Qc → (0 <= a / d)%Qc ∧ (a / d <= 1)%Qc.
Proof.
  intros Ha Had Hd.
  assert (d ≠ 0%Qc) as Hne by (intros ->; by apply Qclt_not_eq in Hd).
  assert (a / d * d = a)%Qc as E by (field; done).
  split; apply (Qcmult_lt_0_le_reg_r _ _ d Hd); rewrite E.
  - by rewrite Qcmult_0_l.
  - by rewrite Qcmult_1_l.
Qed.

(** [normalize] with the observed minimum and maximum.  On a signal whose
    samples are not all the same, [normalize] raises nothing and maps the
    sample [x] to [(x - lo) / (hi - lo)], where [lo] is the smallest sample
    and [hi] the largest: [lo] goes to 0, [hi] to 1, the order is kept. *)
Theorem normalize_observed (signal : list Qc) (x y : Qc) :
  x ∈ signal → y ∈ signal → x ≠ y →
  ∃ lo hi, lo ∈ signal ∧ hi ∈ signal ∧ (lo < hi)%Qc
    ∧ (∀ z, z ∈ signal → (lo <= z)%Qc ∧ (z <= hi)%Qc)
    ∧ normalize signal None None
      = Ok ((λ z, NpVal (Fin ((z - lo) / (hi - lo))%Qc)) <$> signal).
Proof.
  intros Hx Hy Hxy.
  assert (signal ≠ []) as Hne by (intros ->; by apply elem_of_nil in Hx).
  destruct (array_min_spec signal Hne) as (lo & Hmin & Hlo & Hle).
  destruct (array_max_spec signal Hne) as (hi & Hmax & Hhi & Hge).
  assert (lo < hi)%Qc as Hlt.
  { apply Qcnot_le_lt. intros Hc. apply Hxy.
    assert (hi = lo) as -> by (apply Qcle_antisym; [done|]; by apply Hle).
    transitivity lo; [|symmetry]; apply Qcle_antisym; auto. }
  exists lo, hi. split; [done|]. split; [done|]. split; [done|].
  split; [by split; auto|].
  unfold normalize. rewrite Hmin, Ok_bind, Hmax, Ok_bind. cbv zeta. f_equal.
  rewrite <- !list_fmap_compose. apply list_fmap_ext. intros _ z Hz%list_elem_of_lookup_2.
  unfold compose, np_divide.
  assert (0 < hi - lo)%Qc as Hd.
  { apply Qclt_minus_iff in Hlt. by replace (hi + - lo)%Qc with (hi - lo)%Qc in Hlt by ring. }
  assert (Qc_eqb (hi - lo) 0 = false) as ->.
  { destruct (Qc_eqb _ _) eqn:E; [|done]. apply Qc_eqb_eq in E.
    rewrite E in Hd. by apply Qclt_not_eq in Hd. }
  cbn [np_clip_float]. do 2 f_equal.
  destruct (Qc_div_unit (z - lo) (hi - lo)) as [H0 H1]; [| |done|].
  { apply (proj1 (Qc_minus_nonneg _ _)). by apply Hle. }
  { apply (proj2 (Qc_minus_nonneg _ _)).
    replace (hi - lo - (z - lo))%Qc with (hi - z)%Qc by ring.
    apply (proj1 (Qc_minus_nonneg _ _)). by apply Hge. }
  destruct (clip_unit ((z - lo) / (hi - lo))) as (_ & _ & H). by apply H.
Qed.

Lemma normalize_observed_witness :
  let signal := [Qc_of_int 4; Qc_of_int 2; Qc_of_int 6] in
  ∃ lo hi, lo ∈ signal ∧ hi ∈ signal ∧ (lo < hi)%Qc
    ∧ (∀ z, z ∈ signal → (lo <= z)%Qc ∧ (z <= hi)%Qc)
    ∧ normalize signal None None
      = Ok ((λ z, NpVal (Fin ((z - lo) / (hi - lo))%Qc)) <$> signal).
Proof.
  apply (normalize_observed [Qc_of_int 4; Qc_of_int 2; Qc_of_int 6]
           (Qc_of_int 4) (Qc_of_int 2)).
  - left.
  - right. left.
  - intros E. apply (f_equal this) in E. by vm_compute in E.
Defined.

(** Flat and empty signals.  With the observed minimum and maximum,
    [normalize] raises [ValueError] on the empty signal, and returns
    nothing but [nan] on a signal whose samples are all the same: the
    division is [0 / 0], which numpy does not raise on. *)
Theorem normalize_flat (n : nat) (c : Qc) :
  normalize (replicate n c) None None
  = if decide (n = 0%nat) then Raise ValueError else Ok (replicate n NpNaN).
Proof.
  destruct (decide (n = 0%nat)) as [->|Hn]; [done|].
  assert (replicate n c ≠ []) as Hne by (destruct n; done).
  destruct (array_min_spec _ Hne) as (lo & Hmin & Hlo%elem_of_replicate & _).
  destruct (array_max_spec _ Hne) as (hi & Hmax & Hhi%elem_of_replicate & _).
  destruct Hlo as [-> _]. destruct Hhi as [-> _].
  unfold normalize. rewrite Hmin, Ok_bind, Hmax, Ok_bind. cbv zeta. f_equal.
  rewrite !fmap_replicate. f_equal.
  unfold np_divide.
  assert (c - c = 0)%Qc as -> by ring. done.
Qed.

(** ** downsample *)

Lemma slice_step_lookup {A} (a : list A) (skip step k : nat) :
  (0 < step)%nat → slice_step a skip step !! k = a !! (skip + k * step)%nat.
Proof.
  intros Hs. revert skip k. induction a as [|x a IH]; intros skip k; [done|].
  destruct skip as [|skip]; cbn [slice_step].
  - destruct k as [|k]; [done|]. cbn [lookup list_lookup]. rewrite IH.
    replace (0 + S k * step)%nat with (S (step - 1 + k * step)) by lia. done.
  - rewrite IH. done.
Qed.

Lemma slice_step_length {A} (a : list A) (skip step m : nat) :
  (0 < step)%nat → (skip < step)%nat → length a = (m * step)%nat →
  length (slice_step a skip step) = m.
Proof.
  intros Hs Hk Hlen.
  destruct (Nat.lt_trichotomy (length (slice_step a skip step)) m) as [H|[H|H]];
    [|done|].
  - exfalso. pose proof (lookup_ge_None_2 (slice_step a skip step) _ (Nat.le_refl _)) as E.
    rewrite slice_step_lookup in E by done.
    apply lookup_ge_None_1 in E. nia.
  - exfalso. destruct (lookup_lt_is_Some_2 (slice_step a skip step) m H) as [x E].
    rewrite slice_step_lookup in E by done.
    apply lookup_lt_Some in E. nia.
Qed.

Lemma foldl_zip_length (acc : list Qc) (rows : list (list Qc)) (m : nat) :
  length acc = m → Forall (λ r, length r = m) rows →
  length (foldl (zip_with Qcplus) acc rows) = m.
Proof.
  revert acc. induction rows as [|r rows IH]; intros acc Hacc Hrows; [done|].
  apply Forall_cons in Hrows as [Hr Hrows]. cbn [foldl]. apply IH; [|done].
  rewrite length_zip_with. lia.
Qed.

Lemma foldl_zip_lookup (acc : list Qc) (rows : list (list Qc)) (k : nat)
    (a : Qc) (vals : list Qc) :
  acc !! k = Some a → Forall2 (λ r v, r !! k = Some v) rows vals →
  foldl (zip_with Qcplus) acc rows !! k = Some (a + Qc_sum vals)%Qc.
Proof.
  intros Ha H. revert acc a Ha. induction H as [|r v rows vals Hr _ IH]; intros acc a Ha.
  { simpl. rewrite Ha. f_equal. unfold Qc_sum. simpl. ring. }
  cbn [foldl]. rewrite (IH _ (a + v)%Qc).
  - f_equal. unfold Qc_sum. cbn [foldr]. ring.
  - rewrite lookup_zip_with, Ha. cbn. rewrite Hr. done.
Qed.

Lemma downsample_spec (signal : list Qc) (F : nat) :
  (0 < F)%nat →
  ∃ out, downsample signal (Z.of_nat F) = Ok (MeanArray out)
    ∧ length out = (length signal / F)%nat
    ∧ ∀ k, (k < length signal / F)%nat →
        out !! k
        = Some (Qc_sum (take F (drop (k * F) signal)) / Qc_of_int (Z.of_nat F))%Qc.
Proof.
  intros HF. set (m := (length signal / F)%nat).
  assert (Hm : (m * F ≤ length signal)%nat).
  { unfold m. rewrite Nat.mul_comm. apply Nat.Div0.mul_div_le. }
  assert (Hmod : Z.of_nat (length signal) - Z.of_nat (length signal) `mod` Z.of_nat F
                 = Z.of_nat (m * F)).
  { unfold m. rewrite <- Nat2Z.inj_mod.
    pose proof (Nat.div_mod_eq (length signal) F). lia. }
  unfold downsample, py_mod, len.
  destruct (decide (Z.of_nat F = 0)) as [|_]; [lia|]. rewrite Ok_bind. cbv zeta.
  rewrite Hmod.
  assert (slice signal 0 (Z.of_nat (m * F)) = take (m * F) signal) as ->.
  { unfold slice, slice_bound.
    destruct (decide (0 < 0)) as [|_]; [lia|].
    destruct (decide (Z.of_nat (m * F) < 0)) as [|_]; [lia|].
    replace (0 `min` Z.of_nat (length signal)) with 0 by lia.
    change (Z.to_nat 0) with 0%nat. rewrite drop_0. f_equal. lia. }
  clearbody m.
  set (trimmed := take (m * F) signal).
  assert (Htl : length trimmed = (m * F)%nat) by (unfold trimmed; rewrite length_take; lia).
  assert (Htr : ∀ j, (j < m * F)%nat → ∃ x, trimmed !! j = Some x ∧ signal !! j = Some x).
  { intros j Hj. destruct (lookup_lt_is_Some_2 signal j) as [x Hx]; [lia|].
    exists x. split; [|done]. unfold trimmed. by rewrite lookup_take_lt. }
  clearbody trimmed.
  rewrite range_seq, Nat2Z.id.
  assert (Hseq : seq 0 F = 0%nat :: seq 1 (F - 1)) by (destruct F; [lia|]; simpl; f_equal; f_equal; lia).
  rewrite Hseq. cbn [fmap list_fmap].
  eexists. split; [done|].
  set (rows' := (λ i, slice_step trimmed i F) <$> seq 1 (F - 1)).
  assert (Hlen0 : length (slice_step trimmed 0 F) = m) by (apply slice_step_length; lia).
  assert (Hrows : Forall (λ r, length r = m) rows').
  { apply Forall_fmap, Forall_forall. intros i Hi%elem_of_seq. unfold compose.
    apply slice_step_length; lia. }
  unfold np_mean_rows. split.
  - rewrite length_fmap. by apply foldl_zip_length.
  - intros k Hk. rewrite list_lookup_fmap.
    assert (HkF : (k * F + F ≤ m * F)%nat) by nia.
    assert (Hdrop : take F (drop (k * F) signal)
                    = (λ i, default 0%Qc (trimmed !! (i + k * F)%nat)) <$> seq 0 F).
    { apply list_eq. intros i. rewrite list_lookup_fmap.
      destruct (decide (i < F)%nat) as [Hi|Hi].
      - rewrite lookup_take_lt, lookup_drop, lookup_seq_lt by lia.
        cbn [fmap option_fmap option_map]. 
        destruct (Htr (0 + i + k * F)%nat) as (x & -> & Hx); [lia|].
        replace (k * F + i)%nat with (0 + i + k * F)%nat by lia. by rewrite Hx.
      - rewrite lookup_take_ge, lookup_seq_ge by lia. done. }
    rewrite Hseq in Hdrop. cbn [fmap list_fmap] in Hdrop.
    rewrite Hdrop.
    rewrite (foldl_zip_lookup _ rows' k (default 0%Qc (trimmed !! (0 + k * F)%nat))
               ((λ i, default 0%Qc (trimmed !! (i + k * F)%nat)) <$> seq 1 (F - 1))).
    + cbn [fmap option_fmap option_map]. do 2 f_equal. unfold len. cbn [length]. unfold rows'.
      rewrite length_fmap, length_seq. f_equal. lia.
    + rewrite slice_step_lookup by lia.
      destruct (Htr (0 + k * F)%nat) as (x & -> & _); [lia|done].
    + unfold rows'. apply Forall2_fmap, Forall_Forall2_diag, Forall_forall.
      intros i Hi%elem_of_seq. rewrite slice_step_lookup by lia.
      destruct (Htr (i + k * F)%nat) as (x & -> & _); [lia|done].
Qed.


(** Block means.  For a factor of 1 or more, [downsample] returns
    [len(signal) // factor] values, and the value at index [k] is the mean
    of the [factor] samples from index [k * factor] on; the samples left
    over at the end are dropped. *)
Theorem downsample_block_means (signal : list Qc) (factor : Z) :
  1 ≤ factor →
  ∃ out, downsample signal factor = Ok (MeanArray out)
    ∧ len out = len signal `div` factor
    ∧ ∀ k, (k < length out)%nat →
        out !! k
        = Some (Qc_sum (take (Z.to_nat factor) (drop (k * Z.to_nat factor) signal))
                / Qc_of_int factor)%Qc.
Proof.
  intros Hf.
  assert (∃ F, factor = Z.of_nat F ∧ (0 < F)%nat) as (F & -> & HF)
    by (exists (Z.to_nat factor); lia).
  destruct (downsample_spec signal F HF) as (out & Hout & Hlen & Hval).
  exists out. split; [done|]. split.
  - unfold len. rewrite Hlen. apply Nat2Z.inj_div.
  - intros k Hk. rewrite Nat2Z.id. apply Hval. by rewrite <- Hlen.
Qed.

Lemma downsample_block_means_witness :
  ∃ out, downsample [Qc_of_int 1; Qc_of_int 3; Qc_of_int 5; Qc_of_int 9; Qc_of_int 4] 2
         = Ok (MeanArray out)
    ∧ len out = 5 `div` 2
    ∧ ∀ k, (k < length out)%nat →
        out !! k
        = Some (Qc_sum (take 2 (drop (k * 2)
                  [Qc_of_int 1; Qc_of_int 3; Qc_of_int 5; Qc_of_int 9; Qc_of_int 4]))
                / Qc_of_int 2)%Qc.
Proof.
  apply (downsample_block_means
           [Qc_of_int 1; Qc_of_int 3; Qc_of_int 5; Qc_of_int 9; Qc_of_int 4] 2).
  lia.
Defined.

(** A factor of 1.  [downsample(signal, 1)] is the signal. *)
Theorem downsample_one (signal : list Qc) :
  downsample signal 1 = Ok (MeanArray signal).
Proof.
  destruct (downsample_spec signal 1 ltac:(lia)) as (out & Hout & Hlen & Hval).
  change (Z.of_nat 1) with 1 in Hout. rewrite Hout. do 2 f_equal.
  rewrite Nat.div_1_r in Hlen, Hval.
  apply list_eq. intros k. destruct (decide (k < length signal)%nat) as [Hk|Hk].
  - rewrite (Hval k Hk).
    destruct (lookup_lt_is_Some_2 signal k Hk) as [x Hx]. rewrite Hx.
    rewrite Nat.mul_1_r, (drop_S _ x) by done. cbn [take]. rewrite take_0.
    f_equal. unfold Qc_sum. cbn [foldr]. change (Qc_of_int (Z.of_nat 1)) with 1%Qc.
    unfold Qcdiv. change (/ 1)%Qc with 1%Qc. ring.
  - rewrite !lookup_ge_None_2; [done|lia|lia].
Qed.
